(** * Producer/consumer queues and the fixed-capacity stack of
      embedded-cpp-studies, embedded in Rocq.

    The C++ sources coordinate threads through one mutex per shared object
    and condition variables.  Every member function takes the mutex for its
    whole body, so a call is one critical section: it is modelled as a
    function on the shared state.  [condition_variable::wait(lock, pred)] is
    the first statement of each critical section that uses it; a section
    whose predicate is false has changed nothing and is [Blocked], to be
    tried again in a later state. *)

From Stdlib Require Import String.
From Stdlib Require Import ZArith List Bool Lia Permutation.
Import ListNotations.
Open Scope Z_scope.

(* ================================================================= *)
(** ** Critical sections of a monitor *)

Module Monitor.

Inductive outcome (St A : Type) : Type :=
| Blocked : outcome St A
| Returned : St -> A -> outcome St A.
Arguments Blocked {St A}.
Arguments Returned {St A} _ _.

Definition crit (St A : Type) : Type := St -> outcome St A.

Definition ret {St A} (a : A) : crit St A := fun s => Returned s a.

Definition bind {St A B} (c : crit St A) (k : A -> crit St B) : crit St B :=
  fun s => match c s with
           | Blocked => Blocked
           | Returned s' a => k a s'
           end.

Definition get {St} : crit St St := fun s => Returned s s.

Definition modify {St} (f : St -> St) : crit St unit :=
  fun s => Returned (f s) tt.

(** [cv.wait(lock, pred)]: returns with the lock held in a state where
    [pred] holds; suspends the caller otherwise. *)
Definition wait {St CV} (cv : CV) (pred : St -> bool) : crit St unit :=
  fun s => if pred s then Returned s tt else Blocked.

(** Notifications wake suspended threads; they leave the shared data as it
    is.  A woken thread re-evaluates its predicate, which the model does by
    running the blocked section again.  Since a waiting thread may also wake
    spuriously, who is in the wait set decides only when a thread is
    scheduled, never what it does. *)
Definition notify_one {St CV} (cv : CV) : crit St unit := ret tt.
Definition notify_all {St CV} (cv : CV) : crit St unit := ret tt.

Definition blocked {St A} (o : outcome St A) : bool :=
  match o with Blocked => true | Returned _ _ => false end.

End Monitor.

Import Monitor.

Declare Scope crit_scope.
Delimit Scope crit_scope with crit.
Notation "x <- c ;; k" := (bind c (fun x => k))
  (at level 61, c at next level, right associativity) : crit_scope.
Notation "c ;; k" := (bind c (fun _ => k))
  (at level 61, right associativity) : crit_scope.
Open Scope crit_scope.

(* ================================================================= *)
(** ** ThreadSafeQueue (simple producer/consumer demo) *)

Module ThreadSafeQueue.

Record t : Type := mk { queue_ : list Z; finished_ : bool }.

Inductive condvar : Type := condition_.

(** A default-constructed queue. *)
Definition init : t := mk [] false.

Definition empty (l : list Z) : bool :=
  match l with [] => true | _ :: _ => false end.

Definition push (item : Z) : crit t unit :=
  modify (fun q => mk (queue_ q ++ [item]) (finished_ q)) ;;
  notify_one condition_.

(** [bool pop(int& item)]: the result is the value left in [item] and the
    returned flag. *)
Definition pop (item : Z) : crit t (Z * bool) :=
  wait condition_ (fun q => negb (empty (queue_ q)) || finished_ q) ;;
  q <- get ;;
  match queue_ q with
  | front :: rest =>
      modify (fun q => mk rest (finished_ q)) ;;
      ret (front, true)
  | [] => ret (item, false)
  end.

Definition finish : crit t unit :=
  modify (fun q => mk (queue_ q) true) ;;
  notify_all condition_.

Definition size : crit t Z :=
  q <- get ;; ret (Z.of_nat (length (queue_ q))).

(** [n] consecutive calls of [pop] by one caller, each reusing the
    variable [item]; the results are collected in call order. *)
Fixpoint pops (n : nat) (item : Z) : crit t (list (Z * bool)) :=
  match n with
  | O => ret []
  | S n' =>
      r <- pop item ;;
      rs <- pops n' (fst r) ;;
      ret (r :: rs)
  end.

(** The last state of the queue's life cycle: closed and empty. *)
Definition drained (q : t) : Prop := finished_ q = true /\ queue_ q = [].

End ThreadSafeQueue.

(* ================================================================= *)
(** ** Calls on a shared ThreadSafeQueue, in the order they take effect *)

(** Any number of threads may call the queue.  Each call holds [mutex_] while
    it acts, so a concurrent execution is a sequence of calls in the order
    in which their critical sections run; a [Pop] appears at the moment its
    wait predicate lets it through. *)
Module QueueHistory.
Import ThreadSafeQueue.

Inductive call : Type :=
| Push (item : Z)
| Pop (item : Z)
| Finish
| Size.

Inductive response : Type :=
| RVoid
| RPop (item : Z) (ok : bool)
| RSize (n : Z).

Definition exec (c : call) : crit t response :=
  match c with
  | Push item => push item ;; ret RVoid
  | Pop item => r <- pop item ;; ret (RPop (fst r) (snd r))
  | Finish => finish ;; ret RVoid
  | Size => n <- size ;; ret (RSize n)
  end.

Fixpoint history (cs : list call) : crit t (list response) :=
  match cs with
  | [] => ret []
  | c :: cs' =>
      r <- exec c ;;
      rs <- history cs' ;;
      ret (r :: rs)
  end.

(** Items handed to [push], in call order. *)
Definition pushed (cs : list call) : list Z :=
  flat_map (fun c => match c with Push item => [item] | _ => [] end) cs.

(** Items returned by the pops that answered [true], in call order. *)
Definition popped (rs : list response) : list Z :=
  flat_map (fun r => match r with RPop item true => [item] | _ => [] end) rs.

Definition is_end_of_stream (r : response) : bool :=
  match r with RPop _ false => true | _ => false end.

(** The callers' side of the contract: once [finish] has been called, no
    [push] follows. *)
Fixpoint no_push_after_finish (cs : list call) : bool :=
  match cs with
  | [] => true
  | Finish :: cs' =>
      match pushed cs' with
      | [] => true
      | _ :: _ => false
      end
  | _ :: cs' => no_push_after_finish cs'
  end.

End QueueHistory.

(* ================================================================= *)
(** ** The demo program around ThreadSafeQueue: producer, consumers, main *)

Module Demo.
Import ThreadSafeQueue.

Definition INT_MIN : Z := -2147483648.
Definition INT_MAX : Z := 2147483647.

(** [producer(queue, num_items)]: the loop variable [i], or the thread has
    returned. *)
Inductive producer_state : Type :=
| PLoop (i : Z)
| PDone.

(** [consumer(queue, id)]: the locals [item] and [count], inside the
    [while (queue.pop(item))] loop or after it. *)
Inductive consumer_state : Type :=
| CLoop (item count : Z)
| CDone (item count : Z).

(** [consumed] is the sequence of "Consumer k consumed: v" events in the
    order of the pops that produced them. *)
Record sys : Type := mkSys {
  queue : t;
  prod : producer_state;
  cons : list consumer_state;
  consumed : list (nat * Z)
}.

Inductive thread : Type :=
| Producer
| Consumer (k : nat).

Fixpoint set_nth {A : Type} (k : nat) (x : A) (l : list A) : list A :=
  match l, k with
  | [], _ => []
  | _ :: l', O => x :: l'
  | y :: l', S k' => y :: set_nth k' x l'
  end.

(** [main]: a fresh queue, one producer, one consumer per entry of
    [items]; an entry is the value the consumer's uninitialised [item]
    happens to hold. *)
Definition init_sys (items : list Z) : sys :=
  mkSys init (PLoop 1) (map (fun item => CLoop item 0) items) [].

(** One loop iteration of the producer: [push(i)] and [++i] while
    [i <= num_items], else [finish()] and return. *)
Definition producer_step (num_items : Z) (i : Z) : crit t producer_state :=
  if i <=? num_items
  then push i ;; ret (PLoop (i + 1))
  else finish ;; ret PDone.

(** One evaluation of the loop condition [queue.pop(item)] and, when it is
    true, the loop body. *)
Definition consumer_step (item count : Z) : crit t (consumer_state * option Z) :=
  r <- pop item ;;
  ret (if snd r
       then (CLoop (fst r) (count + 1), Some (fst r))
       else (CDone (fst r) count, None)).

(** A step of thread [th]; [None] when the thread is suspended in [wait]
    or has returned. *)
Definition step (num_items : Z) (th : thread) (s : sys) : option sys :=
  match th with
  | Producer =>
      match prod s with
      | PLoop i =>
          match producer_step num_items i (queue s) with
          | Returned q' p' => Some (mkSys q' p' (cons s) (consumed s))
          | Blocked => None
          end
      | PDone => None
      end
  | Consumer k =>
      match nth_error (cons s) k with
      | Some (CLoop item count) =>
          match consumer_step item count (queue s) with
          | Returned q' (c', ev) =>
              Some (mkSys q' (prod s) (set_nth k c' (cons s))
                      (consumed s ++
                         match ev with Some v => [(k, v)] | None => [] end))
          | Blocked => None
          end
      | _ => None
      end
  end.

(** A schedule names the thread that runs at each step. *)
Fixpoint run (num_items : Z) (sched : list thread) (s : sys) : option sys :=
  match sched with
  | [] => Some s
  | th :: sched' =>
      match step num_items th s with
      | Some s' => run num_items sched' s'
      | None => None
      end
  end.

Definition consumer_done (c : consumer_state) : bool :=
  match c with CDone _ _ => true | CLoop _ _ => false end.

Definition producer_done (p : producer_state) : bool :=
  match p with PDone => true | PLoop _ => false end.

(** All threads have returned: [main] gets past its joins. *)
Definition terminated (s : sys) : bool :=
  producer_done (prod s) && forallb consumer_done (cons s).

(** The items consumer [k] received, in the order it received them. *)
Definition consumed_by (k : nat) (s : sys) : list Z :=
  map snd (filter (fun e => Nat.eqb (fst e) k) (consumed s)).

(** The list [[1; 2; ...; n]]. *)
Definition upto (n : Z) : list Z := map Z.of_nat (seq 1 (Z.to_nat n)).

(** The four ways a thread moves, read off [step]: the producer pushes or
    finishes, a consumer receives the front item or sees the end of the
    stream. *)
Inductive transition (num_items : Z) : sys -> thread -> sys -> Prop :=
| t_push : forall s i,
    prod s = PLoop i -> i <= num_items ->
    transition num_items s Producer
      (mkSys (mk (queue_ (queue s) ++ [i]) (finished_ (queue s)))
         (PLoop (i + 1)) (cons s) (consumed s))
| t_finish : forall s i,
    prod s = PLoop i -> num_items < i ->
    transition num_items s Producer
      (mkSys (mk (queue_ (queue s)) true) PDone (cons s) (consumed s))
| t_pop : forall s k item count front rest,
    nth_error (cons s) k = Some (CLoop item count) ->
    queue_ (queue s) = front :: rest ->
    transition num_items s (Consumer k)
      (mkSys (mk rest (finished_ (queue s))) (prod s)
         (set_nth k (CLoop front (count + 1)) (cons s))
         (consumed s ++ [(k, front)]))
| t_end : forall s k item count,
    nth_error (cons s) k = Some (CLoop item count) ->
    queue_ (queue s) = [] -> finished_ (queue s) = true ->
    transition num_items s (Consumer k)
      (mkSys (queue s) (prod s)
         (set_nth k (CDone item count) (cons s)) (consumed s)).

(** What the producer's position says about the queue. *)
Definition producer_inv (num_items : Z) (s : sys) : Prop :=
  match prod s with
  | PLoop i =>
      1 <= i /\ (i = 1 \/ i - 1 <= num_items)
      /\ finished_ (queue s) = false
      /\ map snd (consumed s) ++ queue_ (queue s) = upto (i - 1)
  | PDone =>
      finished_ (queue s) = true
      /\ map snd (consumed s) ++ queue_ (queue s) = upto num_items
  end.

(** A consumer leaves its loop only on a finished, empty queue, and every
    recorded event belongs to one of the consumers. *)
Definition consumers_inv (s : sys) : Prop :=
  (forall k c, nth_error (cons s) k = Some c -> consumer_done c = true ->
               finished_ (queue s) = true /\ queue_ (queue s) = [])
  /\ (forall e, In e (consumed s) -> (fst e < length (cons s))%nat).

Definition inv (num_items : Z) (s : sys) : Prop :=
  producer_inv num_items s /\ consumers_inv s.


(** An upper bound on the steps the program can still take: two per
    remaining producer iteration, one per queued item, one per consumer
    still in its loop. *)
Definition steps_left (num_items : Z) (s : sys) : nat :=
  2 * match prod s with
      | PLoop i => S (Z.to_nat (num_items + 1 - i))
      | PDone => 0
      end
  + length (queue_ (queue s))
  + length (filter (fun c => negb (consumer_done c)) (cons s)).

End Demo.

(* ================================================================= *)
(** ** efficient_version: the bounded buffer with two condition variables *)

Module Efficient.

Definition NUM_ITEMS : Z := 50.
Definition BUFFER_SIZE : Z := 10.

(** The namespace's globals guarded by [buffer_mutex]. *)
Record shared : Type := mkShared { buffer : list Z; producer_done : bool }.

Inductive condvar : Type := buffer_not_empty | buffer_not_full.

Definition size (s : shared) : Z := Z.of_nat (length (buffer s)).

Definition empty (s : shared) : bool :=
  match buffer s with [] => true | _ :: _ => false end.

Inductive producer_state : Type :=
| PLoop (i : Z)
| PDone.

Inductive consumer_state : Type :=
| CLoop (consumed_count : Z)
| CDone (consumed_count : Z).

(** The locked part of one iteration of the producer's [for] loop. *)
Definition produce (i : Z) : crit shared unit :=
  wait buffer_not_full (fun s => size s <? BUFFER_SIZE) ;;
  modify (fun s => mkShared (buffer s ++ [i]) (producer_done s)) ;;
  notify_one buffer_not_empty.

(** After the loop: the flag is set under the lock, then every consumer is
    woken. *)
Definition set_done : crit shared unit :=
  modify (fun s => mkShared (buffer s) true) ;;
  notify_all buffer_not_empty.

Definition producer_step (p : Z) : crit shared producer_state :=
  if p <=? NUM_ITEMS
  then produce p ;; ret (PLoop (p + 1))
  else set_done ;; ret PDone.

(** One iteration of the consumer's [while (true)] loop. *)
Definition consumer_step (consumed_count : Z)
  : crit shared (consumer_state * option Z) :=
  wait buffer_not_empty (fun s => negb (empty s) || producer_done s) ;;
  s <- get ;;
  match buffer s with
  | item :: rest =>
      modify (fun s => mkShared rest (producer_done s)) ;;
      notify_one buffer_not_full ;;
      ret (CLoop (consumed_count + 1), Some item)
  | [] =>
      if producer_done s && empty s
      then ret (CDone consumed_count, None)
      else ret (CLoop consumed_count, None)
  end.

Record sys : Type := mkSys {
  mem : shared;
  prod : producer_state;
  cons : consumer_state;
  consumed : list Z
}.

Inductive thread : Type := Producer | Consumer.

(** [run_efficient_version]: the flag reset, the buffer cleared, then one
    producer thread and one consumer thread. *)
Definition init_sys : sys :=
  mkSys (mkShared [] false) (PLoop 1) (CLoop 0) [].

Definition step (th : thread) (s : sys) : option sys :=
  match th with
  | Producer =>
      match prod s with
      | PLoop i =>
          match producer_step i (mem s) with
          | Returned m' p' => Some (mkSys m' p' (cons s) (consumed s))
          | Blocked => None
          end
      | PDone => None
      end
  | Consumer =>
      match cons s with
      | CLoop n =>
          match consumer_step n (mem s) with
          | Returned m' (c', ev) =>
              Some (mkSys m' (prod s) c'
                      (consumed s ++
                         match ev with Some v => [v] | None => [] end))
          | Blocked => None
          end
      | CDone _ => None
      end
  end.

Fixpoint run (sched : list thread) (s : sys) : option sys :=
  match sched with
  | [] => Some s
  | th :: sched' =>
      match step th s with
      | Some s' => run sched' s'
      | None => None
      end
  end.

Definition reachable (s : sys) : Prop :=
  exists sched, run sched init_sys = Some s.

End Efficient.

(* ================================================================= *)
(** ** Stack<T, MaxSize> (templates-demo/class_templates.cpp) *)

Module Stack.

Inductive exn : Type :=
| overflow_error (what : string)
| underflow_error (what : string).

(** What a member function does: it returns, it throws, or it reads or
    writes [data] outside the array. *)
Inductive result (A : Type) : Type :=
| Value (a : A)
| Throw (e : exn)
| OutOfBounds.
Arguments Value {A} a.
Arguments Throw {A} e.
Arguments OutOfBounds {A}.

(** [size_t] arithmetic is modulo 2^64. *)
Definition size_t (z : Z) : Z := z mod 2 ^ 64.

Section WithT.
Variable T : Type.
Variable MaxSize : Z.

Record t : Type := mk { data : list T; top_index : Z }.

(** [Stack()]: [top_index(0)]; [arr] is what the array holds before any
    element is stored. *)
Definition new (arr : list T) : t := mk arr 0.

Fixpoint store (k : nat) (x : T) (l : list T) : list T :=
  match l, k with
  | [], _ => []
  | _ :: l', O => x :: l'
  | y :: l', S k' => y :: store k' x l'
  end.

Definition empty (s : t) : bool := top_index s =? 0.

Definition size (s : t) : Z := top_index s.

Definition capacity (s : t) : Z := MaxSize.

Definition push (value : T) (s : t) : result t :=
  if top_index s >=? MaxSize
  then Throw (overflow_error "Stack overflow"%string)
  else
    let i := top_index s in
    if (0 <=? i) && (i <? Z.of_nat (length (data s)))
    then Value (mk (store (Z.to_nat i) value (data s)) (size_t (i + 1)))
    else OutOfBounds.

Definition pop (s : t) : result (T * t) :=
  if empty s
  then Throw (underflow_error "Stack underflow"%string)
  else
    let i := size_t (top_index s - 1) in
    match nth_error (data s) (Z.to_nat i) with
    | Some v => Value (v, mk (data s) i)
    | None => OutOfBounds
    end.

Definition top (s : t) : result T :=
  if empty s
  then Throw (underflow_error "Stack is empty"%string)
  else
    match nth_error (data s) (Z.to_nat (top_index s - 1)) with
    | Some v => Value v
    | None => OutOfBounds
    end.

(** The array has [MaxSize] cells and [top_index] counts the used ones. *)
Definition wf (s : t) : Prop :=
  Z.of_nat (length (data s)) = MaxSize /\ 0 <= top_index s <= MaxSize.

(** The elements held, bottom to top, as [display] prints them. *)
Definition contents (s : t) : list T :=
  firstn (Z.to_nat (top_index s)) (data s).

End WithT.

Arguments mk {T} _ _.
Arguments data {T} _.
Arguments top_index {T} _.
Arguments new {T} _.
Arguments empty {T} _.
Arguments size {T} _.
Arguments push {T} _ _ _.
Arguments pop {T} _.
Arguments top {T} _.
Arguments wf {T} _ _.
Arguments contents {T} _.

End Stack.

(* ================================================================= *)
(** ** What the demo's consumers report *)

From Stdlib Require Import Sorted.

Module DemoAccounting.
Import Demo.

(** The local [count] a consumer prints as "Total consumed". *)
Definition count_of (c : consumer_state) : Z :=
  match c with
  | CLoop _ count => count
  | CDone _ count => count
  end.

(** The counts of all consumers added up. *)
Definition total_count (s : sys) : Z :=
  fold_right Z.add 0 (map count_of (cons s)).

(** Each consumer has counted what it received, and together they have
    counted every pop. *)
Definition counts_inv (s : sys) : Prop :=
  (forall k c, nth_error (cons s) k = Some c ->
               count_of c = Z.of_nat (length (consumed_by k s)))
  /\ total_count s = Z.of_nat (length (consumed s)).

End DemoAccounting.

(* ================================================================= *)
(** ** efficient_version: moves and invariants *)

Module EfficientInv.
Import Efficient.

(** The moves of the two threads, read off [step]. *)
Inductive transition : sys -> thread -> sys -> Prop :=
| e_produce : forall s i,
    prod s = PLoop i -> i <= NUM_ITEMS -> size (mem s) < BUFFER_SIZE ->
    transition s Producer
      (mkSys (mkShared (buffer (mem s) ++ [i]) (producer_done (mem s)))
         (PLoop (i + 1)) (cons s) (consumed s))
| e_done : forall s i,
    prod s = PLoop i -> NUM_ITEMS < i ->
    transition s Producer
      (mkSys (mkShared (buffer (mem s)) true) PDone (cons s) (consumed s))
| e_consume : forall s n item rest,
    cons s = CLoop n -> buffer (mem s) = item :: rest ->
    transition s Consumer
      (mkSys (mkShared rest (producer_done (mem s))) (prod s)
         (CLoop (n + 1)) (consumed s ++ [item]))
| e_break : forall s n,
    cons s = CLoop n -> buffer (mem s) = [] ->
    producer_done (mem s) = true ->
    transition s Consumer
      (mkSys (mem s) (prod s) (CDone n) (consumed s)).

Definition terminated (s : sys) : bool :=
  match prod s, cons s with
  | PDone, CDone _ => true
  | _, _ => false
  end.

Definition count_of (c : consumer_state) : Z :=
  match c with CLoop n => n | CDone n => n end.

(** The producer's position fixes the flag and what has been produced; the
    consumer has counted what it took and leaves only when nothing is left
    to come. *)
Definition inv (s : sys) : Prop :=
  match prod s with
  | PLoop i =>
      1 <= i <= NUM_ITEMS + 1 /\ producer_done (mem s) = false
      /\ consumed s ++ buffer (mem s) = Demo.upto (i - 1)
  | PDone =>
      producer_done (mem s) = true
      /\ consumed s ++ buffer (mem s) = Demo.upto NUM_ITEMS
  end
  /\ count_of (cons s) = Z.of_nat (length (consumed s))
  /\ match cons s with
     | CLoop _ => True
     | CDone _ => producer_done (mem s) = true /\ buffer (mem s) = []
     end.

(** An upper bound on the steps still to come. *)
Definition steps_left (s : sys) : nat :=
  2 * match prod s with
      | PLoop i => S (Z.to_nat (NUM_ITEMS + 1 - i))
      | PDone => 0
      end
  + length (buffer (mem s))
  + match cons s with CLoop _ => 1 | CDone _ => 0 end.

End EfficientInv.

(* ================================================================= *)
(** ** mutex_only_version: the same buffer, polled under the mutex *)

Module MutexOnly.

Definition NUM_ITEMS : Z := Efficient.NUM_ITEMS.
Definition BUFFER_SIZE : Z := Efficient.BUFFER_SIZE.

(** The namespace's globals: [buffer], guarded by [buffer_mutex], and the
    atomic flag [producer_done]. *)
Record shared : Type := mkShared { buffer : list Z; producer_done : bool }.

Definition size (s : shared) : Z := Z.of_nat (length (buffer s)).

Inductive producer_state : Type :=
| PLoop (i : Z)
| PDone.

Inductive consumer_state : Type :=
| CLoop (consumed_count : Z)
| CDone (consumed_count : Z).

(** One pass through the producer's inner [while (true)]: under the lock,
    push and [break] when there is room; otherwise go round again. *)
Definition try_produce (i : Z) : crit shared bool :=
  s <- get ;;
  if size s <? BUFFER_SIZE
  then modify (fun s => mkShared (buffer s ++ [i]) (producer_done s)) ;;
       ret true
  else ret false.

(** [producer_done = true], an atomic store after the loop. *)
Definition set_done : crit shared unit :=
  modify (fun s => mkShared (buffer s) true).

Definition producer_step (i : Z) : crit shared producer_state :=
  if i <=? NUM_ITEMS
  then pushed <- try_produce i ;;
       ret (if pushed then PLoop (i + 1) else PLoop i)
  else set_done ;; ret PDone.

(** One pass through the consumer's [while (true)]. *)
Definition consumer_step (consumed_count : Z)
  : crit shared (consumer_state * option Z) :=
  s <- get ;;
  match buffer s with
  | item :: rest =>
      modify (fun s => mkShared rest (producer_done s)) ;;
      ret (CLoop (consumed_count + 1), Some item)
  | [] =>
      if producer_done s
      then ret (CDone consumed_count, None)
      else ret (CLoop consumed_count, None)
  end.

Record sys : Type := mkSys {
  mem : shared;
  prod : producer_state;
  cons : consumer_state;
  consumed : list Z
}.

Inductive thread : Type := Producer | Consumer.

(** [run_mutex_only_version]: the flag reset, the buffer cleared, then one
    producer thread and one consumer thread. *)
Definition init_sys : sys :=
  mkSys (mkShared [] false) (PLoop 1) (CLoop 0) [].

(** A step of thread [th]; [None] only when the thread has returned. *)
Definition step (th : thread) (s : sys) : option sys :=
  match th with
  | Producer =>
      match prod s with
      | PLoop i =>
          match producer_step i (mem s) with
          | Returned m' p' => Some (mkSys m' p' (cons s) (consumed s))
          | Blocked => None
          end
      | PDone => None
      end
  | Consumer =>
      match cons s with
      | CLoop n =>
          match consumer_step n (mem s) with
          | Returned m' (c', ev) =>
              Some (mkSys m' (prod s) c'
                      (consumed s ++
                         match ev with Some v => [v] | None => [] end))
          | Blocked => None
          end
      | CDone _ => None
      end
  end.

Fixpoint run (sched : list thread) (s : sys) : option sys :=
  match sched with
  | [] => Some s
  | th :: sched' =>
      match step th s with
      | Some s' => run sched' s'
      | None => None
      end
  end.

Definition terminated (s : sys) : bool :=
  match prod s, cons s with
  | PDone, CDone _ => true
  | _, _ => false
  end.

Definition returned (th : thread) (s : sys) : bool :=
  match th with
  | Producer => match prod s with PDone => true | PLoop _ => false end
  | Consumer => match cons s with CDone _ => true | CLoop _ => false end
  end.

Definition count_of (c : consumer_state) : Z :=
  match c with CLoop n => n | CDone n => n end.

Definition inv (s : sys) : Prop :=
  0 <= size (mem s) <= BUFFER_SIZE
  /\ match prod s with
     | PLoop i =>
         1 <= i <= NUM_ITEMS + 1 /\ producer_done (mem s) = false
         /\ consumed s ++ buffer (mem s) = Demo.upto (i - 1)
     | PDone =>
         producer_done (mem s) = true
         /\ consumed s ++ buffer (mem s) = Demo.upto NUM_ITEMS
     end
  /\ count_of (cons s) = Z.of_nat (length (consumed s))
  /\ match cons s with
     | CLoop _ => True
     | CDone _ => producer_done (mem s) = true /\ buffer (mem s) = []
     end.

End MutexOnly.

(* ================================================================= *)
(** ** Using the stack: sequences of calls *)

Module StackOps.
Import Stack.

Section WithT.
Variable T : Type.
Variable MaxSize : Z.

(** A loop of pushes, as in [demonstrateStackClass]; an exception leaves
    the loop. *)
Fixpoint push_all (values : list T) (s : t T) : result (t T) :=
  match values with
  | [] => Value s
  | value :: values' =>
      match push MaxSize value s with
      | Value s' => push_all values' s'
      | Throw e => Throw e
      | OutOfBounds => OutOfBounds
      end
  end.

(** [while (!stack.empty()) stack.pop()], collecting what is popped;
    [None] when [fuel] iterations were not enough. *)
Fixpoint pop_loop (fuel : nat) (s : t T) : option (result (list T * t T)) :=
  match fuel with
  | O => None
  | S fuel' =>
      if empty s then Some (Value ([], s))
      else
        match pop s with
        | Value (x, s') =>
            match pop_loop fuel' s' with
            | Some (Value (xs, s'')) => Some (Value (x :: xs, s''))
            | other => other
            end
        | Throw e => Some (Throw e)
        | OutOfBounds => Some OutOfBounds
        end
  end.

(** The calls a user can make, and what one call gives back: the result
    and the stack afterwards (a call that throws has not touched it). *)
Inductive op : Type :=
| OPush (value : T)
| OPop
| OTop.

Definition apply (o : op) (s : t T) : t T * result (option T) :=
  match o with
  | OPush value =>
      match push MaxSize value s with
      | Value s' => (s', Value None)
      | Throw e => (s, Throw e)
      | OutOfBounds => (s, OutOfBounds)
      end
  | OPop =>
      match pop s with
      | Value (x, s') => (s', Value (Some x))
      | Throw e => (s, Throw e)
      | OutOfBounds => (s, OutOfBounds)
      end
  | OTop =>
      match top s with
      | Value x => (s, Value (Some x))
      | Throw e => (s, Throw e)
      | OutOfBounds => (s, OutOfBounds)
      end
  end.

Fixpoint apply_all (os : list op) (s : t T)
  : t T * list (result (option T)) :=
  match os with
  | [] => (s, [])
  | o :: os' =>
      let (s1, r) := apply o s in
      let (s2, rs) := apply_all os' s1 in
      (s2, r :: rs)
  end.

(** The stack a user has in mind: a list with the top at the end, holding
    at most [MaxSize] elements. *)
Definition list_apply (o : op) (l : list T) : list T * result (option T) :=
  match o with
  | OPush value =>
      if Z.of_nat (length l) >=? MaxSize
      then (l, Throw (overflow_error "Stack overflow"%string))
      else (l ++ [value], Value None)
  | OPop =>
      match rev l with
      | [] => (l, Throw (underflow_error "Stack underflow"%string))
      | x :: below => (rev below, Value (Some x))
      end
  | OTop =>
      match rev l with
      | [] => (l, Throw (underflow_error "Stack is empty"%string))
      | x :: _ => (l, Value (Some x))
      end
  end.

Fixpoint list_apply_all (os : list op) (l : list T)
  : list T * list (result (option T)) :=
  match os with
  | [] => (l, [])
  | o :: os' =>
      let (l1, r) := list_apply o l in
      let (l2, rs) := list_apply_all os' l1 in
      (l2, r :: rs)
  end.

End WithT.

Arguments OPush {T} _.
Arguments OPop {T}.
Arguments OTop {T}.

End StackOps.

(* ================================================================= *)
(** ** Array<T, Size> (templates-demo/class_templates.cpp) *)

Module Array.

Inductive exn : Type :=
| out_of_range (what : string).

(** A member function returns, throws, or touches [data] outside the
    array. *)
Inductive result (A : Type) : Type :=
| Value (a : A)
| Throw (e : exn)
| OutOfBounds.
Arguments Value {A} a.
Arguments Throw {A} e.
Arguments OutOfBounds {A}.

Section WithT.
Variable T : Type.
Variable Size : Z.

Record t : Type := mk { data : list T }.

(** [data[i] = value] on the raw array. *)
Definition write_cell (i : Z) (value : T) (d : list T) : result (list T) :=
  if (0 <=? i) && (i <? Z.of_nat (length d))
  then Value (Stack.store T (Z.to_nat i) value d)
  else OutOfBounds.

(** The values [i] takes in [for (size_t i = 0; i < Size; ++i)]. *)
Definition indices : list Z := map Z.of_nat (seq 0 (Z.to_nat Size)).

Fixpoint assign_all (idx : list Z) (value : T) (d : list T)
  : result (list T) :=
  match idx with
  | [] => Value d
  | i :: idx' =>
      match write_cell i value d with
      | Value d' => assign_all idx' value d'
      | Throw e => Throw e
      | OutOfBounds => OutOfBounds
      end
  end.

Definition fill (value : T) (a : t) : result t :=
  match assign_all indices value (data a) with
  | Value d => Value (mk d)
  | Throw e => Throw e
  | OutOfBounds => OutOfBounds
  end.

(** [Array()]: every cell is set to [T{}], here [default]; [arr] is what the
    storage held before. *)
Definition new (default : T) (arr : list T) : result t :=
  fill default (mk arr).

(** [Array(const T& initial_value)]. *)
Definition new_filled (initial_value : T) (arr : list T) : result t :=
  fill initial_value (mk arr).

(** [operator[]] used to read. *)
Definition get (index : Z) (a : t) : result T :=
  if index >=? Size
  then Throw (out_of_range "Index out of range")
  else
    match nth_error (data a) (Z.to_nat index) with
    | Some v => Value v
    | None => OutOfBounds
    end.

(** [a[index] = value]: [operator[]] and an assignment through the
    reference it returns. *)
Definition set (index : Z) (value : T) (a : t) : result t :=
  if index >=? Size
  then Throw (out_of_range "Index out of range")
  else
    match write_cell index value (data a) with
    | Value d => Value (mk d)
    | Throw e => Throw e
    | OutOfBounds => OutOfBounds
    end.

Definition size (a : t) : Z := Size.

(** The storage has [Size] cells. *)
Definition wf (a : t) : Prop := Z.of_nat (length (data a)) = Size.

End WithT.

Arguments mk {T} _.
Arguments data {T} _.
Arguments fill {T} _ _ _.
Arguments new {T} _ _ _.
Arguments new_filled {T} _ _ _.
Arguments get {T} _ _ _.
Arguments set {T} _ _ _ _.
Arguments wf {T} _ _.

End Array.

(* ================================================================= *)
(** ** Calculator<std::string>::subtract (templates-demo/class_templates.cpp) *)

Module StringCalculator.
Import Ascii.

(** A [std::string] as its characters; positions are counted from 0 and
    [npos] is [None]. *)
Definition str : Type := list ascii.

Fixpoint starts_with (b s : str) : bool :=
  match b, s with
  | [], _ => true
  | _ :: _, [] => false
  | c :: b', d :: s' => Ascii.eqb c d && starts_with b' s'
  end.

(** The first position at or after [p], the position of the head of [s],
    where [b] occurs. *)
Fixpoint find_at (s b : str) (p : nat) : option nat :=
  if starts_with b s then Some p
  else
    match s with
    | [] => None
    | _ :: s' => find_at s' b (S p)
    end.

(** [s.find(b, pos)]. *)
Definition find (s b : str) (pos : nat) : option nat :=
  if (length s <? pos)%nat then None else find_at (skipn pos s) b pos.

(** [s.erase(pos, len)]; [None] stands for the [out_of_range] it throws
    when [pos] is past the end. *)
Definition erase (s : str) (pos len : nat) : option str :=
  if (length s <? pos)%nat then None
  else Some (firstn pos s ++ skipn (pos + len) s).

Inductive run (A : Type) : Type :=
| Finished (a : A)
| Raised
| StillRunning.
Arguments Finished {A} a.
Arguments Raised {A}.
Arguments StillRunning {A}.

(** [while ((pos = result.find(b, pos)) != npos) result.erase(pos,
    b.length());] with at most [fuel] evaluations of the condition. *)
Fixpoint subtract_loop (fuel : nat) (result b : str) (pos : nat) : run str :=
  match fuel with
  | O => StillRunning
  | S fuel' =>
      match find result b pos with
      | None => Finished result
      | Some pos' =>
          match erase result pos' (length b) with
          | Some result' => subtract_loop fuel' result' b pos'
          | None => Raised
          end
      end
  end.

Definition subtract (fuel : nat) (a b : str) : run str :=
  subtract_loop fuel a b 0.

(** [cut_out b a r]: [r] is [a] with copies of [b] cut out, one after the
    other; each cut removes one whole occurrence of [b] from what the cuts
    before it left. *)
Inductive cut_out (b : str) : str -> str -> Prop :=
| cut_none : forall a, cut_out b a a
| cut_one : forall before after r,
    cut_out b (before ++ after) r ->
    cut_out b (before ++ b ++ after) r.

(** [s] with every character [c] left out. *)
Definition without_char (c : ascii) (s : str) : str :=
  filter (fun d => negb (Ascii.eqb d c)) s.

End StringCalculator.

(* ================================================================= *)
(** ** Step 3 of the producer/consumer tutorial: condition variable, globals *)

Module Step3.

(** The globals guarded by [buffer_mutex]. *)
Record shared : Type :=
  mkShared { shared_buffer : list Z; producer_done : bool }.

Inductive condvar : Type := buffer_condition.

Definition empty (s : shared) : bool :=
  match shared_buffer s with [] => true | _ :: _ => false end.

Inductive producer_state : Type :=
| PLoop (i : Z)
| PDone.

(** [consumer(id)]: the local [consumed_count], inside the loop or after
    the [break]. *)
Inductive consumer_state : Type :=
| CLoop (consumed_count : Z)
| CDone (consumed_count : Z).

(** One iteration of the producer's loop over [i = 1..5], or what follows
    the loop: the flag set under the lock and every consumer woken. *)
Definition producer_step (i : Z) : crit shared producer_state :=
  if i <=? 5
  then modify (fun s => mkShared (shared_buffer s ++ [i]) (producer_done s)) ;;
       notify_one buffer_condition ;;
       ret (PLoop (i + 1))
  else modify (fun s => mkShared (shared_buffer s) true) ;;
       notify_all buffer_condition ;;
       ret PDone.

(** One iteration of the consumer's [while (true)]: wait, then take the
    front item ([got_item], counted after the lock is released) or
    [break] when the producer is done. *)
Definition consumer_step (consumed_count : Z)
  : crit shared (consumer_state * option Z) :=
  wait buffer_condition (fun s => negb (empty s) || producer_done s) ;;
  s <- get ;;
  match shared_buffer s with
  | item :: rest =>
      modify (fun s => mkShared rest (producer_done s)) ;;
      ret (CLoop (consumed_count + 1), Some item)
  | [] =>
      if producer_done s
      then ret (CDone consumed_count, None)
      else ret (CLoop consumed_count, None)
  end.

(** [consumed] records "Consumer k: Got item v" in the order of the pops;
    consumer [id] of the source is index [id - 1]. *)
Record sys : Type := mkSys {
  mem : shared;
  prod : producer_state;
  cons : list consumer_state;
  consumed : list (nat * Z)
}.

Inductive thread : Type :=
| Producer
| Consumer (k : nat).

(** [main]: the buffer emptied, the flag reset, one producer and the
    consumers 1 and 2. *)
Definition init_sys : sys :=
  mkSys (mkShared [] false) (PLoop 1) [CLoop 0; CLoop 0] [].

Definition step (th : thread) (s : sys) : option sys :=
  match th with
  | Producer =>
      match prod s with
      | PLoop i =>
          match producer_step i (mem s) with
          | Returned m' p' => Some (mkSys m' p' (cons s) (consumed s))
          | Blocked => None
          end
      | PDone => None
      end
  | Consumer k =>
      match nth_error (cons s) k with
      | Some (CLoop n) =>
          match consumer_step n (mem s) with
          | Returned m' (c', ev) =>
              Some (mkSys m' (prod s) (Demo.set_nth k c' (cons s))
                      (consumed s ++
                         match ev with Some v => [(k, v)] | None => [] end))
          | Blocked => None
          end
      | _ => None
      end
  end.

Fixpoint run (sched : list thread) (s : sys) : option sys :=
  match sched with
  | [] => Some s
  | th :: sched' =>
      match step th s with
      | Some s' => run sched' s'
      | None => None
      end
  end.

Definition consumer_done (c : consumer_state) : bool :=
  match c with CDone _ => true | CLoop _ => false end.

Definition terminated (s : sys) : bool :=
  match prod s with PDone => true | PLoop _ => false end
  && forallb consumer_done (cons s).

Definition count_of (c : consumer_state) : Z :=
  match c with CLoop n => n | CDone n => n end.

Definition total_count (s : sys) : Z :=
  fold_right Z.add 0 (map count_of (cons s)).

(** The same program seen as the ThreadSafeQueue demo with
    [num_items = 5]: the buffer and the flag are the queue, and a consumer
    there also carries its variable [item]. *)
Definition as_thread (th : thread) : Demo.thread :=
  match th with
  | Producer => Demo.Producer
  | Consumer k => Demo.Consumer k
  end.

Definition same_producer (p : producer_state) (p' : Demo.producer_state)
  : Prop :=
  match p, p' with
  | PLoop i, Demo.PLoop i' => i = i'
  | PDone, Demo.PDone => True
  | _, _ => False
  end.

Definition same_consumer (c : consumer_state) (c' : Demo.consumer_state)
  : Prop :=
  match c, c' with
  | CLoop n, Demo.CLoop _ n' => n = n'
  | CDone n, Demo.CDone _ n' => n = n'
  | _, _ => False
  end.

Definition matches (s : sys) (d : Demo.sys) : Prop :=
  Demo.queue d
  = ThreadSafeQueue.mk (shared_buffer (mem s)) (producer_done (mem s))
  /\ same_producer (prod s) (Demo.prod d)
  /\ Forall2 same_consumer (cons s) (Demo.cons d)
  /\ consumed s = Demo.consumed d.

End Step3.

(* ================================================================= *)
(** ** Step 2 of the tutorial: the same globals, polled under the mutex *)

(** Step 2 declares the globals of step 3 without the condition variable;
    its states are those of [Step3]. *)
Module Step2.
Import Step3.

(** One iteration of the producer's loop, or the flag set after it; each
    under a [lock_guard]. *)
Definition producer_step (i : Z) : crit shared producer_state :=
  if i <=? 5
  then modify (fun s => mkShared (shared_buffer s ++ [i]) (producer_done s)) ;;
       ret (PLoop (i + 1))
  else modify (fun s => mkShared (shared_buffer s) true) ;;
       ret PDone.

(** One iteration of the consumer's [while (true)]: under the lock, take
    the front item ([got_item]) or note [should_exit]; with neither, sleep
    10 ms and go round again. *)
Definition consumer_step (consumed_count : Z)
  : crit shared (consumer_state * option Z) :=
  s <- get ;;
  match shared_buffer s with
  | item :: rest =>
      modify (fun s => mkShared rest (producer_done s)) ;;
      ret (CLoop (consumed_count + 1), Some item)
  | [] =>
      if producer_done s
      then ret (CDone consumed_count, None)
      else ret (CLoop consumed_count, None)
  end.

Definition step (th : thread) (s : sys) : option sys :=
  match th with
  | Producer =>
      match prod s with
      | PLoop i =>
          match producer_step i (mem s) with
          | Returned m' p' => Some (mkSys m' p' (cons s) (consumed s))
          | Blocked => None
          end
      | PDone => None
      end
  | Consumer k =>
      match nth_error (cons s) k with
      | Some (CLoop n) =>
          match consumer_step n (mem s) with
          | Returned m' (c', ev) =>
              Some (mkSys m' (prod s) (Demo.set_nth k c' (cons s))
                      (consumed s ++
                         match ev with Some v => [(k, v)] | None => [] end))
          | Blocked => None
          end
      | _ => None
      end
  end.

Fixpoint run (sched : list thread) (s : sys) : option sys :=
  match sched with
  | [] => Some s
  | th :: sched' =>
      match step th s with
      | Some s' => run sched' s'
      | None => None
      end
  end.

(** Thread [th] has left its function. *)
Definition returned (th : thread) (s : sys) : bool :=
  match th with
  | Producer => match prod s with PDone => true | PLoop _ => false end
  | Consumer k =>
      match nth_error (cons s) k with
      | Some (CLoop _) => false
      | _ => true
      end
  end.

End Step2.

(* ================================================================= *)
(** ** Condition variables with their wait sets *)

(** The monitor above lets a suspended thread go on as soon as its predicate
    holds, which is all that safety needs.  Whether the program can hang is
    a question about wake-ups, so here the state also records who sleeps on
    which condition variable: [wait] puts the caller to sleep when its
    predicate is false, a sleeping thread cannot run, and only
    [notify_one], [notify_all] or a spurious wake-up make it runnable
    again, after which it evaluates its predicate anew. *)
Module WaitSet.

Section WithTypes.
Variables St CV TID : Type.
Variable cv_eqb : CV -> CV -> bool.
Variable tid_eqb : TID -> TID -> bool.

(** The data under the mutex, and who sleeps on which condition variable. *)
Record mon : Type := mkMon { data : St; asleep : list (CV * TID) }.

Inductive outcome (A : Type) : Type :=
| Sleeps (m : mon)
| Returns (m : mon) (a : A).
Arguments Sleeps {A} m.
Arguments Returns {A} m a.

Definition crit (A : Type) : Type := mon -> outcome A.

Definition ret {A} (a : A) : crit A := fun m => Returns m a.

Definition bind {A B} (c : crit A) (k : A -> crit B) : crit B :=
  fun m => match c m with
           | Sleeps m' => Sleeps m'
           | Returns m' a => k a m'
           end.

Definition get : crit St := fun m => Returns m (data m).

Definition modify (f : St -> St) : crit unit :=
  fun m => Returns (mkMon (f (data m)) (asleep m)) tt.

(** [cv.wait(lock, pred)] called by thread [me]. *)
Definition wait (me : TID) (cv : CV) (pred : St -> bool) : crit unit :=
  fun m => if pred (data m)
           then Returns m tt
           else Sleeps (mkMon (data m) ((cv, me) :: asleep m)).

Definition waits_on (cv : CV) (e : CV * TID) : bool := cv_eqb (fst e) cv.

Definition is_entry (cv : CV) (th : TID) (e : CV * TID) : bool :=
  cv_eqb (fst e) cv && tid_eqb (snd e) th.

Fixpoint remove_first (p : CV * TID -> bool) (l : list (CV * TID))
  : list (CV * TID) :=
  match l with
  | [] => []
  | e :: l' => if p e then l' else e :: remove_first p l'
  end.

(** The sleepers left by [cv.notify_one()]: one of the threads sleeping on
    [cv], if there is any, is made runnable; which one is not specified, so
    the caller of the model names it: [pick] when it sleeps on [cv],
    otherwise another sleeper on [cv]. *)
Definition after_notify_one (cv : CV) (pick : TID) (l : list (CV * TID))
  : list (CV * TID) :=
  if existsb (is_entry cv pick) l
  then remove_first (is_entry cv pick) l
  else remove_first (waits_on cv) l.

(** The sleepers left by [cv.notify_all()]: none of those on [cv]. *)
Definition after_notify_all (cv : CV) (l : list (CV * TID))
  : list (CV * TID) :=
  filter (fun e => negb (waits_on cv e)) l.

Definition notify_one (cv : CV) (pick : TID) : crit unit :=
  fun m => Returns (mkMon (data m) (after_notify_one cv pick (asleep m))) tt.

Definition notify_all (cv : CV) : crit unit :=
  fun m => Returns (mkMon (data m) (after_notify_all cv (asleep m))) tt.

Definition sleeping (th : TID) (m : mon) : bool :=
  existsb (fun e => tid_eqb (snd e) th) (asleep m).

(** A spurious wake-up of [th]. *)
Definition wake (th : TID) (m : mon) : mon :=
  mkMon (data m) (filter (fun e => negb (tid_eqb (snd e) th)) (asleep m)).

End WithTypes.

Arguments mkMon {St CV TID} _ _.
Arguments data {St CV TID} _.
Arguments asleep {St CV TID} _.
Arguments Sleeps {St CV TID A} m.
Arguments Returns {St CV TID A} m a.
Arguments ret {St CV TID A} a _.
Arguments bind {St CV TID A B} c k _.
Arguments get {St CV TID} _.
Arguments modify {St CV TID} f _.
Arguments wait {St CV TID} me cv pred _.
Arguments waits_on {CV TID} cv_eqb cv e.
Arguments is_entry {CV TID} cv_eqb tid_eqb cv th e.
Arguments remove_first {CV TID} p l.
Arguments after_notify_one {CV TID} cv_eqb tid_eqb cv pick l.
Arguments after_notify_all {CV TID} cv_eqb cv l.
Arguments notify_one {St CV TID} cv_eqb tid_eqb cv pick _.
Arguments notify_all {St CV TID} cv_eqb cv _.
Arguments sleeping {St CV TID} tid_eqb th m.
Arguments wake {St CV TID} tid_eqb th m.

End WaitSet.

Declare Scope wait_scope.
Delimit Scope wait_scope with wait.
Notation "x <- c ;; k" := (WaitSet.bind c (fun x => k))
  (at level 61, c at next level, right associativity) : wait_scope.
Notation "c ;; k" := (WaitSet.bind c (fun _ => k))
  (at level 61, right associativity) : wait_scope.

(* ================================================================= *)
(** ** ThreadSafeQueue and its demo, with the wait set of [condition_] *)

Module DemoW.
Import ThreadSafeQueue.
Local Open Scope wait_scope.

Definition thread : Type := Demo.thread.

Definition thread_eqb (a b : thread) : bool :=
  match a, b with
  | Demo.Producer, Demo.Producer => true
  | Demo.Consumer j, Demo.Consumer k => Nat.eqb j k
  | _, _ => false
  end.

Definition condvar_eqb (a b : condvar) : bool := true.

Definition crit (A : Type) : Type := WaitSet.crit t condvar thread A.

Definition push (item : Z) (pick : thread) : crit unit :=
  WaitSet.modify (fun q => mk (queue_ q ++ [item]) (finished_ q)) ;;
  WaitSet.notify_one condvar_eqb thread_eqb condition_ pick.

Definition pop (me : thread) (item : Z) : crit (Z * bool) :=
  WaitSet.wait me condition_
    (fun q => negb (empty (queue_ q)) || finished_ q) ;;
  q <- WaitSet.get ;;
  match queue_ q with
  | front :: rest =>
      WaitSet.modify (fun q => mk rest (finished_ q)) ;;
      WaitSet.ret (front, true)
  | [] => WaitSet.ret (item, false)
  end.

Definition finish : crit unit :=
  WaitSet.modify (fun q => mk (queue_ q) true) ;;
  WaitSet.notify_all condvar_eqb condition_.

Definition producer_step (num_items i : Z) (pick : thread)
  : crit Demo.producer_state :=
  if i <=? num_items
  then push i pick ;; WaitSet.ret (Demo.PLoop (i + 1))
  else finish ;; WaitSet.ret Demo.PDone.

Definition consumer_step (me : thread) (item count : Z)
  : crit (Demo.consumer_state * option Z) :=
  r <- pop me item ;;
  WaitSet.ret (if snd r
               then (Demo.CLoop (fst r) (count + 1), Some (fst r))
               else (Demo.CDone (fst r) count, None)).

Record sys : Type := mkSys {
  mon : WaitSet.mon t condvar thread;
  prod : Demo.producer_state;
  cons : list Demo.consumer_state;
  consumed : list (nat * Z)
}.

(** What the scheduler can do: run a thread that is not asleep ([pick]
    settles whom a [notify_one] in its critical section wakes), or wake a
    sleeping thread spuriously. *)
Inductive event : Type :=
| Run (th : thread) (pick : thread)
| Spurious (th : thread).

Definition init_sys (items : list Z) : sys :=
  mkSys (WaitSet.mkMon init [])
    (Demo.PLoop 1) (map (fun item => Demo.CLoop item 0) items) [].

Definition step (num_items : Z) (ev : event) (s : sys) : option sys :=
  match ev with
  | Spurious th =>
      if WaitSet.sleeping thread_eqb th (mon s)
      then Some (mkSys (WaitSet.wake thread_eqb th (mon s))
                   (prod s) (cons s) (consumed s))
      else None
  | Run th pick =>
      if WaitSet.sleeping thread_eqb th (mon s) then None
      else
        match th with
        | Demo.Producer =>
            match prod s with
            | Demo.PLoop i =>
                match producer_step num_items i pick (mon s) with
                | WaitSet.Returns m' p' =>
                    Some (mkSys m' p' (cons s) (consumed s))
                | WaitSet.Sleeps m' =>
                    Some (mkSys m' (prod s) (cons s) (consumed s))
                end
            | Demo.PDone => None
            end
        | Demo.Consumer k =>
            match nth_error (cons s) k with
            | Some (Demo.CLoop item count) =>
                match consumer_step (Demo.Consumer k) item count (mon s) with
                | WaitSet.Returns m' (c', ev) =>
                    Some (mkSys m' (prod s) (Demo.set_nth k c' (cons s))
                            (consumed s ++
                               match ev with
                               | Some v => [(k, v)]
                               | None => []
                               end))
                | WaitSet.Sleeps m' =>
                    Some (mkSys m' (prod s) (cons s) (consumed s))
                end
            | _ => None
            end
        end
  end.

Fixpoint run (num_items : Z) (evs : list event) (s : sys) : option sys :=
  match evs with
  | [] => Some s
  | ev :: evs' =>
      match step num_items ev s with
      | Some s' => run num_items evs' s'
      | None => None
      end
  end.

(** The state without its wait set. *)
Definition erase (s : sys) : Demo.sys :=
  Demo.mkSys (WaitSet.data (mon s)) (prod s) (cons s) (consumed s).

(** An event that is a thread's own step, not a spurious wake-up. *)
Definition is_run (ev : event) : bool :=
  match ev with
  | Run _ _ => true
  | Spurious _ => false
  end.

Definition awake_in_loop (k : nat) (s : sys) : Prop :=
  (exists item count, nth_error (cons s) k = Some (Demo.CLoop item count))
  /\ WaitSet.sleeping thread_eqb (Demo.Consumer k) (mon s) = false.

(** What holds of the wait set in every state reached: nobody is in it
    twice; only consumers inside their loop are in it; nobody is in it once
    the queue is closed; and while an item is queued some consumer is awake
    to take it. *)
Definition wait_inv (s : sys) : Prop :=
  NoDup (map snd (WaitSet.asleep (mon s)))
  /\ (forall e, In e (WaitSet.asleep (mon s)) ->
        exists k item count,
          snd e = Demo.Consumer k
          /\ nth_error (cons s) k = Some (Demo.CLoop item count))
  /\ (finished_ (WaitSet.data (mon s)) = true -> WaitSet.asleep (mon s) = [])
  /\ (queue_ (WaitSet.data (mon s)) <> [] -> cons s <> [] ->
      exists k, awake_in_loop k s).

(** The moves of the scheduler, read off [step]. *)
Inductive transition (num_items : Z) : sys -> event -> sys -> Prop :=
| w_push : forall s i pick,
    WaitSet.sleeping thread_eqb Demo.Producer (mon s) = false ->
    prod s = Demo.PLoop i -> i <= num_items ->
    transition num_items s (Run Demo.Producer pick)
      (mkSys
         (WaitSet.mkMon
            (mk (queue_ (WaitSet.data (mon s)) ++ [i])
               (finished_ (WaitSet.data (mon s))))
            (WaitSet.after_notify_one condvar_eqb thread_eqb condition_ pick
               (WaitSet.asleep (mon s))))
         (Demo.PLoop (i + 1)) (cons s) (consumed s))
| w_finish : forall s i pick,
    WaitSet.sleeping thread_eqb Demo.Producer (mon s) = false ->
    prod s = Demo.PLoop i -> num_items < i ->
    transition num_items s (Run Demo.Producer pick)
      (mkSys
         (WaitSet.mkMon
            (mk (queue_ (WaitSet.data (mon s))) true)
            (WaitSet.after_notify_all condvar_eqb condition_
               (WaitSet.asleep (mon s))))
         Demo.PDone (cons s) (consumed s))
| w_pop : forall s k pick item count front rest,
    WaitSet.sleeping thread_eqb (Demo.Consumer k) (mon s) = false ->
    nth_error (cons s) k = Some (Demo.CLoop item count) ->
    queue_ (WaitSet.data (mon s)) = front :: rest ->
    transition num_items s (Run (Demo.Consumer k) pick)
      (mkSys
         (WaitSet.mkMon (mk rest (finished_ (WaitSet.data (mon s))))
            (WaitSet.asleep (mon s)))
         (prod s)
         (Demo.set_nth k (Demo.CLoop front (count + 1)) (cons s))
         (consumed s ++ [(k, front)]))
| w_end : forall s k pick item count,
    WaitSet.sleeping thread_eqb (Demo.Consumer k) (mon s) = false ->
    nth_error (cons s) k = Some (Demo.CLoop item count) ->
    queue_ (WaitSet.data (mon s)) = [] ->
    finished_ (WaitSet.data (mon s)) = true ->
    transition num_items s (Run (Demo.Consumer k) pick)
      (mkSys (mon s) (prod s)
         (Demo.set_nth k (Demo.CDone item count) (cons s)) (consumed s))
| w_sleep : forall s k pick item count,
    WaitSet.sleeping thread_eqb (Demo.Consumer k) (mon s) = false ->
    nth_error (cons s) k = Some (Demo.CLoop item count) ->
    queue_ (WaitSet.data (mon s)) = [] ->
    finished_ (WaitSet.data (mon s)) = false ->
    transition num_items s (Run (Demo.Consumer k) pick)
      (mkSys
         (WaitSet.mkMon (WaitSet.data (mon s))
            ((condition_, Demo.Consumer k) :: WaitSet.asleep (mon s)))
         (prod s) (cons s) (consumed s))
| w_spurious : forall s th,
    WaitSet.sleeping thread_eqb th (mon s) = true ->
    transition num_items s (Spurious th)
      (mkSys (WaitSet.wake thread_eqb th (mon s))
         (prod s) (cons s) (consumed s)).

End DemoW.

(* ================================================================= *)
(** ** efficient_version with the wait sets of its condition variables *)

Module EfficientW.
Import Efficient.
Local Open Scope wait_scope.

Definition thread_eqb (a b : thread) : bool :=
  match a, b with
  | Producer, Producer => true
  | Consumer, Consumer => true
  | _, _ => false
  end.

Definition condvar_eqb (a b : condvar) : bool :=
  match a, b with
  | buffer_not_empty, buffer_not_empty => true
  | buffer_not_full, buffer_not_full => true
  | _, _ => false
  end.

Definition crit (A : Type) : Type := WaitSet.crit shared condvar thread A.

(** Where the producer is: in iteration [i] of its loop; past the block
    that sets [producer_done], before its [notify_all]; returned. *)
Inductive producer_state : Type :=
| PLoop (i : Z)
| PNotify
| PDone.

(** The locked part of one iteration of the producer's [for] loop. *)
Definition produce (i : Z) (pick : thread) : crit unit :=
  WaitSet.wait Producer buffer_not_full (fun s => size s <? BUFFER_SIZE) ;;
  WaitSet.modify (fun s => mkShared (buffer s ++ [i]) (producer_done s)) ;;
  WaitSet.notify_one condvar_eqb thread_eqb buffer_not_empty pick.

(** The block after the loop, under its own lock. *)
Definition set_done : crit unit :=
  WaitSet.modify (fun s => mkShared (buffer s) true).

Definition producer_step (p : producer_state) (pick : thread)
  : crit producer_state :=
  match p with
  | PLoop i =>
      if i <=? NUM_ITEMS
      then produce i pick ;; WaitSet.ret (PLoop (i + 1))
      else set_done ;; WaitSet.ret PNotify
  | PNotify =>
      WaitSet.notify_all condvar_eqb buffer_not_empty ;; WaitSet.ret PDone
  | PDone => WaitSet.ret PDone
  end.

(** One iteration of the consumer's [while (true)] loop. *)
Definition consumer_step (consumed_count : Z) (pick : thread)
  : crit (consumer_state * option Z) :=
  WaitSet.wait Consumer buffer_not_empty
    (fun s => negb (empty s) || producer_done s) ;;
  s <- WaitSet.get ;;
  match buffer s with
  | item :: rest =>
      WaitSet.modify (fun s => mkShared rest (producer_done s)) ;;
      WaitSet.notify_one condvar_eqb thread_eqb buffer_not_full pick ;;
      WaitSet.ret (CLoop (consumed_count + 1), Some item)
  | [] =>
      if producer_done s && empty s
      then WaitSet.ret (CDone consumed_count, None)
      else WaitSet.ret (CLoop consumed_count, None)
  end.

Record sys : Type := mkSys {
  mon : WaitSet.mon shared condvar thread;
  prod : producer_state;
  cons : consumer_state;
  consumed : list Z
}.

(** What the scheduler can do: run a thread that is not asleep ([pick]
    settles whom a [notify_one] wakes), or wake a sleeper spuriously. *)
Inductive event : Type :=
| Run (th : thread) (pick : thread)
| Spurious (th : thread).

Definition is_run (ev : event) : bool :=
  match ev with
  | Run _ _ => true
  | Spurious _ => false
  end.

(** [run_efficient_version]: the flag reset, the buffer cleared, both
    threads started, nobody asleep. *)
Definition init_sys : sys :=
  mkSys (WaitSet.mkMon (mkShared [] false) []) (PLoop 1) (CLoop 0) [].

Definition step (ev : event) (s : sys) : option sys :=
  match ev with
  | Spurious th =>
      if WaitSet.sleeping thread_eqb th (mon s)
      then Some (mkSys (WaitSet.wake thread_eqb th (mon s))
                   (prod s) (cons s) (consumed s))
      else None
  | Run th pick =>
      if WaitSet.sleeping thread_eqb th (mon s) then None
      else
        match th with
        | Producer =>
            match prod s with
            | PDone => None
            | p =>
                match producer_step p pick (mon s) with
                | WaitSet.Returns m' p' =>
                    Some (mkSys m' p' (cons s) (consumed s))
                | WaitSet.Sleeps m' =>
                    Some (mkSys m' (prod s) (cons s) (consumed s))
                end
            end
        | Consumer =>
            match cons s with
            | CLoop n =>
                match consumer_step n pick (mon s) with
                | WaitSet.Returns m' (c', out) =>
                    Some (mkSys m' (prod s) c'
                            (consumed s ++
                               match out with Some v => [v] | None => [] end))
                | WaitSet.Sleeps m' =>
                    Some (mkSys m' (prod s) (cons s) (consumed s))
                end
            | CDone _ => None
            end
        end
  end.

Fixpoint run (evs : list event) (s : sys) : option sys :=
  match evs with
  | [] => Some s
  | ev :: evs' =>
      match step ev s with
      | Some s' => run evs' s'
      | None => None
      end
  end.

Definition terminated (s : sys) : bool :=
  match prod s, cons s with
  | PDone, CDone _ => true
  | _, _ => false
  end.

(** The state without its wait sets; the producer between its last block
    and its [notify_all] has nothing left to do to the shared data. *)
Definition erase (s : sys) : Efficient.sys :=
  Efficient.mkSys (WaitSet.data (mon s))
    match prod s with
    | PLoop i => Efficient.PLoop i
    | PNotify => Efficient.PDone
    | PDone => Efficient.PDone
    end
    (cons s) (consumed s).

(** The moves of the scheduler, read off [step]. *)
Inductive transition : sys -> event -> sys -> Prop :=
| ew_produce : forall s i pick,
    WaitSet.sleeping thread_eqb Producer (mon s) = false ->
    prod s = PLoop i -> i <= NUM_ITEMS ->
    size (WaitSet.data (mon s)) < BUFFER_SIZE ->
    transition s (Run Producer pick)
      (mkSys
         (WaitSet.mkMon
            (mkShared (buffer (WaitSet.data (mon s)) ++ [i])
               (producer_done (WaitSet.data (mon s))))
            (WaitSet.after_notify_one condvar_eqb thread_eqb
               buffer_not_empty pick (WaitSet.asleep (mon s))))
         (PLoop (i + 1)) (cons s) (consumed s))
| ew_full : forall s i pick,
    WaitSet.sleeping thread_eqb Producer (mon s) = false ->
    prod s = PLoop i -> i <= NUM_ITEMS ->
    BUFFER_SIZE <= size (WaitSet.data (mon s)) ->
    transition s (Run Producer pick)
      (mkSys
         (WaitSet.mkMon (WaitSet.data (mon s))
            ((buffer_not_full, Producer) :: WaitSet.asleep (mon s)))
         (prod s) (cons s) (consumed s))
| ew_done : forall s i pick,
    WaitSet.sleeping thread_eqb Producer (mon s) = false ->
    prod s = PLoop i -> NUM_ITEMS < i ->
    transition s (Run Producer pick)
      (mkSys
         (WaitSet.mkMon (mkShared (buffer (WaitSet.data (mon s))) true)
            (WaitSet.asleep (mon s)))
         PNotify (cons s) (consumed s))
| ew_notify : forall s pick,
    WaitSet.sleeping thread_eqb Producer (mon s) = false ->
    prod s = PNotify ->
    transition s (Run Producer pick)
      (mkSys
         (WaitSet.mkMon (WaitSet.data (mon s))
            (WaitSet.after_notify_all condvar_eqb buffer_not_empty
               (WaitSet.asleep (mon s))))
         PDone (cons s) (consumed s))
| ew_consume : forall s n pick item rest,
    WaitSet.sleeping thread_eqb Consumer (mon s) = false ->
    cons s = CLoop n -> buffer (WaitSet.data (mon s)) = item :: rest ->
    transition s (Run Consumer pick)
      (mkSys
         (WaitSet.mkMon
            (mkShared rest (producer_done (WaitSet.data (mon s))))
            (WaitSet.after_notify_one condvar_eqb thread_eqb
               buffer_not_full pick (WaitSet.asleep (mon s))))
         (prod s) (CLoop (n + 1)) (consumed s ++ [item]))
| ew_break : forall s n pick,
    WaitSet.sleeping thread_eqb Consumer (mon s) = false ->
    cons s = CLoop n -> buffer (WaitSet.data (mon s)) = [] ->
    producer_done (WaitSet.data (mon s)) = true ->
    transition s (Run Consumer pick)
      (mkSys (mon s) (prod s) (CDone n) (consumed s))
| ew_empty : forall s n pick,
    WaitSet.sleeping thread_eqb Consumer (mon s) = false ->
    cons s = CLoop n -> buffer (WaitSet.data (mon s)) = [] ->
    producer_done (WaitSet.data (mon s)) = false ->
    transition s (Run Consumer pick)
      (mkSys
         (WaitSet.mkMon (WaitSet.data (mon s))
            ((buffer_not_empty, Consumer) :: WaitSet.asleep (mon s)))
         (prod s) (cons s) (consumed s))
| ew_spurious : forall s th,
    WaitSet.sleeping thread_eqb th (mon s) = true ->
    transition s (Spurious th)
      (mkSys (WaitSet.wake thread_eqb th (mon s))
         (prod s) (cons s) (consumed s)).

(** What holds of the wait sets in every state reached: nobody is asleep
    twice; the producer sleeps only on [buffer_not_full], inside its loop
    and while the buffer is full; the consumer sleeps only on
    [buffer_not_empty], inside its loop, while the buffer is empty and the
    producer has not returned. *)
Definition wait_inv (s : sys) : Prop :=
  NoDup (map snd (WaitSet.asleep (mon s)))
  /\ forall e, In e (WaitSet.asleep (mon s)) ->
       match snd e with
       | Producer =>
           fst e = buffer_not_full
           /\ BUFFER_SIZE <= size (WaitSet.data (mon s))
           /\ exists i, prod s = PLoop i /\ i <= NUM_ITEMS
       | Consumer =>
           fst e = buffer_not_empty
           /\ buffer (WaitSet.data (mon s)) = []
           /\ prod s <> PDone
           /\ exists n, cons s = CLoop n
       end.

(** An upper bound on the steps still to come that are not a thread going
    to sleep. *)
Definition steps_left (s : sys) : nat :=
  match prod s with
  | PLoop i => 2 + 2 * Z.to_nat (NUM_ITEMS + 1 - i)
  | PNotify => 1
  | PDone => 0
  end
  + length (buffer (WaitSet.data (mon s)))
  + match cons s with CLoop _ => 1 | CDone _ => 0 end.

End EfficientW.

(* ================================================================= *)
(** ** Step 3 of the tutorial with the wait set of [buffer_condition] *)

Module Step3W.
Import Step3.
Local Open Scope wait_scope.

Definition thread_eqb (a b : thread) : bool :=
  match a, b with
  | Producer, Producer => true
  | Consumer j, Consumer k => Nat.eqb j k
  | _, _ => false
  end.

Definition condvar_eqb (a b : condvar) : bool := true.

Definition crit (A : Type) : Type := WaitSet.crit shared condvar thread A.

(** Where the producer is: before the locked block of iteration [i]; past
    it, before the [notify_one] of iteration [i]; past the block that sets
    [producer_done], before the [notify_all]; returned.  Both notifications
    are made after the lock is released, so other threads can run in
    between. *)
Inductive producer_state : Type :=
| PLoop (i : Z)
| PNotifyOne (i : Z)
| PNotifyAll
| PDone.

Definition producer_step (p : producer_state) (pick : thread)
  : crit producer_state :=
  match p with
  | PLoop i =>
      if i <=? 5
      then WaitSet.modify
             (fun s => mkShared (shared_buffer s ++ [i]) (producer_done s)) ;;
           WaitSet.ret (PNotifyOne i)
      else WaitSet.modify (fun s => mkShared (shared_buffer s) true) ;;
           WaitSet.ret PNotifyAll
  | PNotifyOne i =>
      WaitSet.notify_one condvar_eqb thread_eqb buffer_condition pick ;;
      WaitSet.ret (PLoop (i + 1))
  | PNotifyAll =>
      WaitSet.notify_all condvar_eqb buffer_condition ;;
      WaitSet.ret PDone
  | PDone => WaitSet.ret PDone
  end.

(** One iteration of the consumer's [while (true)]. *)
Definition consumer_step (me : thread) (consumed_count : Z)
  : crit (consumer_state * option Z) :=
  WaitSet.wait me buffer_condition
    (fun s => negb (empty s) || producer_done s) ;;
  s <- WaitSet.get ;;
  match shared_buffer s with
  | item :: rest =>
      WaitSet.modify (fun s => mkShared rest (producer_done s)) ;;
      WaitSet.ret (CLoop (consumed_count + 1), Some item)
  | [] =>
      if producer_done s
      then WaitSet.ret (CDone consumed_count, None)
      else WaitSet.ret (CLoop consumed_count, None)
  end.

Record sys : Type := mkSys {
  mon : WaitSet.mon shared condvar thread;
  prod : producer_state;
  cons : list consumer_state;
  consumed : list (nat * Z)
}.

Inductive event : Type :=
| Run (th : thread) (pick : thread)
| Spurious (th : thread).

Definition is_run (ev : event) : bool :=
  match ev with
  | Run _ _ => true
  | Spurious _ => false
  end.

(** [main]: the buffer emptied, the flag reset, one producer and the
    consumers 1 and 2, nobody asleep. *)
Definition init_sys : sys :=
  mkSys (WaitSet.mkMon (mkShared [] false) [])
    (PLoop 1) [CLoop 0; CLoop 0] [].

Definition step (ev : event) (s : sys) : option sys :=
  match ev with
  | Spurious th =>
      if WaitSet.sleeping thread_eqb th (mon s)
      then Some (mkSys (WaitSet.wake thread_eqb th (mon s))
                   (prod s) (cons s) (consumed s))
      else None
  | Run th pick =>
      if WaitSet.sleeping thread_eqb th (mon s) then None
      else
        match th with
        | Producer =>
            match prod s with
            | PDone => None
            | p =>
                match producer_step p pick (mon s) with
                | WaitSet.Returns m' p' =>
                    Some (mkSys m' p' (cons s) (consumed s))
                | WaitSet.Sleeps m' =>
                    Some (mkSys m' (prod s) (cons s) (consumed s))
                end
            end
        | Consumer k =>
            match nth_error (cons s) k with
            | Some (CLoop n) =>
                match consumer_step (Consumer k) n (mon s) with
                | WaitSet.Returns m' (c', out) =>
                    Some (mkSys m' (prod s) (Demo.set_nth k c' (cons s))
                            (consumed s ++
                               match out with
                               | Some v => [(k, v)]
                               | None => []
                               end))
                | WaitSet.Sleeps m' =>
                    Some (mkSys m' (prod s) (cons s) (consumed s))
                end
            | _ => None
            end
        end
  end.

Fixpoint run (evs : list event) (s : sys) : option sys :=
  match evs with
  | [] => Some s
  | ev :: evs' =>
      match step ev s with
      | Some s' => run evs' s'
      | None => None
      end
  end.

Definition terminated (s : sys) : bool :=
  match prod s with PDone => true | _ => false end
  && forallb consumer_done (cons s).

(** The state without its wait set, the producer's notifications taken as
    made. *)
Definition erase (s : sys) : Step3.sys :=
  Step3.mkSys (WaitSet.data (mon s))
    match prod s with
    | PLoop i => Step3.PLoop i
    | PNotifyOne i => Step3.PLoop (i + 1)
    | PNotifyAll => Step3.PDone
    | PDone => Step3.PDone
    end
    (cons s) (consumed s).

Definition awake_in_loop (k : nat) (s : sys) : Prop :=
  (exists n, nth_error (cons s) k = Some (CLoop n))
  /\ WaitSet.sleeping thread_eqb (Consumer k) (mon s) = false.

(** The flag is set exactly once the producer's loop is over, and a
    consumer leaves its loop only after that. *)
Definition data_inv (s : sys) : Prop :=
  match prod s with
  | PLoop _ => producer_done (WaitSet.data (mon s)) = false
  | PNotifyOne i => producer_done (WaitSet.data (mon s)) = false /\ i <= 5
  | PNotifyAll => producer_done (WaitSet.data (mon s)) = true
  | PDone => producer_done (WaitSet.data (mon s)) = true
  end
  /\ forall k n, nth_error (cons s) k = Some (CDone n) ->
                 producer_done (WaitSet.data (mon s)) = true.

(** What holds of the wait set in every state reached: nobody is in it
    twice; only consumers inside their loop are in it; nobody is in it once
    the producer has returned; and while an item is buffered some consumer
    is awake to take it, except between a push and its [notify_one]. *)
Definition wait_inv (s : sys) : Prop :=
  NoDup (map snd (WaitSet.asleep (mon s)))
  /\ (forall e, In e (WaitSet.asleep (mon s)) ->
        exists k n,
          snd e = Consumer k /\ nth_error (cons s) k = Some (CLoop n))
  /\ (prod s = PDone -> WaitSet.asleep (mon s) = [])
  /\ (shared_buffer (WaitSet.data (mon s)) <> [] -> cons s <> [] ->
      (forall i, prod s <> PNotifyOne i) ->
      exists k, awake_in_loop k s).

(** The moves of the scheduler, read off [step]. *)
Inductive transition : sys -> event -> sys -> Prop :=
| s3_push : forall s i pick,
    WaitSet.sleeping thread_eqb Producer (mon s) = false ->
    prod s = PLoop i -> i <= 5 ->
    transition s (Run Producer pick)
      (mkSys
         (WaitSet.mkMon
            (mkShared (shared_buffer (WaitSet.data (mon s)) ++ [i])
               (producer_done (WaitSet.data (mon s))))
            (WaitSet.asleep (mon s)))
         (PNotifyOne i) (cons s) (consumed s))
| s3_notify_one : forall s i pick,
    WaitSet.sleeping thread_eqb Producer (mon s) = false ->
    prod s = PNotifyOne i ->
    transition s (Run Producer pick)
      (mkSys
         (WaitSet.mkMon (WaitSet.data (mon s))
            (WaitSet.after_notify_one condvar_eqb thread_eqb
               buffer_condition pick (WaitSet.asleep (mon s))))
         (PLoop (i + 1)) (cons s) (consumed s))
| s3_set_done : forall s i pick,
    WaitSet.sleeping thread_eqb Producer (mon s) = false ->
    prod s = PLoop i -> 5 < i ->
    transition s (Run Producer pick)
      (mkSys
         (WaitSet.mkMon
            (mkShared (shared_buffer (WaitSet.data (mon s))) true)
            (WaitSet.asleep (mon s)))
         PNotifyAll (cons s) (consumed s))
| s3_notify_all : forall s pick,
    WaitSet.sleeping thread_eqb Producer (mon s) = false ->
    prod s = PNotifyAll ->
    transition s (Run Producer pick)
      (mkSys
         (WaitSet.mkMon (WaitSet.data (mon s))
            (WaitSet.after_notify_all condvar_eqb buffer_condition
               (WaitSet.asleep (mon s))))
         PDone (cons s) (consumed s))
| s3_pop : forall s k pick n item rest,
    WaitSet.sleeping thread_eqb (Consumer k) (mon s) = false ->
    nth_error (cons s) k = Some (CLoop n) ->
    shared_buffer (WaitSet.data (mon s)) = item :: rest ->
    transition s (Run (Consumer k) pick)
      (mkSys
         (WaitSet.mkMon
            (mkShared rest (producer_done (WaitSet.data (mon s))))
            (WaitSet.asleep (mon s)))
         (prod s) (Demo.set_nth k (CLoop (n + 1)) (cons s))
         (consumed s ++ [(k, item)]))
| s3_break : forall s k pick n,
    WaitSet.sleeping thread_eqb (Consumer k) (mon s) = false ->
    nth_error (cons s) k = Some (CLoop n) ->
    shared_buffer (WaitSet.data (mon s)) = [] ->
    producer_done (WaitSet.data (mon s)) = true ->
    transition s (Run (Consumer k) pick)
      (mkSys (mon s) (prod s) (Demo.set_nth k (CDone n) (cons s))
         (consumed s))
| s3_sleep : forall s k pick n,
    WaitSet.sleeping thread_eqb (Consumer k) (mon s) = false ->
    nth_error (cons s) k = Some (CLoop n) ->
    shared_buffer (WaitSet.data (mon s)) = [] ->
    producer_done (WaitSet.data (mon s)) = false ->
    transition s (Run (Consumer k) pick)
      (mkSys
         (WaitSet.mkMon (WaitSet.data (mon s))
            ((buffer_condition, Consumer k) :: WaitSet.asleep (mon s)))
         (prod s) (cons s) (consumed s))
| s3_spurious : forall s th,
    WaitSet.sleeping thread_eqb th (mon s) = true ->
    transition s (Spurious th)
      (mkSys (WaitSet.wake thread_eqb th (mon s))
         (prod s) (cons s) (consumed s)).

(** An upper bound on the steps still to come that are not a thread going
    to sleep. *)
Definition steps_left (s : sys) : nat :=
  match prod s with
  | PLoop i => 3 + 3 * Z.to_nat (6 - i)
  | PNotifyOne i => 1 + 3 * Z.to_nat (6 - i)
  | PNotifyAll => 1
  | PDone => 0
  end
  + length (shared_buffer (WaitSet.data (mon s)))
  + length (filter (fun c => negb (consumer_done c)) (cons s)).

End Step3W.

(* ================================================================= *)
(** * Properties *)

Import ThreadSafeQueue.

(** ** One call of [pop], by the shape of the state *)

Lemma pop_front (item front : Z) (rest : list Z) (fin : bool) :
  pop item (mk (front :: rest) fin) = Returned (mk rest fin) (front, true).
Proof. reflexivity. Qed.

Lemma pop_end_of_stream (item : Z) :
  pop item (mk [] true) = Returned (mk [] true) (item, false).
Proof. reflexivity. Qed.

Lemma pop_suspends (item : Z) : pop item (mk [] false) = Blocked.
Proof. reflexivity. Qed.

Lemma push_returns (item : Z) (q : t) :
  push item q = Returned (mk (queue_ q ++ [item]) (finished_ q)) tt.
Proof. reflexivity. Qed.

Lemma finish_returns (q : t) :
  finish q = Returned (mk (queue_ q) true) tt.
Proof. reflexivity. Qed.

Lemma drained_eq (q : t) : drained q -> q = mk [] true.
Proof.
  destruct q as [l f]; unfold drained; cbn.
  intros [-> ->]; reflexivity.
Qed.

Lemma last_default_irrelevant (l : list Z) :
  forall y d d', last (y :: l) d = last (y :: l) d'.
Proof.
  induction l as [|z l IH]; intros y d d'; [reflexivity|].
  change (last (z :: l) d = last (z :: l) d'). apply IH.
Qed.

Lemma last_cons_default (x d : Z) (l : list Z) :
  last (x :: l) d = last l x.
Proof.
  destruct l as [|y l]; [reflexivity|].
  change (last (y :: l) d = last (y :: l) x).
  apply last_default_irrelevant.
Qed.

Lemma pops_finished (l : list Z) :
  forall item,
    pops (S (length l)) item (mk l true)
    = Returned (mk [] true)
        (map (fun v => (v, true)) l ++ [(last l item, false)]).
Proof.
  induction l as [|x l IH]; intros item; [reflexivity|].
  change (pops (S (length (x :: l))) item (mk (x :: l) true))
    with (bind (pops (S (length l)) x) (fun rs => ret ((x, true) :: rs))
            (mk l true)).
  unfold bind at 1. rewrite IH.
  rewrite last_cons_default. reflexivity.
Qed.

Lemma pops_drained (n : nat) (item : Z) :
  pops n item (mk [] true) = Returned (mk [] true) (repeat (item, false) n).
Proof.
  induction n as [|n IH]; [reflexivity|].
  change (pops (S n) item (mk [] true))
    with (bind (pops n item) (fun rs => ret ((item, false) :: rs))
            (mk [] true)).
  unfold bind. rewrite IH. reflexivity.
Qed.

(** ** C3: the drained queue answers every pop with end-of-stream *)

(** C3.  In a state with [finished_] set and no items, [pop] does not
    suspend: it returns [false], leaves [item] and the state as they were,
    and so does every one of any number of further pops. *)
Theorem pop_drained_terminal (q : t) (item : Z) (n : nat) :
  drained q ->
  pop item q = Returned q (item, false)
  /\ blocked (pop item q) = false
  /\ pops n item q = Returned q (repeat (item, false) n)
  /\ (forall q' rs, pops n item q = Returned q' rs -> drained q').
Proof.
  intros Hd. pose proof (drained_eq q Hd) as ->.
  rewrite pops_drained, pop_end_of_stream.
  repeat split; intros; try congruence.
  - inversion H; subst; reflexivity.
  - inversion H; subst; reflexivity.
Qed.

Lemma pop_drained_terminal_witness :
  drained (mk [] true)
  /\ pops 3 7 (mk [] true)
     = Returned (mk [] true) [(7, false); (7, false); (7, false)].
Proof.
  split; [split; reflexivity|].
  apply (pop_drained_terminal (mk [] true) 7 3). split; reflexivity.
Defined.

(** ** C8: push never waits and never fails *)

(** C8.  Whatever the items already queued and whatever [finished_],
    [push v] returns, with [v] appended at the back and [finished_]
    untouched; no state makes it suspend. *)
Theorem push_total_unconditional (q : t) (v : Z) :
  push v q = Returned (mk (queue_ q ++ [v]) (finished_ q)) tt
  /\ blocked (push v q) = false
  /\ push v (mk (queue_ q) true) = Returned (mk (queue_ q ++ [v]) true) tt
  /\ push v (mk (queue_ q) false) = Returned (mk (queue_ q ++ [v]) false) tt.
Proof. repeat split. Qed.

(** ** C6: finish is idempotent *)

(** C6.  Two calls of [finish] leave the same items and the same flag as
    one call, and every sequence of later calls gets the same responses and
    ends in the same state after two as after one. *)
Theorem finish_idempotent (q : t) (cs : list QueueHistory.call) :
  (finish ;; finish) q = finish q
  /\ (finish ;; finish ;; QueueHistory.history cs) q
     = (finish ;; QueueHistory.history cs) q.
Proof. split; reflexivity. Qed.

(** ** C9: finish keeps the items *)

(** C9.  [finish] changes [finished_] only.  The items queued before it are
    then popped one by one, in order and with [true], and the pop after the
    last of them answers [false] from the drained state. *)
Theorem finish_preserves_items (q : t) (item : Z) :
  finish q = Returned (mk (queue_ q) true) tt
  /\ (finish ;; pops (S (length (queue_ q))) item) q
     = Returned (mk [] true)
         (map (fun v => (v, true)) (queue_ q)
            ++ [(last (queue_ q) item, false)]).
Proof.
  split; [reflexivity|].
  unfold bind at 1. rewrite finish_returns.
  apply pops_finished.
Qed.

(* ================================================================= *)
(** ** Histories: what goes in comes out, once, in order *)

Import QueueHistory.

Lemma exec_cases (c : call) (q q' : t) (r : response) :
  exec c q = Returned q' r ->
  match c with
  | Push item =>
      q' = mk (queue_ q ++ [item]) (finished_ q) /\ r = RVoid
  | Pop item =>
      (exists front rest, queue_ q = front :: rest
                          /\ q' = mk rest (finished_ q)
                          /\ r = RPop front true)
      \/ (queue_ q = [] /\ finished_ q = true /\ q' = q
          /\ r = RPop item false)
  | Finish => q' = mk (queue_ q) true /\ r = RVoid
  | Size => q' = q /\ r = RSize (Z.of_nat (length (queue_ q)))
  end.
Proof.
  destruct c as [item|item| |]; cbn.
  - intros H; inversion H; auto.
  - destruct q as [[|x rest] [|]]; cbn; intros H; inversion H; subst; cbn.
    + right; auto.
    + left; exists x, rest; auto.
    + left; exists x, rest; auto.
  - intros H; inversion H; auto.
  - intros H; inversion H; auto.
Qed.

Lemma history_cons (c : call) (cs : list call) (q q' : t) (rs : list response) :
  history (c :: cs) q = Returned q' rs ->
  exists q1 r rs',
    exec c q = Returned q1 r /\ history cs q1 = Returned q' rs'
    /\ rs = r :: rs'.
Proof.
  cbn [history]. unfold bind at 1.
  destruct (exec c q) as [|q1 r]; [discriminate|].
  unfold bind at 1.
  destruct (history cs q1) as [|q2 rs'] eqn:E; [discriminate|].
  unfold ret. intros H; inversion H; subst.
  exists q1, r, rs'; auto.
Qed.

Lemma history_length (cs : list call) :
  forall q q' rs, history cs q = Returned q' rs -> length rs = length cs.
Proof.
  induction cs as [|c cs IH]; intros q q' rs H.
  - inversion H; reflexivity.
  - apply history_cons in H as (q1 & r & rs' & _ & H2 & ->).
    cbn. f_equal. eapply IH; eauto.
Qed.

(** Items are neither lost nor invented: at any moment the items pushed so
    far are those popped so far followed by those still queued. *)
Lemma history_conservation (cs : list call) :
  forall q q' rs,
    history cs q = Returned q' rs ->
    queue_ q ++ pushed cs = popped rs ++ queue_ q'.
Proof.
  induction cs as [|c cs IH]; intros q q' rs H.
  { inversion H; subst; cbn. apply app_nil_r. }
  { apply history_cons in H as (q1 & r & rs' & H1 & H2 & ->).
    apply IH in H2. apply exec_cases in H1.
    unfold pushed, popped in *.
    destruct c as [item|item| |].
    - destruct H1 as [-> ->]; cbn in *.
      rewrite <- H2, <- app_assoc. reflexivity.
    - destruct H1 as [(x & rest & Hq & -> & ->)|(Hq & _ & -> & ->)];
        cbn in *; rewrite Hq in *; cbn; [f_equal|]; exact H2.
    - destruct H1 as [-> ->]; cbn in *; exact H2.
    - destruct H1 as [-> ->]; cbn in *; exact H2. }
Qed.

(** A history whose last response is end-of-stream leaves nothing queued. *)
Lemma history_ends_drained (cs : list call) :
  forall q q' rs,
    history cs q = Returned q' rs ->
    is_end_of_stream (last rs RVoid) = true ->
    queue_ q' = [] /\ finished_ q' = true.
Proof.
  induction cs as [|c cs IH]; intros q q' rs H Hlast.
  - inversion H; subst; discriminate.
  - apply history_cons in H as (q1 & r & rs' & H1 & H2 & ->).
    destruct rs' as [|r' rs''].
    + pose proof (history_length _ _ _ _ H2) as Hlen.
      destruct cs; [|discriminate]. inversion H2; subst.
      cbn in Hlast. apply exec_cases in H1.
      destruct c as [item|item| |];
        try (destruct H1 as [_ ->]; discriminate).
      destruct H1 as [(x & rest & _ & _ & ->)|(Hq & Hf & -> & _)];
        [discriminate|auto].
    + eapply IH; eauto.
Qed.

Lemma history_app (cs1 cs2 : list call) :
  forall q q' rs,
    history (cs1 ++ cs2) q = Returned q' rs ->
    exists q1 rs1 rs2,
      history cs1 q = Returned q1 rs1
      /\ history cs2 q1 = Returned q' rs2
      /\ rs = rs1 ++ rs2.
Proof.
  induction cs1 as [|c cs1 IH]; intros q q' rs H.
  - exists q, [], rs. auto.
  - cbn [app] in H.
    apply history_cons in H as (q1 & r & rs' & H1 & H2 & ->).
    apply IH in H2 as (q2 & rs1 & rs2 & H3 & H4 & ->).
    exists q2, (r :: rs1), rs2. split; [|auto].
    cbn [history]. unfold bind at 1. rewrite H1.
    unfold bind at 1. rewrite H3. reflexivity.
Qed.

(** The flag is set by [finish] only. *)
Lemma history_closed_by_finish (cs : list call) :
  forall q q' rs,
    history cs q = Returned q' rs ->
    finished_ q = false -> finished_ q' = true -> In Finish cs.
Proof.
  induction cs as [|c cs IH]; intros q q' rs H Hf Hf'.
  - inversion H; subst. congruence.
  - apply history_cons in H as (q1 & r & rs' & H1 & H2 & ->).
    apply exec_cases in H1. destruct c as [item|item| |].
    + destruct H1 as [-> _]. right. eapply IH; eauto.
    + right. eapply IH; eauto.
      destruct H1 as [(x & rest & _ & -> & _)|(_ & _ & -> & _)]; auto.
    + left; reflexivity.
    + destruct H1 as [-> _]. right. eapply IH; eauto.
Qed.

(** A pop answers [false] only on a closed, empty queue, which it leaves
    as it is. *)
Lemma end_of_stream_state (c : call) (q q' : t) (r : response) :
  exec c q = Returned q' r -> is_end_of_stream r = true ->
  queue_ q = [] /\ finished_ q = true /\ q' = q.
Proof.
  intros H Hr. apply exec_cases in H. destruct c as [item|item| |].
  - destruct H as [_ ->]. discriminate.
  - destruct H as [(x & rest & _ & _ & ->)|(Hq & Hf & -> & _)];
      [discriminate|auto].
  - destruct H as [_ ->]. discriminate.
  - destruct H as [_ ->]. discriminate.
Qed.

(** With nothing queued and no further push, nothing is popped and nothing
    is queued afterwards. *)
Lemma history_without_push (cs : list call) (q q' : t) (rs : list response) :
  history cs q = Returned q' rs ->
  queue_ q = [] -> pushed cs = [] ->
  popped rs = [] /\ queue_ q' = [].
Proof.
  intros H Hq Hp. apply history_conservation in H.
  rewrite Hq, Hp in H. cbn in H. symmetry in H.
  apply app_eq_nil in H. exact H.
Qed.

Lemma pushed_app (cs1 cs2 : list call) :
  pushed (cs1 ++ cs2) = pushed cs1 ++ pushed cs2.
Proof. unfold pushed. apply flat_map_app. Qed.

Lemma popped_app (rs1 rs2 : list response) :
  popped (rs1 ++ rs2) = popped rs1 ++ popped rs2.
Proof. unfold popped. apply flat_map_app. Qed.

Lemma no_push_after_finish_app (cs1 cs2 : list call) :
  no_push_after_finish (cs1 ++ cs2) = true -> In Finish cs1 ->
  pushed cs2 = [].
Proof.
  induction cs1 as [|c cs1 IH]; intros H Hin; [destruct Hin|].
  cbn [app] in H. destruct c as [item|item| |]; cbn in H.
  - destruct Hin as [Hin|Hin]; [discriminate|auto].
  - destruct Hin as [Hin|Hin]; [discriminate|auto].
  - rewrite pushed_app in H.
    destruct (pushed cs1 ++ pushed cs2) eqn:E; [|discriminate].
    apply app_eq_nil in E. tauto.
  - destruct Hin as [Hin|Hin]; [discriminate|auto].
Qed.

Lemma existsb_end_of_stream_split (rs : list response) :
  existsb is_end_of_stream rs = true ->
  exists rs1 r rs2, rs = rs1 ++ r :: rs2 /\ is_end_of_stream r = true.
Proof.
  intros H. apply existsb_exists in H as (r & Hin & Hr).
  apply in_split in Hin as (rs1 & rs2 & ->). eauto.
Qed.

Lemma split_at {A : Type} (n : nat) :
  forall l : list A,
    (n < length l)%nat ->
    exists l1 x l2, l = l1 ++ x :: l2 /\ length l1 = n.
Proof.
  induction n as [|n IH]; intros [|y l] Hn; cbn in Hn; try lia.
  - exists [], y, l. auto.
  - destruct (IH l) as (l1 & x & l2 & -> & <-); [lia|].
    exists (y :: l1), x, l2. auto.
Qed.

Lemma app_same_length {A : Type} (l1 l1' l2 l2' : list A) :
  length l1 = length l1' -> l1 ++ l2 = l1' ++ l2' -> l1 = l1' /\ l2 = l2'.
Proof.
  revert l1'; induction l1 as [|x l1 IH]; intros [|y l1'] Hlen E;
    cbn in *; try discriminate; auto.
  inversion E; subst. destruct (IH l1') as [-> ->]; auto.
Qed.

(** What holds at a pop that answers [false], wherever it stands in the
    history: [finish] was called before it, and everything pushed before it
    had been popped before it. *)
Lemma history_at_end_of_stream
    (cs1 cs2 : list call) (c : call) (rs1 rs2 : list response)
    (r : response) (q' : t) :
  history (cs1 ++ c :: cs2) init = Returned q' (rs1 ++ r :: rs2) ->
  length cs1 = length rs1 ->
  is_end_of_stream r = true ->
  In Finish cs1 /\ popped rs1 = pushed cs1
  /\ exists q1, history cs2 q1 = Returned q' rs2 /\ queue_ q1 = [].
Proof.
  intros H Hlen Hr.
  apply history_app in H as (q1 & rs1' & rs2' & H1 & H2 & E).
  pose proof (history_length _ _ _ _ H1) as Hlen1.
  assert (rs1' = rs1 /\ rs2' = r :: rs2) as [-> ->].
  { symmetry in E. apply app_same_length in E; [tauto|congruence]. }
  apply history_cons in H2 as (q2 & r' & rs2' & H3 & H4 & E2).
  inversion E2; subst r' rs2'.
  destruct (end_of_stream_state _ _ _ _ H3 Hr) as (Hq & Hf & ->).
  split; [eapply history_closed_by_finish; eauto|].
  split; [|eauto].
  apply history_conservation in H1. rewrite Hq, app_nil_r in H1.
  symmetry. exact H1.
Qed.

(** C2.  Take any sequence of calls by any threads on a fresh queue that all
    get through.  The items pushed are the items popped followed by the
    items still queued.  A pop answers [false] only after [finish] has been
    called and only when everything pushed before it has been popped.  So
    when the producers keep the contract (no push after [finish]) and some
    consumer has drained until [false], the popped items are exactly the
    pushed ones: the same multiset, the same number, nothing twice and
    nothing missing; the same holds, contract or not, when the last call is
    a pop answering [false]. *)
Theorem no_loss_no_duplication (cs : list call) (q' : t) (rs : list response) :
  history cs init = Returned q' rs ->
  pushed cs = popped rs ++ queue_ q'
  /\ (is_end_of_stream (last rs RVoid) = true ->
      Permutation (popped rs) (pushed cs)
      /\ length (popped rs) = length (pushed cs)
      /\ popped rs = pushed cs)
  /\ (forall cs1 c cs2 rs1 r rs2,
         cs = cs1 ++ c :: cs2 -> rs = rs1 ++ r :: rs2 ->
         length cs1 = length rs1 ->
         is_end_of_stream r = true ->
         In Finish cs1 /\ popped rs1 = pushed cs1)
  /\ (no_push_after_finish cs = true ->
      existsb is_end_of_stream rs = true ->
      Permutation (popped rs) (pushed cs)
      /\ length (popped rs) = length (pushed cs)
      /\ popped rs = pushed cs
      /\ queue_ q' = []).
Proof.
  intros H. pose proof (history_conservation _ _ _ _ H) as Hc.
  cbn in Hc. split; [exact Hc|]. split; [|split].
  - intros Hlast.
    destruct (history_ends_drained _ _ _ _ H Hlast) as [Hq _].
    rewrite Hq, app_nil_r in Hc. rewrite Hc.
    split; [apply Permutation_refl|split; reflexivity].
  - intros cs1 c cs2 rs1 r rs2 -> -> Hlen Hr.
    destruct (history_at_end_of_stream _ _ _ _ _ _ _ H Hlen Hr)
      as (Hfin & Hpop & _).
    auto.
  - intros Hcontract Hsome.
    destruct (existsb_end_of_stream_split _ Hsome)
      as (rs1 & r & rs2 & -> & Hr).
    pose proof (history_length _ _ _ _ H) as Hlen.
    rewrite length_app in Hlen. cbn [length] in Hlen.
    assert (Hsplit : exists cs1 c cs2,
               cs = cs1 ++ c :: cs2 /\ length cs1 = length rs1)
      by (apply split_at; lia).
    destruct Hsplit as (cs1 & c & cs2 & -> & Hlen1).
    destruct (history_at_end_of_stream _ _ _ _ _ _ _ H Hlen1 Hr)
      as (Hfin & Hpop & q1 & H2 & Hq1).
    assert (Hno : pushed (c :: cs2) = [])
      by (eapply no_push_after_finish_app; eauto).
    assert (Hno2 : pushed cs2 = []).
    { change (c :: cs2) with ([c] ++ cs2) in Hno.
      rewrite pushed_app in Hno. apply app_eq_nil in Hno. tauto. }
    destruct (history_without_push _ _ _ _ H2 Hq1 Hno2) as [Hp2 Hq'].
    assert (E : popped (rs1 ++ r :: rs2) = pushed (cs1 ++ c :: cs2)).
    { rewrite popped_app, pushed_app, Hno, app_nil_r.
      change (r :: rs2) with ([r] ++ rs2). rewrite popped_app, Hp2.
      destruct r as [|item [|]|n]; try discriminate.
      cbn. rewrite app_nil_r. exact Hpop. }
    rewrite E.
    split; [apply Permutation_refl|]. split; [reflexivity|].
    split; [reflexivity|exact Hq'].
Qed.

Lemma no_loss_no_duplication_witness :
  history [Push 4; Push 9; Pop 0; Push 4; Finish; Pop 0; Pop 0; Pop 0; Size;
           Pop 7] init
  = Returned (mk [] true)
      [RVoid; RVoid; RPop 4 true; RVoid; RVoid; RPop 9 true; RPop 4 true;
       RPop 0 false; RSize 0; RPop 7 false]
  /\ no_push_after_finish
       [Push 4; Push 9; Pop 0; Push 4; Finish; Pop 0; Pop 0; Pop 0; Size;
        Pop 7] = true
  /\ Permutation [4; 9; 4] [4; 9; 4]
  /\ length [4; 9; 4] = 3%nat.
Proof.
  assert (R : history [Push 4; Push 9; Pop 0; Push 4; Finish; Pop 0; Pop 0;
                       Pop 0; Size; Pop 7] init
              = Returned (mk [] true)
                  [RVoid; RVoid; RPop 4 true; RVoid; RVoid; RPop 9 true;
                   RPop 4 true; RPop 0 false; RSize 0; RPop 7 false])
    by reflexivity.
  split; [exact R|]. split; [reflexivity|].
  destruct (proj2 (proj2 (proj2 (no_loss_no_duplication _ _ _ R)))
              eq_refl eq_refl) as (HP & HL & _).
  split; [exact HP|exact HL].
Defined.

(* ================================================================= *)
(** ** The demo program: one producer, consumers, every schedule *)

Module DemoFacts.
Import Demo.

Lemma length_set_nth {A : Type} (k : nat) (x : A) (l : list A) :
  length (set_nth k x l) = length l.
Proof.
  revert k; induction l as [|y l IH]; intros [|k]; cbn; auto.
Qed.

Lemma nth_error_set_nth_other {A : Type} (k k' : nat) (x : A) (l : list A) :
  k <> k' -> nth_error (set_nth k x l) k' = nth_error l k'.
Proof.
  revert k k'; induction l as [|y l IH]; intros [|k] [|k'] Hne; cbn; auto;
    congruence.
Qed.

Lemma nth_error_set_nth_same {A : Type} (k : nat) (x y : A) (l : list A) :
  nth_error l k = Some y -> nth_error (set_nth k x l) k = Some x.
Proof.
  revert k; induction l as [|z l IH]; intros [|k]; cbn; auto; discriminate.
Qed.

Lemma upto_snoc (i : Z) : 1 <= i -> upto i = upto (i - 1) ++ [i].
Proof.
  intros Hi. unfold upto.
  replace (Z.to_nat i) with (S (Z.to_nat (i - 1))) by lia.
  rewrite seq_S, map_app. cbn [map]. do 2 f_equal. lia.
Qed.

Lemma upto_nonpos (n : Z) : n < 1 -> upto n = [].
Proof.
  intros Hn. unfold upto. replace (Z.to_nat n) with O by lia. reflexivity.
Qed.

Lemma step_transition (n : Z) (th : thread) (s s' : sys) :
  step n th s = Some s' -> transition n s th s'.
Proof.
  destruct th as [|k]; cbn.
  - destruct (prod s) as [i|] eqn:Hp; [|discriminate].
    unfold producer_step.
    destruct (i <=? n) eqn:Hle; cbn; intros H; inversion H; subst.
    + apply t_push; [assumption|lia].
    + apply t_finish with i; [assumption|lia].
  - destruct (nth_error (cons s) k) as [[item count|]|] eqn:Hk;
      try discriminate.
    unfold consumer_step.
    destruct s as [[[|x rest] fin] p cs ev]; cbn in *.
    + destruct fin; cbn; intros H; inversion H; subst.
      rewrite app_nil_r.
      apply (t_end n (mkSys (mk [] true) p cs ev) k item count); auto.
    + destruct fin; cbn; intros H; inversion H; subst;
        apply (t_pop n (mkSys (mk (x :: rest) _) p cs ev) k item count);
        auto.
Qed.

Lemma transition_step (n : Z) (th : thread) (s s' : sys) :
  transition n s th s' -> step n th s = Some s'.
Proof.
  intros H; destruct H as [s i Hp Hi|s i Hp Hi|s k item count x rest Hk Hq
                          |s k item count Hk Hq Hf]; cbn.
  - rewrite Hp. unfold producer_step.
    destruct (Z.leb_spec i n); [reflexivity|lia].
  - rewrite Hp. unfold producer_step.
    destruct (Z.leb_spec i n); [lia|reflexivity].
  - rewrite Hk. unfold consumer_step.
    destruct s as [[l fin] p cs ev]; cbn in *; subst l.
    destruct fin; reflexivity.
  - rewrite Hk. unfold consumer_step.
    destruct s as [[l fin] p cs ev]; cbn in *; subst l fin.
    cbn. rewrite app_nil_r. reflexivity.
Qed.

Lemma init_inv (n : Z) (items : list Z) : inv n (init_sys items).
Proof.
  split; [|split].
  - cbn. repeat split; auto; lia.
  - cbn. intros k c Hk Hc. apply nth_error_In, in_map_iff in Hk.
    destruct Hk as (item & <- & _). discriminate.
  - cbn. intros e [].
Qed.

Lemma transition_producer_inv (n : Z) (th : thread) (s s' : sys) :
  transition n s th s' -> producer_inv n s -> producer_inv n s'.
Proof.
  unfold producer_inv.
  intros H; destruct H as [s i Hp Hi|s i Hp Hi|s k item count x rest Hk Hq
                          |s k item count Hk Hq Hf]; cbn.
  - rewrite Hp. intros (H1 & H2 & H3 & H4).
    split; [lia|]. split; [right; lia|]. split; [assumption|].
    rewrite app_assoc, H4. replace (i + 1 - 1) with i by lia.
    symmetry; apply upto_snoc; lia.
  - rewrite Hp. intros (H1 & H2 & H3 & H4). split; [reflexivity|].
    rewrite H4. destruct H2 as [->|H2].
    + rewrite (upto_nonpos n) by lia. reflexivity.
    + f_equal; lia.
  - rewrite Hq. destruct (prod s); rewrite map_app, <- app_assoc; cbn; auto.
  - auto.
Qed.

Lemma transition_consumers_inv (n : Z) (th : thread) (s s' : sys) :
  transition n s th s' -> producer_inv n s -> consumers_inv s ->
  consumers_inv s'.
Proof.
  unfold producer_inv, consumers_inv.
  intros H; destruct H as [s i Hp Hi|s i Hp Hi|s k item count x rest Hk Hq
                          |s k item count Hk Hq Hf]; cbn.
  - rewrite Hp. intros (_ & _ & Hf & _) [Hdone Hev]. split; [|exact Hev].
    intros k c Hk Hc. destruct (Hdone k c Hk Hc) as [Hf' _]. congruence.
  - rewrite Hp. intros (_ & _ & Hf & _) [Hdone Hev]. split; [|exact Hev].
    intros k c Hk Hc. destruct (Hdone k c Hk Hc) as [Hf' _]. congruence.
  - intros _ [Hdone Hev]. split.
    + intros k' c Hk' Hc. destruct (Nat.eq_dec k k') as [<-|Hne].
      * rewrite (nth_error_set_nth_same _ _ _ _ Hk) in Hk'.
        inversion Hk'; subst; discriminate.
      * rewrite nth_error_set_nth_other in Hk' by assumption.
        destruct (Hdone k' c Hk' Hc) as [_ He]. congruence.
    + rewrite length_set_nth. intros e He. apply in_app_or in He.
      destruct He as [He|[<-|[]]]; [auto|].
      cbn. apply nth_error_Some. congruence.
  - intros _ [Hdone Hev]. split; [auto|].
    rewrite length_set_nth. exact Hev.
Qed.

Lemma step_inv (n : Z) (th : thread) (s s' : sys) :
  step n th s = Some s' -> inv n s -> inv n s'.
Proof.
  intros H [Hp Hc]. apply step_transition in H. split.
  - eapply transition_producer_inv; eauto.
  - eapply transition_consumers_inv; eauto.
Qed.

Lemma run_inv (n : Z) (sched : list thread) :
  forall s s', run n sched s = Some s' -> inv n s -> inv n s'.
Proof.
  induction sched as [|th sched IH]; intros s s' H Hinv; cbn in H.
  - inversion H; subst; assumption.
  - destruct (step n th s) as [s1|] eqn:E; [|discriminate].
    eapply IH; eauto using step_inv.
Qed.

Lemma step_length_cons (n : Z) (th : thread) (s s' : sys) :
  step n th s = Some s' -> length (cons s') = length (cons s).
Proof.
  intros H. apply step_transition in H.
  destruct H; cbn; auto using length_set_nth.
Qed.

Lemma run_length_cons (n : Z) (sched : list thread) :
  forall s s', run n sched s = Some s' -> length (cons s') = length (cons s).
Proof.
  induction sched as [|th sched IH]; intros s s' H; cbn in H.
  - inversion H; reflexivity.
  - destruct (step n th s) as [s1|] eqn:E; [|discriminate].
    rewrite (IH _ _ H). eapply step_length_cons; eauto.
Qed.

Lemma run_app (n : Z) (sched1 sched2 : list thread) :
  forall s,
    run n (sched1 ++ sched2) s
    = match run n sched1 s with
      | Some s1 => run n sched2 s1
      | None => None
      end.
Proof.
  induction sched1 as [|th sched1 IH]; intros s; cbn; [reflexivity|].
  destruct (step n th s); auto.
Qed.

(** With a single consumer every event is its own. *)
Lemma consumed_by_single (s : sys) :
  (forall e, In e (consumed s) -> (fst e < 1)%nat) ->
  consumed_by 0 s = map snd (consumed s).
Proof.
  unfold consumed_by. induction (consumed s) as [|e l IH]; intros H;
    [reflexivity|].
  cbn. assert (fst e = O) as -> by (specialize (H e (or_introl eq_refl)); lia).
  cbn. f_equal. apply IH. intros e' He'. apply H. right; assumption.
Qed.
(** ** No deadlock, and every run is finite *)

Lemma forallb_not_done (cs : list consumer_state) :
  forallb consumer_done cs = false ->
  exists k item count, nth_error cs k = Some (CLoop item count).
Proof.
  induction cs as [|c cs IH]; cbn; [discriminate|].
  destruct c as [item count|item count]; cbn.
  - intros _. exists O, item, count. reflexivity.
  - intros H. destruct (IH H) as (k & item' & count' & Hk).
    exists (S k), item', count'. exact Hk.
Qed.

Lemma progress (n : Z) (s : sys) :
  inv n s -> terminated s = false -> exists th s', step n th s = Some s'.
Proof.
  intros [Hp _] Ht. unfold terminated, producer_inv in *.
  destruct (prod s) as [i|] eqn:Hprod.
  - exists Producer. destruct (Z.le_gt_cases i n).
    + eexists. apply transition_step. apply (t_push n s i); auto.
    + eexists. apply transition_step. apply (t_finish n s i); auto.
  - cbn in Ht. destruct (forallb_not_done _ Ht) as (k & item & count & Hk).
    destruct Hp as [Hf _]. exists (Consumer k).
    destruct (queue_ (queue s)) as [|x rest] eqn:Hq.
    + eexists. apply transition_step. eapply t_end; eauto.
    + eexists. apply transition_step. eapply t_pop; eauto.
Qed.

Lemma still_looping_set_nth (k : nat) (c c' : consumer_state)
    (cs : list consumer_state) :
  nth_error cs k = Some c ->
  (length (filter (fun c => negb (consumer_done c)) (set_nth k c' cs))
   + (if consumer_done c then 0 else 1)
   = length (filter (fun c => negb (consumer_done c)) cs)
     + (if consumer_done c' then 0 else 1))%nat.
Proof.
  revert k; induction cs as [|d cs IH]; intros [|k]; cbn; try discriminate.
  - intros H; inversion H; subst.
    destruct (consumer_done c), (consumer_done c'); cbn; lia.
  - intros H. specialize (IH k H).
    destruct (consumer_done d); cbn; lia.
Qed.

Lemma step_steps_left (n : Z) (th : thread) (s s' : sys) :
  step n th s = Some s' -> (steps_left n s' < steps_left n s)%nat.
Proof.
  intros H. apply step_transition in H. unfold steps_left.
  destruct H as [s i Hp Hi|s i Hp Hi|s k item count x rest Hk Hq
                |s k item count Hk Hq Hf]; cbn [queue prod cons queue_].
  - rewrite Hp, length_app. cbn [length].
    replace (Z.to_nat (n + 1 - i)) with (S (Z.to_nat (n + 1 - (i + 1))))
      by lia.
    lia.
  - rewrite Hp. lia.
  - rewrite Hq. cbn [length].
    pose proof (still_looping_set_nth k _ (CLoop x (count + 1)) _ Hk) as E.
    cbn in E. lia.
  - pose proof (still_looping_set_nth k _ (CDone item count) _ Hk) as E.
    cbn in E. lia.
Qed.

Lemma run_steps_left (n : Z) (sched : list thread) :
  forall s s',
    run n sched s = Some s' ->
    (length sched + steps_left n s' <= steps_left n s)%nat.
Proof.
  induction sched as [|th sched IH]; intros s s' H; cbn in H.
  - inversion H; subst. cbn. lia.
  - destruct (step n th s) as [s1|] eqn:E; [|discriminate].
    apply IH in H. apply step_steps_left in E. cbn [length]. lia.
Qed.

Lemma forallb_single_done (cs : list consumer_state) :
  length cs = 1%nat -> forallb consumer_done cs = true ->
  exists c, nth_error cs 0 = Some c /\ consumer_done c = true.
Proof.
  destruct cs as [|c [|c' cs]]; cbn; try discriminate.
  intros _ H. exists c. split; [reflexivity|].
  destruct (consumer_done c); [reflexivity|discriminate].
Qed.

(** C1.  [main] with one producer of [1..N] and one consumer, under every
    schedule.  At each moment the items the consumer has received, followed
    by the items queued, are [1..i] for the number [i] of pushes made so
    far; the loop counter stays an [int]; and once both threads have
    returned the consumer has received exactly [1; 2; ...; N], in that
    order.  A pop that answers [true] takes the front item off the queue
    and returns it.  The program cannot hang short of that: a state in which
    no thread can move is one where both have returned, and no schedule is
    longer than [2 * (N + 1) + 1] steps. *)
Theorem fifo_single_producer_single_consumer
    (N item0 : Z) (sched : list thread) (s : sys) :
  INT_MIN <= N < INT_MAX ->
  run N sched (init_sys [item0]) = Some s ->
  (exists i, 0 <= i <= Z.max 0 N
             /\ consumed_by 0 s ++ queue_ (queue s) = upto i)
  /\ match prod s with
     | PLoop i => INT_MIN <= i <= INT_MAX
     | PDone => True
     end
  /\ (terminated s = true -> consumed_by 0 s = upto N)
  /\ (forall item front rest fin,
        pop item (mk (front :: rest) fin)
        = Returned (mk rest fin) (front, true))
  /\ ((forall th, step N th s = None) -> terminated s = true)
  /\ (length sched <= 2 * (Z.to_nat N + 1) + 1)%nat.
Proof.
  intros HN Hrun.
  pose proof (run_inv _ _ _ _ Hrun (init_inv N [item0])) as Hinv.
  pose proof (run_steps_left _ _ _ _ Hrun) as Hbound.
  assert (Hstuck : (forall th, step N th s = None) -> terminated s = true).
  { intros Hnone. destruct (terminated s) eqn:Ht; [reflexivity|].
    destruct (progress N s Hinv Ht) as (th & s' & Hstep).
    rewrite Hnone in Hstep. discriminate. }
  destruct Hinv as [Hp [Hd Hev]].
  pose proof (run_length_cons _ _ _ _ Hrun) as Hlen. cbn in Hlen.
  rewrite Hlen in Hev.
  rewrite (consumed_by_single s Hev).
  unfold producer_inv, INT_MIN, INT_MAX in *.
  split; [|split; [|split; [|split; [|split]]]].
  - destruct (prod s) as [i|].
    + destruct Hp as (H1 & H2 & _ & H4). exists (i - 1). split; [lia|auto].
    + destruct Hp as [_ H4]. destruct (Z.le_gt_cases 0 N).
      * exists N. split; [lia|auto].
      * exists 0. split; [lia|]. rewrite H4. apply upto_nonpos; lia.
  - destruct (prod s) as [i|]; [|exact I].
    destruct Hp as (H1 & H2 & _). lia.
  - unfold terminated. intros Ht. apply andb_true_iff in Ht as [Ht1 Ht2].
    destruct (forallb_single_done _ Hlen Ht2) as (c & Hc & Hdone).
    destruct (Hd 0%nat c Hc Hdone) as [_ Hq].
    destruct (prod s) as [i|]; [discriminate|].
    destruct Hp as [_ H4]. rewrite Hq, app_nil_r in H4. exact H4.
  - reflexivity.
  - exact Hstuck.
  - unfold steps_left in Hbound. cbn in Hbound.
    replace (N + 1 - 1) with N in Hbound by lia. lia.
Qed.

Lemma fifo_single_producer_single_consumer_witness :
  exists s,
    run 3 [Producer; Consumer 0; Producer; Producer; Consumer 0; Producer;
           Consumer 0; Consumer 0] (init_sys [0]) = Some s
    /\ terminated s = true
    /\ consumed_by 0 s = [1; 2; 3].
Proof.
  eexists. split; [reflexivity|]. split; [reflexivity|].
  refine (proj1 (proj2 (proj2
    (fifo_single_producer_single_consumer 3 0
       [Producer; Consumer 0; Producer; Producer; Consumer 0; Producer;
        Consumer 0; Consumer 0] _ _ eq_refl))) eq_refl).
  unfold INT_MIN, INT_MAX; lia.
Defined.

(** The same order holds with any number of consumers contending for the
    queue: the pops, in the order they happen, deliver [1; 2; ...; N]. *)
Lemma fifo_any_number_of_consumers
    (N : Z) (items : list Z) (sched : list thread) (s : sys) :
  items <> [] ->
  run N sched (init_sys items) = Some s ->
  terminated s = true ->
  map snd (consumed s) = upto N.
Proof.
  intros Hne Hrun Ht.
  pose proof (run_inv _ _ _ _ Hrun (init_inv N items)) as [Hp [Hd _]].
  pose proof (run_length_cons _ _ _ _ Hrun) as Hlen. cbn in Hlen.
  rewrite length_map in Hlen.
  unfold terminated in Ht. apply andb_true_iff in Ht as [Ht1 Ht2].
  destruct (cons s) as [|c cs] eqn:Hcs.
  - destruct items; [congruence|discriminate].
  - cbn in Ht2. apply andb_true_iff in Ht2 as [Hc _].
    destruct (Hd O c) as [_ Hq]; [reflexivity|assumption|].
    unfold producer_inv in Hp.
    destruct (prod s) as [i|]; [discriminate|].
    destruct Hp as [_ H4]. rewrite Hq, app_nil_r in H4. exact H4.
Qed.

(** ** After finish *)

Lemma closed_producer_done (n : Z) (s : sys) :
  producer_inv n s -> finished_ (queue s) = true -> prod s = PDone.
Proof.
  unfold producer_inv. destruct (prod s) as [i|]; [|reflexivity].
  intros (_ & _ & Hf & _) Hf'. congruence.
Qed.

Lemma step_after_finish (n : Z) (th : thread) (s s' : sys) :
  inv n s -> finished_ (queue s) = true -> step n th s = Some s' ->
  finished_ (queue s') = true
  /\ exists dropped, queue_ (queue s) = dropped ++ queue_ (queue s').
Proof.
  intros [Hp _] Hf H. apply step_transition in H.
  pose proof (closed_producer_done n s Hp Hf) as Hd.
  destruct H as [s i Hpl Hi|s i Hpl Hi|s k item count x rest Hk Hq
                |s k item count Hk Hq Hf']; cbn; try congruence.
  - split; [assumption|]. exists [x]. rewrite Hq. reflexivity.
  - split; [assumption|]. exists []. reflexivity.
Qed.

Lemma run_after_finish (n : Z) (sched : list thread) :
  forall s s',
    inv n s -> finished_ (queue s) = true -> run n sched s = Some s' ->
    finished_ (queue s') = true
    /\ exists dropped, queue_ (queue s) = dropped ++ queue_ (queue s').
Proof.
  induction sched as [|th sched IH]; intros s s' Hinv Hf H; cbn in H.
  - inversion H; subst. split; [assumption|]. exists []. reflexivity.
  - destruct (step n th s) as [s1|] eqn:E; [|discriminate].
    destruct (step_after_finish _ _ _ _ Hinv Hf E) as [Hf1 [d1 Hd1]].
    destruct (IH s1 s' (step_inv _ _ _ _ E Hinv) Hf1 H) as [Hf2 [d2 Hd2]].
    split; [assumption|]. exists (d1 ++ d2).
    rewrite Hd1, Hd2, app_assoc. reflexivity.
Qed.

(** C5, as stated, fails on the queue: it does not look at [finished_] when
    pushing, so a push on a closed queue makes the items one longer. *)
Lemma push_after_finish_appends :
  ~ (forall (q q' : t) (c : QueueHistory.call) (r : QueueHistory.response),
        finished_ q = true ->
        QueueHistory.exec c q = Returned q' r ->
        exists dropped, queue_ q = dropped ++ queue_ q').
Proof.
  intros H.
  destruct (H (mk [] true) (mk [7] true) (QueueHistory.Push 7)
              QueueHistory.RVoid eq_refl eq_refl) as [dropped Hd].
  cbn in Hd. destruct dropped; discriminate.
Qed.

(** C5, amended.  On a closed queue [pop], [finish] and [size] append
    nothing: the flag stays set and the items after the call are a suffix of
    the items before it.  The demo's producer makes no call after its
    [finish], so in every run of the program the items only shrink once the
    flag is set.  The queue does not police this: [push] on a closed queue
    is not refused and appends its item. *)
Theorem closed_queue_only_shrinks_by_contract :
  (forall (q q' : t) (c : QueueHistory.call) (r : QueueHistory.response),
      finished_ q = true ->
      (forall item, c <> QueueHistory.Push item) ->
      QueueHistory.exec c q = Returned q' r ->
      finished_ q' = true
      /\ exists dropped, queue_ q = dropped ++ queue_ q')
  /\ (forall (n : Z) (items : list Z) (sched sched' : list thread)
             (s s' : sys),
        run n sched (init_sys items) = Some s ->
        finished_ (queue s) = true ->
        run n sched' s = Some s' ->
        finished_ (queue s') = true
        /\ exists dropped, queue_ (queue s) = dropped ++ queue_ (queue s'))
  /\ (forall (q : t) (item : Z),
        push item (mk (queue_ q) true)
        = Returned (mk (queue_ q ++ [item]) true) tt).
Proof.
  split; [|split].
  - intros q q' c r Hf Hc H. apply exec_cases in H.
    destruct c as [item|item| |].
    + exfalso; apply (Hc item); reflexivity.
    + destruct H as [(x & rest & Hq & -> & _)|(_ & _ & -> & _)]; cbn.
      * split; [assumption|]. exists [x]. rewrite Hq. reflexivity.
      * split; [assumption|]. exists []. reflexivity.
    + destruct H as [-> _]; cbn. split; [reflexivity|].
      exists []. reflexivity.
    + destruct H as [-> _]. split; [assumption|]. exists []. reflexivity.
  - intros n items sched sched' s s' Hrun Hf Hrun'.
    eapply run_after_finish; eauto.
    eapply run_inv; eauto using init_inv.
  - reflexivity.
Qed.

Lemma closed_queue_only_shrinks_by_contract_witness :
  (QueueHistory.exec (QueueHistory.Pop 0) (mk [5; 6] true)
   = Returned (mk [6] true) (QueueHistory.RPop 5 true)
   /\ exists dropped, [5; 6] = dropped ++ [6])
  /\ (run 2 [Producer; Producer; Producer] (init_sys [0])
      = Some (mkSys (mk [1; 2] true) PDone [CLoop 0 0] [])
      /\ run 2 [Consumer 0] (mkSys (mk [1; 2] true) PDone [CLoop 0 0] [])
         = Some (mkSys (mk [2] true) PDone [CLoop 1 1] [(0%nat, 1)])
      /\ exists dropped, [1; 2] = dropped ++ [2]).
Proof.
  split.
  - split; [reflexivity|].
    refine (proj2 (proj1 closed_queue_only_shrinks_by_contract
                     (mk [5; 6] true) (mk [6] true) (QueueHistory.Pop 0)
                     (QueueHistory.RPop 5 true) eq_refl _ eq_refl)).
    intros item; discriminate.
  - split; [reflexivity|]. split; [reflexivity|].
    exact (proj2 (proj1 (proj2 closed_queue_only_shrinks_by_contract)
                    2 [0] [Producer; Producer; Producer] [Consumer 0]
                    (mkSys (mk [1; 2] true) PDone [CLoop 0 0] [])
                    (mkSys (mk [2] true) PDone [CLoop 1 1] [(0%nat, 1)])
                    eq_refl eq_refl eq_refl)).
Defined.

End DemoFacts.


(* ================================================================= *)
(** ** efficient_version: the buffer stays within BUFFER_SIZE *)

Module EfficientFacts.
Import Efficient.

Lemma produce_blocked (i : Z) (m : shared) :
  BUFFER_SIZE <= size m -> produce i m = Blocked.
Proof.
  intros H. unfold produce, bind, wait.
  destruct (Z.ltb_spec (size m) BUFFER_SIZE); [lia|reflexivity].
Qed.

Lemma produce_appends (i : Z) (m : shared) :
  size m < BUFFER_SIZE ->
  produce i m = Returned (mkShared (buffer m ++ [i]) (producer_done m)) tt.
Proof.
  intros H. unfold produce, bind, wait.
  destruct (Z.ltb_spec (size m) BUFFER_SIZE); [reflexivity|lia].
Qed.

Lemma size_snoc (l : list Z) (i : Z) (d : bool) :
  size (mkShared (l ++ [i]) d) = size (mkShared l d) + 1.
Proof. unfold size; cbn. rewrite length_app; cbn. lia. Qed.

Lemma consumer_makes_room (n : Z) (m : shared) :
  0 < size m ->
  exists item rest,
    buffer m = item :: rest
    /\ consumer_step n m
       = Returned (mkShared rest (producer_done m))
           (CLoop (n + 1), Some item)
    /\ size (mkShared rest (producer_done m)) = size m - 1.
Proof.
  destruct m as [[|item rest] d]; unfold size; cbn [buffer length];
    [lia|].
  intros _. exists item, rest.
  split; [reflexivity|]. split; [reflexivity|]. lia.
Qed.

Lemma step_size (th : thread) (s s' : sys) :
  step th s = Some s' ->
  0 <= size (mem s) <= BUFFER_SIZE ->
  0 <= size (mem s') <= BUFFER_SIZE.
Proof.
  destruct th; cbn.
  - destruct (prod s) as [i|]; [|discriminate].
    unfold producer_step. destruct (i <=? NUM_ITEMS).
    + unfold bind at 1.
      destruct (Z.lt_ge_cases (size (mem s)) BUFFER_SIZE) as [Hlt|Hge].
      * rewrite (produce_appends i _ Hlt). cbn.
        intros H; inversion H; subst; cbn. rewrite size_snoc.
        unfold size in *; cbn. lia.
      * rewrite (produce_blocked i _ Hge). discriminate.
    + cbn. intros H; inversion H; subst; cbn. unfold size; cbn. auto.
  - destruct (cons s) as [n|n]; [|discriminate].
    destruct s as [[[|item rest] d] p c ev]; cbn.
    + destruct d; cbn; intros H; inversion H; subst; cbn; auto.
    + intros H; inversion H; subst; unfold size; cbn. lia.
Qed.

Lemma run_size (sched : list thread) :
  forall s s',
    run sched s = Some s' ->
    0 <= size (mem s) <= BUFFER_SIZE ->
    0 <= size (mem s') <= BUFFER_SIZE.
Proof.
  induction sched as [|th sched IH]; intros s s' H Hs; cbn in H.
  - inversion H; subst; assumption.
  - destruct (step th s) as [s1|] eqn:E; [|discriminate].
    eapply IH; eauto using step_size.
Qed.

(** C4.  In every state that the producer and the consumer of
    [efficient_version] reach, under any schedule, the buffer holds between
    0 and [BUFFER_SIZE] items.  A producer that finds [BUFFER_SIZE] items is
    suspended and appends nothing; below capacity it appends; and a consumer
    that takes an item from the full buffer leaves room for one. *)
Theorem buffer_within_capacity (s : sys) :
  reachable s ->
  0 <= size (mem s) <= BUFFER_SIZE
  /\ (forall i m, size m = BUFFER_SIZE -> produce i m = Blocked)
  /\ (forall i m, size m < BUFFER_SIZE ->
                  produce i m
                  = Returned (mkShared (buffer m ++ [i]) (producer_done m))
                      tt)
  /\ (forall n m, size m = BUFFER_SIZE ->
                  exists m' r,
                    consumer_step n m = Returned m' r
                    /\ size m' = BUFFER_SIZE - 1).
Proof.
  intros [sched Hrun]. split; [|split; [|split]].
  - eapply run_size; eauto. unfold size, BUFFER_SIZE; cbn. lia.
  - intros i m Hm. apply produce_blocked. lia.
  - intros i m Hm. apply produce_appends. exact Hm.
  - intros n m Hm.
    destruct (consumer_makes_room n m) as (item & rest & _ & Hc & Hs).
    + unfold BUFFER_SIZE in *. lia.
    + eexists _, _. split; [exact Hc|]. lia.
Qed.

Lemma buffer_within_capacity_witness :
  reachable
    (mkSys (mkShared [1; 2; 3; 4; 5; 6; 7; 8; 9; 10] false) (PLoop 11)
       (CLoop 0) [])
  /\ step Producer
       (mkSys (mkShared [1; 2; 3; 4; 5; 6; 7; 8; 9; 10] false) (PLoop 11)
          (CLoop 0) []) = None
  /\ 0 <= 10 <= BUFFER_SIZE.
Proof.
  assert (R : reachable
                (mkSys (mkShared [1; 2; 3; 4; 5; 6; 7; 8; 9; 10] false)
                   (PLoop 11) (CLoop 0) [])).
  { exists (repeat Producer 10). reflexivity. }
  split; [exact R|]. split; [reflexivity|].
  exact (proj1 (buffer_within_capacity _ R)).
Defined.

End EfficientFacts.

(* ================================================================= *)
(** ** Stack<T, MaxSize>: overflow and underflow *)

Module StackFacts.
Import Stack.

Section WithT.
Variable T : Type.
Variable MaxSize : Z.
Hypothesis MaxSize_range : 0 < MaxSize < 2 ^ 64.

Lemma length_store (k : nat) (x : T) (l : list T) :
  length (store T k x l) = length l.
Proof.
  revert k; induction l as [|y l IH]; intros [|k]; cbn; auto.
Qed.

Lemma firstn_store_snoc (k : nat) (x : T) (l : list T) :
  (k < length l)%nat ->
  firstn (S k) (store T k x l) = firstn k l ++ [x].
Proof.
  revert k; induction l as [|y l IH]; intros [|k] Hk; cbn in *; try lia.
  - reflexivity.
  - f_equal. apply IH. lia.
Qed.

Lemma firstn_succ_nth_error (k : nat) (x : T) (l : list T) :
  nth_error l k = Some x -> firstn (S k) l = firstn k l ++ [x].
Proof.
  revert k; induction l as [|y l IH]; intros [|k] Hk; cbn in *;
    try discriminate.
  - inversion Hk; subst. reflexivity.
  - f_equal. apply IH. exact Hk.
Qed.

Lemma size_t_small (z : Z) : 0 <= z < 2 ^ 64 -> size_t z = z.
Proof. intros H. unfold size_t. apply Z.mod_small. exact H. Qed.

Lemma new_wf (arr : list T) :
  Z.of_nat (length arr) = MaxSize ->
  wf MaxSize (new arr) /\ contents (new arr) = [].
Proof.
  intros H. unfold wf, contents; cbn. repeat split; try lia; auto.
Qed.

Lemma push_full (value : T) (s : t T) :
  wf MaxSize s -> size s = MaxSize ->
  push MaxSize value s = Throw (overflow_error "Stack overflow").
Proof.
  unfold wf, size, push. intros _ ->.
  destruct (Z.geb_spec MaxSize MaxSize); [reflexivity|lia].
Qed.

Lemma push_room (value : T) (s : t T) :
  wf MaxSize s -> size s <> MaxSize ->
  exists s',
    push MaxSize value s = Value s'
    /\ wf MaxSize s' /\ size s' = size s + 1
    /\ contents s' = contents s ++ [value].
Proof.
  unfold wf, size, push, contents. intros [Hlen Htop] Hne.
  destruct (Z.geb_spec (top_index s) MaxSize); [lia|].
  destruct (Z.leb_spec 0 (top_index s)); [|lia].
  destruct (Z.ltb_spec (top_index s) (Z.of_nat (length (data s)))); [|lia].
  cbn [andb]. eexists. split; [reflexivity|]. cbn [data top_index].
  rewrite size_t_small by lia. rewrite length_store.
  split; [lia|]. split; [reflexivity|].
  replace (Z.to_nat (top_index s + 1)) with (S (Z.to_nat (top_index s)))
    by lia.
  apply firstn_store_snoc. lia.
Qed.

Lemma pop_empty (s : t T) :
  size s = 0 -> pop s = Throw (underflow_error "Stack underflow").
Proof. unfold size, pop, empty. intros ->. reflexivity. Qed.

Lemma pop_nonempty (s : t T) :
  wf MaxSize s -> size s <> 0 ->
  exists x s',
    pop s = Value (x, s')
    /\ wf MaxSize s' /\ size s' = size s - 1
    /\ contents s = contents s' ++ [x].
Proof.
  unfold wf, size, pop, empty, contents. intros [Hlen Htop] Hne.
  destruct (Z.eqb_spec (top_index s) 0); [lia|].
  rewrite size_t_small by lia.
  destruct (nth_error (data s) (Z.to_nat (top_index s - 1))) as [x|] eqn:E.
  - exists x. eexists. split; [reflexivity|]. cbn [data top_index].
    split; [lia|]. split; [reflexivity|].
    replace (Z.to_nat (top_index s)) with (S (Z.to_nat (top_index s - 1)))
      by lia.
    apply firstn_succ_nth_error. exact E.
  - apply nth_error_None in E. lia.
Qed.

End WithT.

(** C7.  For a stack whose array has [MaxSize] cells and whose
    [top_index] is within it: [push] throws [overflow_error] exactly when
    the stack holds [MaxSize] elements, and otherwise returns with the value
    on top of the former contents; [pop] throws [underflow_error] exactly
    when the stack is empty, and otherwise returns the top element, the one
    pushed last, leaving the elements below it; a push followed by a pop
    gives the pushed value back. *)
Theorem stack_overflow_underflow_exceptions
    (T : Type) (MaxSize : Z) (s : t T) (value : T) :
  0 < MaxSize < 2 ^ 64 ->
  wf MaxSize s ->
  (push MaxSize value s = Throw (overflow_error "Stack overflow")
   <-> size s = MaxSize)
  /\ (size s <> MaxSize ->
      exists s', push MaxSize value s = Value s'
                 /\ wf MaxSize s'
                 /\ contents s' = contents s ++ [value]
                 /\ exists s'', pop s' = Value (value, s'')
                                /\ contents s'' = contents s)
  /\ (pop s = Throw (underflow_error "Stack underflow") <-> size s = 0)
  /\ (size s <> 0 ->
      exists x s', pop s = Value (x, s')
                   /\ wf MaxSize s'
                   /\ contents s = contents s' ++ [x]).
Proof.
  intros HM Hwf. split; [|split; [|split]].
  - split.
    + intros Hthrow. destruct (Z.eq_dec (size s) MaxSize) as [|Hne]; [auto|].
      destruct (push_room T MaxSize HM value s Hwf Hne) as (s' & E & _).
      congruence.
    + apply push_full; assumption.
  - intros Hne.
    destruct (push_room T MaxSize HM value s Hwf Hne)
      as (s' & E & Hwf' & Hsz & Hc).
    exists s'. repeat (split; [assumption|]).
    destruct (pop_nonempty T MaxSize HM s' Hwf') as (x & s'' & E' & _ & _ & Hc').
    + destruct Hwf as [_ ?]. unfold size in *. lia.
    + rewrite Hc in Hc'. apply app_inj_tail in Hc' as [Hc1 Hc2].
      subst x. exists s''. split; [assumption|auto].
  - split.
    + intros Hthrow. destruct (Z.eq_dec (size s) 0) as [|Hne]; [auto|].
      destruct (pop_nonempty T MaxSize HM s Hwf Hne) as (x & s' & E & _).
      congruence.
    + apply pop_empty.
  - intros Hne.
    destruct (pop_nonempty T MaxSize HM s Hwf Hne)
      as (x & s' & E & Hwf' & _ & Hc).
    exists x, s'. auto.
Qed.

Lemma stack_overflow_underflow_exceptions_witness :
  wf 3 (mk [10; 20; 30] 3)
  /\ push 3 40 (mk [10; 20; 30] 3) = Throw (overflow_error "Stack overflow")
  /\ pop (mk [10; 20; 30] 3) = Value (30, mk [10; 20; 30] 2)
  /\ pop (new [10; 20; 30]) = Throw (underflow_error "Stack underflow").
Proof.
  assert (W : wf 3 (mk [10; 20; 30] 3)) by (unfold wf; cbn; lia).
  split; [exact W|]. split; [|split; reflexivity].
  apply (stack_overflow_underflow_exceptions Z 3 (mk [10; 20; 30] 3) 40);
    [lia|exact W|reflexivity].
Defined.

End StackFacts.

(* ================================================================= *)
(** ** The demo program with several consumers *)

Module DemoMore.
Import Demo DemoFacts DemoAccounting.

Lemma upto_sorted (n : Z) : StronglySorted Z.lt (upto n).
Proof.
  unfold upto. generalize (Z.to_nat n) as m. generalize 1%nat as a.
  intros a m; revert a; induction m as [|m IH]; intros a; cbn.
  - constructor.
  - constructor; [apply IH|].
    apply Forall_forall. intros z Hz. apply in_map_iff in Hz.
    destruct Hz as (k & <- & Hk). apply in_seq in Hk. lia.
Qed.

Lemma sorted_app_l (l1 l2 : list Z) :
  StronglySorted Z.lt (l1 ++ l2) -> StronglySorted Z.lt l1.
Proof.
  induction l1 as [|x l1 IH]; cbn; intros H; [constructor|].
  apply StronglySorted_inv in H as [H1 H2].
  constructor; [auto|].
  apply Forall_app in H2. tauto.
Qed.

Lemma sorted_filter_snd (p : nat * Z -> bool) (l : list (nat * Z)) :
  StronglySorted Z.lt (map snd l) ->
  StronglySorted Z.lt (map snd (filter p l)).
Proof.
  induction l as [|e l IH]; cbn; intros H; [constructor|].
  apply StronglySorted_inv in H as [H1 H2].
  destruct (p e); cbn; [|auto].
  constructor; [auto|].
  rewrite Forall_forall in *. intros z Hz. apply H2.
  apply in_map_iff in Hz. destruct Hz as (e' & <- & He').
  apply filter_In in He'. apply in_map. tauto.
Qed.

Lemma pushed_so_far (n : Z) (s : sys) :
  producer_inv n s ->
  exists i, 0 <= i <= Z.max 0 n
            /\ map snd (consumed s) ++ queue_ (queue s) = upto i.
Proof.
  unfold producer_inv. destruct (prod s) as [i|].
  - intros (H1 & H2 & _ & H4). exists (i - 1). split; [lia|auto].
  - intros [_ H4]. destruct (Z.le_gt_cases 0 n).
    + exists n. split; [lia|auto].
    + exists 0. split; [lia|]. rewrite H4. apply upto_nonpos; lia.
Qed.

Lemma counter_in_range (n : Z) (s : sys) :
  INT_MIN <= n < INT_MAX -> producer_inv n s ->
  match prod s with
  | PLoop i => INT_MIN <= i <= INT_MAX
  | PDone => True
  end.
Proof.
  unfold producer_inv, INT_MIN, INT_MAX. intros Hn.
  destruct (prod s) as [i|]; [|auto].
  intros (H1 & H2 & _). lia.
Qed.

Lemma terminated_queue_empty
    (N : Z) (items : list Z) (sched : list thread) (s : sys) :
  items <> [] ->
  run N sched (init_sys items) = Some s ->
  terminated s = true ->
  queue_ (queue s) = [].
Proof.
  intros Hne Hrun Ht.
  pose proof (run_inv _ _ _ _ Hrun (init_inv N items)) as [_ [Hd _]].
  pose proof (run_length_cons _ _ _ _ Hrun) as Hlen. cbn in Hlen.
  rewrite length_map in Hlen.
  unfold terminated in Ht. apply andb_true_iff in Ht as [_ Ht2].
  destruct (cons s) as [|c cs] eqn:Hcs.
  - destruct items; [congruence|discriminate].
  - cbn in Ht2. apply andb_true_iff in Ht2 as [Hc _].
    destruct (Hd O c) as [_ Hq]; [reflexivity|assumption|exact Hq].
Qed.

(** X1.  With one producer of [1..N], [N] an [int] below [INT_MAX] so that
    the loop counter never overflows, and any number of consumers, under
    every schedule: the pops happen in push order, so each consumer receives
    a strictly increasing sequence of items between 1 and [N]; the counter
    [i] stays an [int]; and once all threads have returned (with at least
    one consumer) the pops, in the order they happened, delivered
    [1; 2; ...; N] and nothing is left in the queue. *)
Theorem contending_consumers_receive_in_order
    (N : Z) (items : list Z) (sched : list thread) (s : sys) :
  INT_MIN <= N < INT_MAX ->
  run N sched (init_sys items) = Some s ->
  (forall k, StronglySorted Z.lt (consumed_by k s)
             /\ forall v, In v (consumed_by k s) -> 1 <= v <= N)
  /\ match prod s with
     | PLoop i => INT_MIN <= i <= INT_MAX
     | PDone => True
     end
  /\ (items <> [] -> terminated s = true ->
      map snd (consumed s) = upto N /\ queue_ (queue s) = []).
Proof.
  intros HN Hrun.
  pose proof (run_inv _ _ _ _ Hrun (init_inv N items)) as Hinv.
  destruct (pushed_so_far N s (proj1 Hinv)) as (i & Hi & Hpre).
  split; [|split].
  - intros k. unfold consumed_by. split.
    + apply sorted_filter_snd. apply sorted_app_l with (queue_ (queue s)).
      rewrite Hpre. apply upto_sorted.
    + intros v Hv. apply in_map_iff in Hv as (e & <- & He).
      apply filter_In in He as [He _].
      assert (Hin : In (snd e) (upto i)).
      { rewrite <- Hpre. apply in_or_app. left. apply in_map. exact He. }
      unfold upto in Hin. apply in_map_iff in Hin as (m & <- & Hm).
      apply in_seq in Hm. lia.
  - apply (counter_in_range N); [exact HN|exact (proj1 Hinv)].
  - intros Hne Ht. split.
    + eapply fifo_any_number_of_consumers; eauto.
    + eapply terminated_queue_empty; eauto.
Qed.

Lemma contending_consumers_receive_in_order_witness :
  run 3 [Producer; Producer; Consumer 1; Consumer 0; Producer; Consumer 1;
         Producer; Consumer 0; Consumer 1] (init_sys [0; 0])
  = Some (mkSys (mk [] true) PDone [CDone 2 1; CDone 3 2]
            [(1%nat, 1); (0%nat, 2); (1%nat, 3)])
  /\ map snd [(1%nat, 1); (0%nat, 2); (1%nat, 3)] = upto 3.
Proof.
  assert (R : run 3 [Producer; Producer; Consumer 1; Consumer 0; Producer;
                     Consumer 1; Producer; Consumer 0; Consumer 1]
                (init_sys [0; 0])
              = Some (mkSys (mk [] true) PDone [CDone 2 1; CDone 3 2]
                        [(1%nat, 1); (0%nat, 2); (1%nat, 3)]))
    by (vm_compute; reflexivity).
  split; [exact R|].
  refine (proj1 (proj2 (proj2 (contending_consumers_receive_in_order
                                 3 [0; 0] _ _ _ R)) _ eq_refl)).
  - unfold INT_MIN, INT_MAX; lia.
  - discriminate.
Defined.


(** *** The consumers' counters *)

Lemma sum_counts_set_nth (k : nat) (c c' : consumer_state)
    (l : list consumer_state) :
  nth_error l k = Some c ->
  fold_right Z.add 0 (map count_of (set_nth k c' l))
  = fold_right Z.add 0 (map count_of l) - count_of c + count_of c'.
Proof.
  revert k; induction l as [|d l IH]; intros [|k]; cbn; try discriminate.
  - intros H; inversion H; subst. lia.
  - intros H. rewrite (IH k H). lia.
Qed.

Lemma init_counts (items : list Z) : counts_inv (init_sys items).
Proof.
  split.
  - cbn. intros k c Hk. apply nth_error_In, in_map_iff in Hk.
    destruct Hk as (item & <- & _). reflexivity.
  - unfold total_count. cbn. induction items as [|x l IH]; cbn; auto.
Qed.

Lemma transition_counts (n : Z) (th : thread) (s s' : sys) :
  transition n s th s' -> counts_inv s -> counts_inv s'.
Proof.
  unfold counts_inv, total_count, consumed_by.
  intros H; destruct H as [s i Hp Hi|s i Hp Hi|s k item count x rest Hk Hq
                          |s k item count Hk Hq Hf]; cbn; auto.
  - intros [Hc Ht]. split.
    + intros k' c Hk'. rewrite filter_app, map_app, length_app. cbn.
      destruct (Nat.eq_dec k k') as [<-|Hne].
      * rewrite (nth_error_set_nth_same _ _ _ _ Hk) in Hk'.
        inversion Hk'; subst. cbn. rewrite Nat.eqb_refl. cbn.
        specialize (Hc k _ Hk). cbn in Hc. lia.
      * rewrite nth_error_set_nth_other in Hk' by assumption.
        destruct (Nat.eqb_spec k k'); [contradiction|]. cbn.
        rewrite Nat.add_0_r. auto.
    + rewrite (sum_counts_set_nth _ _ _ _ Hk), length_app. cbn. lia.
  - intros [Hc Ht]. split.
    + intros k' c Hk'. destruct (Nat.eq_dec k k') as [<-|Hne].
      * rewrite (nth_error_set_nth_same _ _ _ _ Hk) in Hk'.
        inversion Hk'; subst. cbn. apply (Hc k _ Hk).
      * rewrite nth_error_set_nth_other in Hk' by assumption. auto.
    + rewrite (sum_counts_set_nth _ _ _ _ Hk). cbn. lia.
Qed.

Lemma run_counts (n : Z) (sched : list thread) :
  forall s s', run n sched s = Some s' -> counts_inv s -> counts_inv s'.
Proof.
  induction sched as [|th sched IH]; intros s s' H Hinv; cbn in H.
  - inversion H; subst; assumption.
  - destruct (step n th s) as [s1|] eqn:E; [|discriminate].
    eapply IH; eauto.
    eapply transition_counts; eauto using step_transition.
Qed.

(** X3.  With [N] an [int] below [INT_MAX], under every schedule and with
    any number of consumers, the [count] of each consumer is the number of
    items it has received, it lies between 0 and [max 0 N] and so stays an
    [int], and the counts of all consumers add up to the number of pops so
    far; when all threads have returned the "Total consumed" figures add up
    to the number of items produced, [max 0 N]. *)
Theorem consumer_counts_add_up
    (N : Z) (items : list Z) (sched : list thread) (s : sys) :
  INT_MIN <= N < INT_MAX ->
  run N sched (init_sys items) = Some s ->
  (forall k c, nth_error (cons s) k = Some c ->
               count_of c = Z.of_nat (length (consumed_by k s))
               /\ 0 <= count_of c <= Z.max 0 N
               /\ count_of c <= INT_MAX)
  /\ total_count s = Z.of_nat (length (consumed s))
  /\ (items <> [] -> terminated s = true -> total_count s = Z.max 0 N).
Proof.
  intros HN Hrun.
  destruct (run_counts _ _ _ _ Hrun (init_counts items)) as [Hc Ht].
  pose proof (run_inv _ _ _ _ Hrun (init_inv N items)) as Hinv.
  destruct (pushed_so_far N s (proj1 Hinv)) as (i & Hi & Hpre).
  split; [|split; [exact Ht|]].
  - intros k c Hk. rewrite (Hc k c Hk).
    assert (Hle : (length (consumed_by k s) <= Z.to_nat i)%nat).
    { unfold consumed_by. rewrite length_map.
      etransitivity; [apply filter_length_le|].
      apply (f_equal (@length Z)) in Hpre.
      unfold upto in Hpre.
      rewrite length_app, !length_map, length_seq in Hpre. lia. }
    unfold INT_MIN, INT_MAX in *. split; [reflexivity|]. lia.
  - intros Hne Hterm. rewrite Ht.
    rewrite <- (length_map snd (consumed s)).
    rewrite (fifo_any_number_of_consumers _ _ _ _ Hne Hrun Hterm).
    unfold upto. rewrite length_map, length_seq. lia.
Qed.

Lemma consumer_counts_add_up_witness :
  run 3 [Producer; Producer; Consumer 1; Consumer 0; Producer; Consumer 1;
         Producer; Consumer 0; Consumer 1] (init_sys [0; 0])
  = Some (mkSys (mk [] true) PDone [CDone 2 1; CDone 3 2]
            [(1%nat, 1); (0%nat, 2); (1%nat, 3)])
  /\ total_count (mkSys (mk [] true) PDone [CDone 2 1; CDone 3 2]
                    [(1%nat, 1); (0%nat, 2); (1%nat, 3)]) = Z.max 0 3.
Proof.
  assert (R : run 3 [Producer; Producer; Consumer 1; Consumer 0; Producer;
                     Consumer 1; Producer; Consumer 0; Consumer 1]
                (init_sys [0; 0])
              = Some (mkSys (mk [] true) PDone [CDone 2 1; CDone 3 2]
                        [(1%nat, 1); (0%nat, 2); (1%nat, 3)]))
    by (vm_compute; reflexivity).
  split; [exact R|].
  refine (proj2 (proj2 (consumer_counts_add_up 3 [0; 0] _ _ _ R)) _ eq_refl).
  - unfold INT_MIN, INT_MAX; lia.
  - discriminate.
Defined.


End DemoMore.

(* ================================================================= *)
(** ** More on ThreadSafeQueue's calls *)

Module QueueMore.
Import QueueHistory.

(** X4.  [size()] reports the pushes minus the successful pops: after any
    sequence of calls on a fresh queue that all got through, the value it
    returns is the number of items pushed less the number popped, and it
    never goes below zero. *)
Theorem size_counts_pushes_minus_pops
    (cs : list call) (q' : t) (rs : list response) :
  history cs init = Returned q' rs ->
  size q'
  = Returned q'
      (Z.of_nat (length (pushed cs)) - Z.of_nat (length (popped rs)))
  /\ (length (popped rs) <= length (pushed cs))%nat.
Proof.
  intros H. apply history_conservation in H. cbn in H.
  unfold size, bind, get, ret. rewrite H, length_app.
  split; [f_equal|]; lia.
Qed.

Lemma size_counts_pushes_minus_pops_witness :
  size (mk [9; 4] false) = Returned (mk [9; 4] false) (3 - 1).
Proof.
  exact (proj1 (size_counts_pushes_minus_pops
                  [Push 4; Push 9; Pop 0; Size; Push 4]
                  (mk [9; 4] false)
                  [RVoid; RVoid; RPop 4 true; RSize 1; RVoid] eq_refl)).
Defined.

(** X5.  What a call of [pop] does, by the state it finds.  It suspends
    exactly on an open, empty queue.  It returns [false] exactly on a closed,
    empty queue, changing neither the queue nor the caller's [item].  It
    returns [true] exactly when there is an item, which it takes from the
    front and stores in [item]. *)
Theorem pop_three_ways (item : Z) (q : t) :
  (pop item q = Blocked <-> queue_ q = [] /\ finished_ q = false)
  /\ (forall q' item',
         pop item q = Returned q' (item', false)
         <-> queue_ q = [] /\ finished_ q = true /\ q' = q /\ item' = item)
  /\ (forall q' front,
         pop item q = Returned q' (front, true)
         <-> exists rest, queue_ q = front :: rest
                          /\ q' = mk rest (finished_ q)).
Proof.
  split; [|split].
  - destruct q as [[|x rest] [|]]; cbn; split;
      try discriminate; try (intros [? ?]; discriminate); auto.
  - intros q' item'. destruct q as [[|x rest] [|]]; cbn; split;
      try discriminate;
      try (intros (? & ? & ? & ?); discriminate).
    + intros H; inversion H; subst; auto.
    + intros (_ & _ & -> & ->); reflexivity.
  - intros q' front. destruct q as [[|x rest] fin]; cbn; split.
    + destruct fin; discriminate.
    + intros (rest' & ? & _); discriminate.
    + destruct fin; intros H; inversion H; subst; eauto.
    + intros (rest' & H1 & ->). inversion H1; subst.
      destruct fin; reflexivity.
Qed.

Lemma history_open (cs : list call) :
  forall q q' rs,
    history cs q = Returned q' rs ->
    finished_ q = false -> ~ In Finish cs ->
    finished_ q' = false /\ forall r, In r rs -> is_end_of_stream r = false.
Proof.
  induction cs as [|c cs IH]; intros q q' rs H Hf Hnf.
  - inversion H; subst. split; [assumption|]. intros r [].
  - apply history_cons in H as (q1 & r & rs' & H1 & H2 & ->).
    apply exec_cases in H1.
    assert (Hq1 : finished_ q1 = false /\ is_end_of_stream r = false).
    { destruct c as [item|item| |].
      - destruct H1 as [-> ->]. auto.
      - destruct H1 as [(x & rest & _ & -> & ->)|(_ & Hf' & _)];
          [auto|congruence].
      - exfalso. apply Hnf. left; reflexivity.
      - destruct H1 as [-> ->]. auto. }
    destruct Hq1 as [Hf1 Hr].
    destruct (IH _ _ _ H2 Hf1) as [Hf' Hrs].
    { intros Hin. apply Hnf. right; assumption. }
    split; [assumption|]. intros r' [<-|Hin]; auto.
Qed.

(** X6.  No pop answers [false] before [finish] has been called: in any
    sequence of calls on a fresh queue that contains no [Finish] and gets
    through, every pop that returned did so with an item, and the queue is
    still open afterwards. *)
Theorem no_end_of_stream_before_finish
    (cs : list call) (q' : t) (rs : list response) :
  history cs init = Returned q' rs ->
  ~ In Finish cs ->
  finished_ q' = false
  /\ (forall item ok, In (RPop item ok) rs -> ok = true).
Proof.
  intros H Hnf.
  destruct (history_open _ _ _ _ H eq_refl Hnf) as [Hf Hrs].
  split; [assumption|].
  intros item ok Hin. specialize (Hrs _ Hin). destruct ok; [auto|discriminate].
Qed.

Lemma no_end_of_stream_before_finish_witness :
  history [Push 1; Pop 0; Push 2; Size; Pop 1] init
  = Returned (mk [] false) [RVoid; RPop 1 true; RVoid; RSize 1; RPop 2 true]
  /\ finished_ (mk [] false) = false.
Proof.
  split; [reflexivity|].
  refine (proj1 (no_end_of_stream_before_finish
                   [Push 1; Pop 0; Push 2; Size; Pop 1] (mk [] false)
                   [RVoid; RPop 1 true; RVoid; RSize 1; RPop 2 true]
                   eq_refl _)).
  intros [H|[H|[H|[H|[H|[]]]]]]; discriminate.
Defined.

End QueueMore.

(* ================================================================= *)
(** ** efficient_version: everything delivered, in order *)

Module EfficientMore.
Import Efficient EfficientInv EfficientFacts.

Lemma eff_step_transition (th : thread) (s s' : sys) :
  step th s = Some s' -> transition s th s'.
Proof.
  destruct th; cbn.
  - destruct (prod s) as [i|] eqn:Hp; [|discriminate].
    unfold producer_step. destruct (Z.leb_spec i NUM_ITEMS) as [Hle|Hgt].
    + unfold bind at 1.
      destruct (Z.lt_ge_cases (size (mem s)) BUFFER_SIZE) as [Hlt|Hge].
      * rewrite (produce_appends i _ Hlt). cbn.
        intros H; inversion H; subst. apply e_produce; assumption.
      * rewrite (produce_blocked i _ Hge). discriminate.
    + cbn. intros H; inversion H; subst. apply (e_done s i); assumption.
  - destruct (cons s) as [n|n] eqn:Hc; [|discriminate].
    destruct s as [[[|item rest] d] p c ev]; cbn in *.
    + destruct d; cbn; intros H; inversion H; subst.
      rewrite app_nil_r.
      apply (e_break (mkSys (mkShared [] true) p (CLoop n) ev) n);
        reflexivity.
    + intros H; inversion H; subst.
      apply (e_consume (mkSys (mkShared (item :: rest) d) p (CLoop n) ev) n);
        reflexivity.
Qed.

Lemma eff_transition_step (th : thread) (s s' : sys) :
  transition s th s' -> step th s = Some s'.
Proof.
  intros H; destruct H as [s i Hp Hi Hs|s i Hp Hi|s n item rest Hc Hb
                          |s n Hc Hb Hd]; cbn.
  - rewrite Hp. unfold producer_step.
    destruct (Z.leb_spec i NUM_ITEMS) as [Hle|Hgt]; [|lia].
    unfold bind at 1. rewrite (produce_appends i _ Hs). reflexivity.
  - rewrite Hp. unfold producer_step.
    destruct (Z.leb_spec i NUM_ITEMS) as [Hle|Hgt]; [lia|reflexivity].
  - rewrite Hc. destruct s as [[b d] p c ev]; cbn in *; subst b.
    reflexivity.
  - rewrite Hc. destruct s as [[b d] p c ev]; cbn in *; subst b d.
    cbn. rewrite app_nil_r. reflexivity.
Qed.

Lemma eff_init_inv : inv init_sys.
Proof.
  unfold inv, NUM_ITEMS; cbn. repeat split; auto; lia.
Qed.

Lemma eff_transition_inv (th : thread) (s s' : sys) :
  transition s th s' -> inv s -> inv s'.
Proof.
  unfold inv.
  intros H; destruct H as [s i Hp Hi Hs|s i Hp Hi|s n item rest Hc Hb
                          |s n Hc Hb Hd]; cbn.
  - rewrite Hp. intros ((H1 & H2 & H3) & H4 & H5).
    split; [|split; [assumption|]].
    + split; [unfold NUM_ITEMS in *; lia|]. split; [assumption|].
      rewrite app_assoc, H3. replace (i + 1 - 1) with i by lia.
      symmetry. apply DemoFacts.upto_snoc. lia.
    + destruct (cons s); [exact I|]. destruct H5; congruence.
  - rewrite Hp. intros ((H1 & H2 & H3) & H4 & H5).
    split; [|split; [assumption|]].
    + split; [reflexivity|]. rewrite H3.
      replace (i - 1) with NUM_ITEMS by (unfold NUM_ITEMS in *; lia).
      reflexivity.
    + destruct (cons s); [exact I|]. tauto.
  - rewrite Hc, Hb. cbn. intros (H1 & H2 & _).
    split; [|split; [|exact I]].
    + destruct (prod s); rewrite <- app_assoc; exact H1.
    + rewrite length_app. cbn. lia.
  - rewrite Hc, Hb. cbn. intros (H1 & H2 & _).
    split; [exact H1|]. split; [exact H2|]. auto.
Qed.

Lemma eff_run_inv (sched : list thread) :
  forall s s', run sched s = Some s' -> inv s -> inv s'.
Proof.
  induction sched as [|th sched IH]; intros s s' H Hinv; cbn in H.
  - inversion H; subst; assumption.
  - destruct (step th s) as [s1|] eqn:E; [|discriminate].
    eapply IH; eauto.
    eapply eff_transition_inv; eauto using eff_step_transition.
Qed.

Lemma eff_progress (s : sys) :
  inv s -> 0 <= size (mem s) <= BUFFER_SIZE -> terminated s = false ->
  exists th s', step th s = Some s'.
Proof.
  unfold inv, terminated. intros (Hp & _ & Hc) Hsz Ht.
  destruct (prod s) as [i|] eqn:Hprod.
  - destruct (Z.le_gt_cases i NUM_ITEMS) as [Hi|Hi].
    + destruct (Z.lt_ge_cases (size (mem s)) BUFFER_SIZE) as [Hlt|Hge].
      * exists Producer. eexists. apply eff_transition_step.
        apply (e_produce s i); assumption.
      * destruct (cons s) as [n|n] eqn:Hcons.
        -- destruct (buffer (mem s)) as [|item rest] eqn:Hb.
           ++ unfold size, BUFFER_SIZE in Hge. rewrite Hb in Hge.
              cbn in Hge. lia.
           ++ exists Consumer. eexists. apply eff_transition_step.
              eapply e_consume; eauto.
        -- destruct Hp as (_ & Hf & _). destruct Hc; congruence.
    + exists Producer. eexists. apply eff_transition_step.
      apply (e_done s i); assumption.
  - destruct (cons s) as [n|n] eqn:Hcons; [|discriminate].
    destruct Hp as [Hd _]. exists Consumer.
    destruct (buffer (mem s)) as [|item rest] eqn:Hb.
    + eexists. apply eff_transition_step. eapply e_break; eauto.
    + eexists. apply eff_transition_step. eapply e_consume; eauto.
Qed.

Lemma eff_step_steps_left (th : thread) (s s' : sys) :
  step th s = Some s' -> (steps_left s' < steps_left s)%nat.
Proof.
  intros H. apply eff_step_transition in H. unfold steps_left.
  destruct H as [s i Hp Hi Hs|s i Hp Hi|s n item rest Hc Hb
                |s n Hc Hb Hd]; cbn [mem prod cons buffer].
  - rewrite Hp, length_app. cbn [length].
    replace (Z.to_nat (NUM_ITEMS + 1 - i))
      with (S (Z.to_nat (NUM_ITEMS + 1 - (i + 1)))) by lia.
    lia.
  - rewrite Hp. lia.
  - rewrite Hc, Hb. cbn [length]. lia.
  - rewrite Hc. lia.
Qed.

Lemma eff_run_steps_left (sched : list thread) :
  forall s s',
    run sched s = Some s' ->
    (length sched + steps_left s' <= steps_left s)%nat.
Proof.
  induction sched as [|th sched IH]; intros s s' H; cbn in H.
  - inversion H; subst. cbn. lia.
  - destruct (step th s) as [s1|] eqn:E; [|discriminate].
    apply IH in H. apply eff_step_steps_left in E. cbn [length]. lia.
Qed.

(** X8.  [efficient_version] delivers every item once and in order: in
    every state reached, the items consumed followed by the items in the
    buffer are [1..i] for the number [i] of items produced, and
    [consumed_count] is the number of items consumed; when both threads
    have returned the consumer has consumed [1; 2; ...; 50],
    [consumed_count] is 50 and the buffer is empty. *)
Theorem efficient_delivers_all_in_order (sched : list thread) (s : sys) :
  run sched init_sys = Some s ->
  (exists i, 0 <= i <= NUM_ITEMS
             /\ consumed s ++ buffer (mem s) = Demo.upto i)
  /\ count_of (cons s) = Z.of_nat (length (consumed s))
  /\ (terminated s = true ->
      consumed s = Demo.upto NUM_ITEMS
      /\ cons s = CDone NUM_ITEMS
      /\ size (mem s) = 0).
Proof.
  intros Hrun.
  pose proof (eff_run_inv _ _ _ Hrun eff_init_inv) as (Hp & Hn & Hc).
  split; [|split; [exact Hn|]].
  - destruct (prod s) as [i|].
    + destruct Hp as (H1 & _ & H3). exists (i - 1). split; [lia|auto].
    + destruct Hp as [_ H3]. exists NUM_ITEMS.
      split; [unfold NUM_ITEMS; lia|auto].
  - unfold terminated. intros Ht.
    destruct (prod s) as [i|]; [discriminate|].
    destruct (cons s) as [n|n]; [discriminate|].
    destruct Hp as [_ H3]. destruct Hc as [_ Hb].
    rewrite Hb, app_nil_r in H3. cbn in Hn.
    split; [exact H3|]. split.
    + f_equal. rewrite Hn, H3. reflexivity.
    + unfold size. rewrite Hb. reflexivity.
Qed.

Lemma efficient_delivers_all_in_order_witness :
  exists s,
    run (repeat Producer 10 ++ repeat Consumer 10
         ++ repeat Producer 10 ++ repeat Consumer 10
         ++ repeat Producer 10 ++ repeat Consumer 10
         ++ repeat Producer 10 ++ repeat Consumer 10
         ++ repeat Producer 11 ++ repeat Consumer 11) init_sys = Some s
    /\ terminated s = true
    /\ cons s = CDone 50.
Proof.
  eexists. split; [vm_compute; reflexivity|]. split; [reflexivity|].
  refine (proj1 (proj2 (proj2 (proj2
    (efficient_delivers_all_in_order
       (repeat Producer 10 ++ repeat Consumer 10
        ++ repeat Producer 10 ++ repeat Consumer 10
        ++ repeat Producer 10 ++ repeat Consumer 10
        ++ repeat Producer 10 ++ repeat Consumer 10
        ++ repeat Producer 11 ++ repeat Consumer 11) _ _)) _))).
  - vm_compute; reflexivity.
  - reflexivity.
Defined.

End EfficientMore.

(* ================================================================= *)
(** ** mutex_only_version: correct, but it spins *)

Module MutexOnlyFacts.
Import MutexOnly.

Ltac consts :=
  unfold BUFFER_SIZE, NUM_ITEMS, Efficient.BUFFER_SIZE, Efficient.NUM_ITEMS
    in *.

Lemma mo_init_inv : inv init_sys.
Proof.
  unfold inv, size; consts; cbn. repeat split; auto; lia.
Qed.

Lemma mo_step_inv (th : thread) (s s' : sys) :
  step th s = Some s' -> inv s -> inv s'.
Proof.
  unfold inv. destruct s as [[b d] p c ev]. destruct th; cbn.
  - destruct p as [i|]; [|discriminate].
    unfold producer_step.
    destruct (Z.leb_spec i NUM_ITEMS) as [Hi|Hi].
    + unfold try_produce, bind, get, modify, ret. cbn.
      destruct (Z.ltb_spec (size (mkShared b d)) BUFFER_SIZE) as [Hs|Hs];
        intros H; inversion H; subst; cbn; [|auto].
      intros (Hsz & (H1 & H2 & H3) & H4 & H5).
      unfold size in *; cbn in *. rewrite length_app; cbn.
      split; [consts; lia|]. split; [|split; [assumption|]].
      * split; [consts; lia|]. split; [assumption|].
        rewrite app_assoc, H3. replace (i + 1 - 1) with i by lia.
        symmetry. apply DemoFacts.upto_snoc. lia.
      * destruct c; [exact I|]. destruct H5; congruence.
    + cbn. intros H; inversion H; subst; cbn.
      intros (Hsz & (H1 & H2 & H3) & H4 & H5).
      split; [assumption|]. split; [|split; [assumption|]].
      * split; [reflexivity|]. rewrite H3.
        replace (i - 1) with NUM_ITEMS by (consts; lia). reflexivity.
      * destruct c; [exact I|]. tauto.
  - destruct c as [n|n]; [|discriminate].
    destruct b as [|item rest]; cbn.
    + destruct d; cbn; intros H; inversion H; subst; clear H;
        cbn [mem prod cons consumed buffer producer_done count_of];
        rewrite ?app_nil_r; intros (Hsz & Hp & Hn & _);
        (split; [exact Hsz|]); (split; [exact Hp|]); (split; [exact Hn|]);
        auto.
    + intros H; inversion H; subst;
        cbn [mem prod cons consumed buffer producer_done count_of].
      intros (Hsz & Hp & Hn & _). unfold size in *.
      cbn [buffer length] in *.
      split; [lia|]. split; [|split; [|exact I]].
      * destruct p; rewrite <- app_assoc; exact Hp.
      * rewrite length_app. cbn [length]. lia.
Qed.

Lemma mo_run_inv (sched : list thread) :
  forall s s', run sched s = Some s' -> inv s -> inv s'.
Proof.
  induction sched as [|th sched IH]; intros s s' H Hinv; cbn in H.
  - inversion H; subst; assumption.
  - destruct (step th s) as [s1|] eqn:E; [|discriminate].
    eapply IH; eauto using mo_step_inv.
Qed.

(** X9.  [mutex_only_version] keeps the buffer within [BUFFER_SIZE] and
    delivers every item once and in order, under every schedule: in each
    state reached the buffer holds at most [BUFFER_SIZE] items and the items
    consumed followed by those in the buffer are [1..i] for the number [i]
    produced; when both threads have returned the consumer has consumed
    [1; 2; ...; 50], counted 50, and the buffer is empty. *)
Theorem mutex_only_bounded_and_in_order (sched : list thread) (s : sys) :
  run sched init_sys = Some s ->
  0 <= size (mem s) <= BUFFER_SIZE
  /\ (exists i, 0 <= i <= NUM_ITEMS
                /\ consumed s ++ buffer (mem s) = Demo.upto i)
  /\ count_of (cons s) = Z.of_nat (length (consumed s))
  /\ (terminated s = true ->
      consumed s = Demo.upto NUM_ITEMS
      /\ cons s = CDone NUM_ITEMS
      /\ size (mem s) = 0).
Proof.
  intros Hrun.
  pose proof (mo_run_inv _ _ _ Hrun mo_init_inv) as (Hsz & Hp & Hn & Hc).
  split; [exact Hsz|]. split; [|split; [exact Hn|]].
  - destruct (prod s) as [i|].
    + destruct Hp as (H1 & _ & H3). exists (i - 1). split; [lia|auto].
    + destruct Hp as [_ H3]. exists NUM_ITEMS.
      split; [consts; lia|auto].
  - unfold terminated. intros Ht.
    destruct (prod s) as [i|]; [discriminate|].
    destruct (cons s) as [n|n]; [discriminate|].
    destruct Hp as [_ H3]. destruct Hc as [_ Hb].
    rewrite Hb, app_nil_r in H3. cbn in Hn.
    split; [exact H3|]. split.
    + f_equal. rewrite Hn, H3. reflexivity.
    + unfold size. rewrite Hb. reflexivity.
Qed.

Lemma mutex_only_bounded_and_in_order_witness :
  exists s,
    run (repeat Producer 12 ++ repeat Consumer 10
         ++ repeat Producer 10 ++ repeat Consumer 10
         ++ repeat Producer 10 ++ repeat Consumer 10
         ++ repeat Producer 10 ++ repeat Consumer 10
         ++ repeat Producer 11 ++ repeat Consumer 11) init_sys = Some s
    /\ terminated s = true
    /\ cons s = CDone 50.
Proof.
  eexists. split; [vm_compute; reflexivity|]. split; [reflexivity|].
  refine (proj1 (proj2 (proj2 (proj2 (proj2
    (mutex_only_bounded_and_in_order
       (repeat Producer 12 ++ repeat Consumer 10
        ++ repeat Producer 10 ++ repeat Consumer 10
        ++ repeat Producer 10 ++ repeat Consumer 10
        ++ repeat Producer 10 ++ repeat Consumer 10
        ++ repeat Producer 11 ++ repeat Consumer 11) _ _))) _))).
  - vm_compute; reflexivity.
  - reflexivity.
Defined.

Lemma mo_spin_consumer (n : nat) (s : sys) :
  buffer (mem s) = [] -> producer_done (mem s) = false ->
  returned Consumer s = false ->
  run (repeat Consumer n) s = Some s.
Proof.
  intros Hb Hd Hr. induction n as [|n IH]; [reflexivity|].
  cbn [repeat run].
  assert (E : step Consumer s = Some s).
  { destruct s as [[b d] p [k|k] ev]; cbn in *; subst; try discriminate.
    cbn. rewrite app_nil_r. reflexivity. }
  rewrite E. exact IH.
Qed.

Lemma mo_spin_producer (n : nat) (s : sys) (i : Z) :
  prod s = PLoop i -> i <= NUM_ITEMS -> BUFFER_SIZE <= size (mem s) ->
  run (repeat Producer n) s = Some s.
Proof.
  intros Hp Hi Hs. induction n as [|n IH]; [reflexivity|].
  cbn [repeat run].
  assert (E : step Producer s = Some s).
  { destruct s as [[b d] p c ev]; cbn in *; subst.
    unfold producer_step.
    destruct (Z.leb_spec i NUM_ITEMS) as [Hle|Hgt]; [|lia].
    unfold try_produce, bind, get, ret. cbn.
    destruct (Z.ltb_spec (size (mkShared b d)) BUFFER_SIZE) as [Hlt|Hge];
      [lia|].
    reflexivity. }
  rewrite E. exact IH.
Qed.

(** X10.  [mutex_only_version] never suspends a thread, it busy-waits: a
    thread can take a step in every state in which it has not returned; a
    consumer that finds the buffer empty before the producer is done, and a
    producer that finds it full, go round their loops any number of times
    leaving everything as it was. *)
Theorem mutex_only_busy_waits (s : sys) (n : nat) :
  (forall th, step th s = None <-> returned th s = true)
  /\ (buffer (mem s) = [] -> producer_done (mem s) = false ->
      returned Consumer s = false ->
      run (repeat Consumer n) s = Some s)
  /\ (forall i, prod s = PLoop i -> i <= NUM_ITEMS ->
                BUFFER_SIZE <= size (mem s) ->
                run (repeat Producer n) s = Some s).
Proof.
  split; [|split].
  - intros th. destruct s as [[b d] p c ev]. destruct th; cbn.
    + destruct p as [i|]; [|tauto].
      unfold producer_step. destruct (i <=? NUM_ITEMS); cbn.
      * unfold try_produce, bind, get, modify, ret.
        destruct (size (mkShared b d) <? BUFFER_SIZE); split; discriminate.
      * split; discriminate.
    + destruct c as [k|k]; [|tauto].
      destruct b as [|item rest]; [destruct d|]; cbn; split; discriminate.
  - apply mo_spin_consumer.
  - intros i. apply mo_spin_producer.
Qed.

Lemma mutex_only_busy_waits_witness :
  run (repeat Consumer 7) init_sys = Some init_sys.
Proof.
  exact (proj1 (proj2 (mutex_only_busy_waits init_sys 7))
           eq_refl eq_refl eq_refl).
Defined.

End MutexOnlyFacts.

(* ================================================================= *)
(** ** Stack<T, MaxSize>: top, LIFO order, and the list it stands for *)

Module StackMore.
Import Stack StackOps StackFacts.

Section WithT.
Variable T : Type.
Variable MaxSize : Z.
Hypothesis MaxSize_range : 0 < MaxSize < 2 ^ 64.

Lemma contents_length (s : t T) :
  wf MaxSize s -> Z.of_nat (length (contents s)) = size s.
Proof.
  unfold wf, contents, size. intros [Hlen Htop].
  rewrite length_firstn. lia.
Qed.

Lemma top_nonempty (s : t T) :
  wf MaxSize s -> size s <> 0 ->
  exists x s', top s = Value x /\ pop s = Value (x, s').
Proof.
  intros Hwf Hne.
  destruct (pop_nonempty T MaxSize MaxSize_range s Hwf Hne)
    as (x & s' & E & _).
  exists x, s'. split; [|exact E].
  unfold pop, top, empty, size, wf in *. destruct Hwf as [_ Htop].
  destruct (Z.eqb_spec (top_index s) 0); [lia|].
  rewrite size_t_small in E by lia.
  destruct (nth_error (data s) (Z.to_nat (top_index s - 1)));
    inversion E; reflexivity.
Qed.

Lemma top_empty (s : t T) :
  size s = 0 -> top s = Throw (underflow_error "Stack is empty").
Proof. unfold size, top, empty. intros ->. reflexivity. Qed.

Lemma push_all_fits (values : list T) :
  forall s,
    wf MaxSize s -> size s + Z.of_nat (length values) <= MaxSize ->
    exists s',
      push_all T MaxSize values s = Value s'
      /\ wf MaxSize s' /\ contents s' = contents s ++ values.
Proof.
  induction values as [|v vs IH]; intros s Hwf Hfit; cbn [push_all].
  - exists s. rewrite app_nil_r. auto.
  - cbn [length] in Hfit.
    destruct (push_room T MaxSize MaxSize_range v s Hwf)
      as (s1 & E & Hwf1 & Hsz & Hc); [lia|].
    rewrite E. destruct (IH s1 Hwf1) as (s' & E' & Hwf' & Hc'); [lia|].
    exists s'. split; [exact E'|]. split; [exact Hwf'|].
    rewrite Hc', Hc, <- app_assoc. reflexivity.
Qed.

Lemma push_all_overflows (values : list T) :
  forall s,
    wf MaxSize s -> MaxSize < size s + Z.of_nat (length values) ->
    push_all T MaxSize values s = Throw (overflow_error "Stack overflow").
Proof.
  induction values as [|v vs IH]; intros s Hwf Hfit; cbn [push_all].
  - destruct Hwf as [_ ?]. unfold size in *. cbn in Hfit. lia.
  - cbn [length] in Hfit.
    destruct (Z.eq_dec (size s) MaxSize) as [Hfull|Hroom].
    + rewrite (push_full T MaxSize v s Hwf Hfull). reflexivity.
    + destruct (push_room T MaxSize MaxSize_range v s Hwf Hroom)
        as (s1 & E & Hwf1 & Hsz & _).
      rewrite E. apply IH; [assumption|lia].
Qed.

Lemma pop_loop_all (n : nat) :
  forall s fuel,
    wf MaxSize s -> Z.to_nat (size s) = n -> (n < fuel)%nat ->
    exists s',
      pop_loop T fuel s = Some (Value (rev (contents s), s'))
      /\ wf MaxSize s' /\ size s' = 0.
Proof.
  induction n as [|n IH]; intros s fuel Hwf Hn Hfuel;
    (destruct fuel as [|fuel]; [lia|]); cbn [pop_loop].
  - assert (Hz : size s = 0) by (destruct Hwf; unfold size in *; lia).
    unfold empty. unfold size in Hz. rewrite Hz. cbn.
    exists s. unfold contents. rewrite Hz. cbn. auto.
  - assert (Hnz : size s <> 0) by lia.
    unfold empty. destruct (Z.eqb_spec (top_index s) 0) as [E0|_];
      [unfold size in Hnz; lia|].
    destruct (pop_nonempty T MaxSize MaxSize_range s Hwf Hnz)
      as (x & s1 & E & Hwf1 & Hsz & Hc).
    rewrite E.
    destruct (IH s1 fuel Hwf1) as (s' & E' & Hwf' & Hsz'); [lia|lia|].
    rewrite E'. exists s'. split; [|auto].
    rewrite Hc, rev_app_distr. reflexivity.
Qed.

Lemma contents_empty (s : t T) :
  wf MaxSize s -> size s = 0 -> contents s = [].
Proof.
  unfold contents, size. intros _ ->. reflexivity.
Qed.

Lemma apply_refines (o : op T) (s : t T) :
  wf MaxSize s ->
  list_apply T MaxSize o (contents s)
  = (contents (fst (apply T MaxSize o s)), snd (apply T MaxSize o s))
  /\ wf MaxSize (fst (apply T MaxSize o s)).
Proof.
  intros Hwf. pose proof (contents_length s Hwf) as Hlen.
  destruct o as [v| |]; cbn [apply list_apply].
  - destruct (Z.eq_dec (size s) MaxSize) as [Hfull|Hroom].
    + rewrite (push_full T MaxSize v s Hwf Hfull). cbn.
      destruct (Z.geb_spec (Z.of_nat (length (contents s))) MaxSize);
        [auto|lia].
    + destruct (push_room T MaxSize MaxSize_range v s Hwf Hroom)
        as (s' & E & Hwf' & _ & Hc).
      rewrite E. cbn. rewrite Hc.
      destruct (Z.geb_spec (Z.of_nat (length (contents s))) MaxSize);
        [|auto].
      destruct Hwf as [_ ?]. unfold size in *. lia.
  - destruct (Z.eq_dec (size s) 0) as [Hz|Hnz].
    + rewrite (pop_empty T s Hz). cbn.
      rewrite (contents_empty s Hwf Hz). cbn. auto.
    + destruct (pop_nonempty T MaxSize MaxSize_range s Hwf Hnz)
        as (x & s' & E & Hwf' & _ & Hc).
      rewrite E, Hc, rev_app_distr. cbn. rewrite rev_involutive. auto.
  - destruct (Z.eq_dec (size s) 0) as [Hz|Hnz].
    + rewrite (top_empty s Hz). cbn.
      rewrite (contents_empty s Hwf Hz). cbn. auto.
    + destruct (top_nonempty s Hwf Hnz) as (x & s' & E & E').
      destruct (pop_nonempty T MaxSize MaxSize_range s Hwf Hnz)
        as (x2 & s2 & E2 & _ & _ & Hc).
      rewrite E' in E2. inversion E2; subst.
      rewrite E. cbn [fst snd]. rewrite Hc at 1. rewrite rev_app_distr.
      cbn. auto.
Qed.

Lemma apply_all_refines (os : list (op T)) :
  forall s,
    wf MaxSize s ->
    list_apply_all T MaxSize os (contents s)
    = (contents (fst (apply_all T MaxSize os s)),
       snd (apply_all T MaxSize os s))
    /\ wf MaxSize (fst (apply_all T MaxSize os s)).
Proof.
  induction os as [|o os IH]; intros s Hwf; cbn [apply_all list_apply_all].
  - auto.
  - destruct (apply_refines o s Hwf) as [E Hwf1]. rewrite E.
    destruct (apply T MaxSize o s) as [s1 r]. cbn [fst snd] in *.
    destruct (IH s1 Hwf1) as [E' Hwf2]. rewrite E'.
    destruct (apply_all T MaxSize os s1) as [s2 rs]. cbn [fst snd] in *.
    auto.
Qed.

Lemma list_apply_all_in_bounds (os : list (op T)) :
  forall l, Forall (fun r => r <> OutOfBounds)
              (snd (list_apply_all T MaxSize os l)).
Proof.
  induction os as [|o os IH]; intros l; cbn [list_apply_all].
  - constructor.
  - destruct (list_apply T MaxSize o l) as [l1 r] eqn:E.
    specialize (IH l1).
    destruct (list_apply_all T MaxSize os l1) as [l2 rs]. cbn [snd] in *.
    constructor; [|exact IH].
    destruct o as [v| |]; cbn in E.
    + destruct (Z.of_nat (length l) >=? MaxSize); inversion E; discriminate.
    + destruct (rev l); inversion E; discriminate.
    + destruct (rev l); inversion E; discriminate.
Qed.

End WithT.

(** X11.  [top] looks without taking: on a stack that is not empty it
    returns the element a [pop] would return, the last of the contents; on
    an empty stack it throws [underflow_error] with the message "Stack is
    empty"; and right after [push v] it returns [v]. *)
Theorem top_peeks_at_what_pop_returns
    (T : Type) (MaxSize : Z) (s : t T) (value : T) :
  0 < MaxSize < 2 ^ 64 ->
  wf MaxSize s ->
  (top s = Throw (underflow_error "Stack is empty") <-> size s = 0)
  /\ (size s <> 0 ->
      exists x s', top s = Value x /\ pop s = Value (x, s')
                   /\ contents s = contents s' ++ [x])
  /\ (size s <> MaxSize ->
      exists s', push MaxSize value s = Value s' /\ top s' = Value value).
Proof.
  intros HM Hwf. split; [|split].
  - split; [|apply top_empty].
    intros Hthrow. destruct (Z.eq_dec (size s) 0) as [|Hne]; [auto|].
    destruct (top_nonempty T MaxSize HM s Hwf Hne) as (x & s' & E & _).
    congruence.
  - intros Hne.
    destruct (top_nonempty T MaxSize HM s Hwf Hne) as (x & s' & E & E').
    destruct (pop_nonempty T MaxSize HM s Hwf Hne)
      as (x2 & s2 & E2 & _ & _ & Hc).
    rewrite E' in E2. inversion E2; subst. eauto.
  - intros Hroom.
    destruct (push_room T MaxSize HM value s Hwf Hroom)
      as (s' & E & Hwf' & Hsz & Hc).
    exists s'. split; [exact E|].
    assert (Hne : size s' <> 0)
      by (destruct Hwf as [_ ?]; unfold size in *; lia).
    destruct (top_nonempty T MaxSize HM s' Hwf' Hne) as (x & s2 & Et & Ep).
    destruct (pop_nonempty T MaxSize HM s' Hwf' Hne)
      as (x2 & s3 & E3 & _ & _ & Hc3).
    rewrite Ep in E3. inversion E3; subst.
    rewrite Hc in Hc3. apply app_inj_tail in Hc3 as [_ ->]. exact Et.
Qed.

Lemma top_peeks_at_what_pop_returns_witness :
  wf 3 (mk [10; 20; 30] 2)
  /\ top (mk [10; 20; 30] 2) = Value 20
  /\ exists x s', top (mk [10; 20; 30] 2) = Value x
                  /\ pop (mk [10; 20; 30] 2) = Value (x, s')
                  /\ contents (mk [10; 20; 30] 2) = contents s' ++ [x].
Proof.
  assert (W : wf 3 (mk [10; 20; 30] 2)) by (unfold wf; cbn; lia).
  split; [exact W|]. split; [reflexivity|].
  apply (top_peeks_at_what_pop_returns Z 3 (mk [10; 20; 30] 2) 0);
    [lia|exact W|discriminate].
Defined.

(** X12.  Last in, first out.  Pushing the values [vs] one after the other
    onto a stack with room for them all succeeds and puts them on top of
    the former contents in push order; emptying the stack with
    [while (!empty()) pop()] then returns everything in reverse order and
    leaves the stack empty.  When there is not room for them all, the loop
    of pushes ends in [overflow_error]. *)
Theorem push_all_then_pop_all_reverses
    (T : Type) (MaxSize : Z) (s : t T) (vs : list T) :
  0 < MaxSize < 2 ^ 64 ->
  wf MaxSize s ->
  (size s + Z.of_nat (length vs) <= MaxSize ->
   exists s1,
     push_all T MaxSize vs s = Value s1
     /\ contents s1 = contents s ++ vs
     /\ forall fuel, (length (contents s ++ vs) < fuel)%nat ->
          exists s2,
            pop_loop T fuel s1 = Some (Value (rev vs ++ rev (contents s), s2))
            /\ size s2 = 0)
  /\ (MaxSize < size s + Z.of_nat (length vs) ->
      push_all T MaxSize vs s = Throw (overflow_error "Stack overflow")).
Proof.
  intros HM Hwf. split.
  - intros Hfit.
    destruct (push_all_fits T MaxSize HM vs s Hwf Hfit)
      as (s1 & E & Hwf1 & Hc).
    exists s1. split; [exact E|]. split; [exact Hc|].
    intros fuel Hfuel.
    destruct (pop_loop_all T MaxSize HM (Z.to_nat (size s1)) s1 fuel Hwf1
                eq_refl) as (s2 & E2 & _ & Hsz).
    + rewrite <- (contents_length T MaxSize HM s1 Hwf1), Hc. lia.
    + exists s2. rewrite E2, Hc, rev_app_distr. auto.
  - apply push_all_overflows; assumption.
Qed.

Lemma push_all_then_pop_all_reverses_witness :
  push_all Z 10 [10; 20; 30; 40; 50] (new [0; 0; 0; 0; 0; 0; 0; 0; 0; 0])
  = Value (mk [10; 20; 30; 40; 50; 0; 0; 0; 0; 0] 5)
  /\ pop_loop Z 6 (mk [10; 20; 30; 40; 50; 0; 0; 0; 0; 0] 5)
     = Some (Value ([50; 40; 30; 20; 10],
                    mk [10; 20; 30; 40; 50; 0; 0; 0; 0; 0] 0))
  /\ exists s1,
       push_all Z 10 [10; 20; 30; 40; 50]
         (new [0; 0; 0; 0; 0; 0; 0; 0; 0; 0]) = Value s1
       /\ contents s1 = [10; 20; 30; 40; 50].
Proof.
  split; [reflexivity|]. split; [reflexivity|].
  destruct (proj1 (push_all_then_pop_all_reverses Z 10
                     (new [0; 0; 0; 0; 0; 0; 0; 0; 0; 0])
                     [10; 20; 30; 40; 50]
                     ltac:(lia) ltac:(unfold wf; cbn; lia))
              ltac:(cbn; lia)) as (s1 & E & Hc & _).
  exists s1. split; [exact E|exact Hc].
Defined.

(** X13.  The array-backed stack behaves as a list of at most [MaxSize]
    elements.  For any sequence of [push], [pop] and [top] calls on a newly
    constructed stack, whatever the array held before: every call gives the
    result the list would give (the same value, or the same exception),
    what the stack holds at the end is what the list holds, its size stays
    between 0 and [MaxSize], and no call reads or writes outside the
    array. *)
Theorem stack_behaves_as_bounded_list
    (T : Type) (MaxSize : Z) (arr : list T) (os : list (op T)) :
  0 < MaxSize < 2 ^ 64 ->
  Z.of_nat (length arr) = MaxSize ->
  list_apply_all T MaxSize os []
  = (contents (fst (apply_all T MaxSize os (new arr))),
     snd (apply_all T MaxSize os (new arr)))
  /\ 0 <= size (fst (apply_all T MaxSize os (new arr))) <= MaxSize
  /\ Forall (fun r => r <> OutOfBounds)
       (snd (apply_all T MaxSize os (new arr))).
Proof.
  intros HM Hlen.
  destruct (new_wf T MaxSize HM arr Hlen) as [Hwf Hc].
  destruct (apply_all_refines T MaxSize HM os (new arr) Hwf) as [E Hwf'].
  rewrite Hc in E. split; [exact E|]. split.
  - destruct Hwf' as [_ H]. exact H.
  - pose proof (list_apply_all_in_bounds T MaxSize os []) as H.
    rewrite E in H. exact H.
Qed.

Lemma stack_behaves_as_bounded_list_witness :
  apply_all Z 2 [OPop; OPush 7; OPush 8; OPush 9; OTop; OPop; OPop; OTop]
    (new [0; 0])
  = (mk [7; 8] 0,
     [Throw (underflow_error "Stack underflow"); Value None; Value None;
      Throw (overflow_error "Stack overflow"); Value (Some 8);
      Value (Some 8); Value (Some 7);
      Throw (underflow_error "Stack is empty")])
  /\ list_apply_all Z 2
       [OPop; OPush 7; OPush 8; OPush 9; OTop; OPop; OPop; OTop] []
     = (contents
          (fst (apply_all Z 2
                  [OPop; OPush 7; OPush 8; OPush 9; OTop; OPop; OPop; OTop]
                  (new [0; 0]))),
        snd (apply_all Z 2
               [OPop; OPush 7; OPush 8; OPush 9; OTop; OPop; OPop; OTop]
               (new [0; 0]))).
Proof.
  split; [reflexivity|].
  exact (proj1 (stack_behaves_as_bounded_list Z 2 [0; 0]
                  [OPop; OPush 7; OPush 8; OPush 9; OTop; OPop; OPop; OTop]
                  ltac:(lia) eq_refl)).
Defined.

End StackMore.

(* ================================================================= *)
(** ** Array<T, Size>: checked access and fill *)

Module ArrayFacts.
Import Array.

Section WithT.
Variable T : Type.
Variable Size : Z.

Lemma nth_error_store_same (k : nat) (x : T) (l : list T) :
  (k < length l)%nat -> nth_error (Stack.store T k x l) k = Some x.
Proof.
  revert k; induction l as [|y l IH]; intros [|k] Hk; cbn in *;
    try lia; auto.
  apply IH. lia.
Qed.

Lemma nth_error_store_other (k k' : nat) (x : T) (l : list T) :
  k <> k' -> nth_error (Stack.store T k x l) k' = nth_error l k'.
Proof.
  revert k k'; induction l as [|y l IH]; intros [|k] [|k'] Hne; cbn; auto;
    congruence.
Qed.

Lemma skipn_store (k m : nat) (x : T) (l : list T) :
  (k < m)%nat -> skipn m (Stack.store T k x l) = skipn m l.
Proof.
  revert k m; induction l as [|y l IH]; intros [|k] [|m] Hk; cbn;
    try lia; auto.
  apply IH. lia.
Qed.

Lemma write_cell_in_range (i : nat) (x : T) (l : list T) :
  (i < length l)%nat ->
  write_cell T (Z.of_nat i) x l = Value (Stack.store T i x l).
Proof.
  intros Hi. unfold write_cell.
  destruct (Z.leb_spec 0 (Z.of_nat i)); [|lia].
  destruct (Z.ltb_spec (Z.of_nat i) (Z.of_nat (length l))); [|lia].
  cbn. rewrite Nat2Z.id. reflexivity.
Qed.

Lemma assign_all_seq (value : T) (n : nat) :
  forall start d,
    (start + n <= length d)%nat ->
    assign_all T (map Z.of_nat (seq start n)) value d
    = Value (firstn start d ++ repeat value n ++ skipn (start + n) d).
Proof.
  induction n as [|n IH]; intros start d Hlen; cbn [seq map assign_all].
  - rewrite Nat.add_0_r. cbn. rewrite firstn_skipn. reflexivity.
  - rewrite write_cell_in_range by lia.
    rewrite IH by (rewrite StackFacts.length_store; lia).
    rewrite StackFacts.firstn_store_snoc by lia.
    rewrite skipn_store by lia.
    rewrite <- app_assoc. cbn [repeat app].
    replace (S start + n)%nat with (start + S n)%nat by lia. reflexivity.
Qed.

Lemma fill_repeat (value : T) (a : t T) :
  wf Size a ->
  fill Size value a = Value (mk (repeat value (Z.to_nat Size))).
Proof.
  unfold wf, fill, indices. intros Hwf.
  rewrite assign_all_seq by lia. cbn [firstn app Nat.add].
  rewrite skipn_all2 by lia. rewrite app_nil_r. reflexivity.
Qed.

Lemma get_repeat (value : T) (j : Z) :
  0 <= j < Size ->
  get Size j (mk (repeat value (Z.to_nat Size))) = Value value.
Proof.
  intros Hj. unfold get. destruct (Z.geb_spec j Size); [lia|]. cbn.
  rewrite nth_error_repeat by lia. reflexivity.
Qed.

End WithT.

(** X14.  [operator[]] is bounds-checked.  On an array of [Size] cells and
    for an index that is a [size_t], reading or writing throws
    [out_of_range] exactly when the index is [Size] or more; below [Size]
    a write succeeds, a read of the same index then returns the value
    written, every other cell reads as before, and neither ever touches
    memory outside the array. *)
Theorem array_access_is_bounds_checked
    (T : Type) (Size : Z) (a : t T) (index : Z) (value : T) :
  wf Size a ->
  0 <= index ->
  (get Size index a = Throw (out_of_range "Index out of range")
   <-> Size <= index)
  /\ (set Size index value a = Throw (out_of_range "Index out of range")
      <-> Size <= index)
  /\ get Size index a <> OutOfBounds
  /\ set Size index value a <> OutOfBounds
  /\ (index < Size ->
      exists a',
        set Size index value a = Value a'
        /\ wf Size a'
        /\ get Size index a' = Value value
        /\ forall j, 0 <= j -> j <> index -> get Size j a' = get Size j a).
Proof.
  unfold wf. intros Hwf Hidx.
  assert (Hset : index < Size ->
                 set Size index value a
                 = Value (mk (Stack.store T (Z.to_nat index) value (data a)))).
  { intros Hlt. unfold set. destruct (Z.geb_spec index Size); [lia|].
    rewrite <- (Z2Nat.id index) at 1 by lia.
    rewrite write_cell_in_range by lia. reflexivity. }
  assert (Hget : index < Size ->
                 exists v, get Size index a = Value v).
  { intros Hlt. unfold get. destruct (Z.geb_spec index Size); [lia|].
    destruct (nth_error (data a) (Z.to_nat index)) as [v|] eqn:E; [eauto|].
    apply nth_error_None in E. lia. }
  assert (Hthrow : Size <= index ->
                   get Size index a = Throw (out_of_range "Index out of range")
                   /\ set Size index value a
                      = Throw (out_of_range "Index out of range")).
  { intros Hge. unfold get, set.
    destruct (Z.geb_spec index Size); [auto|lia]. }
  split; [|split; [|split; [|split]]].
  - split; [|intros H; apply Hthrow; exact H].
    intros E. destruct (Z.le_gt_cases Size index) as [|Hlt]; [auto|].
    destruct (Hget ltac:(lia)) as [v Ev]. congruence.
  - split; [|intros H; apply Hthrow; exact H].
    intros E. destruct (Z.le_gt_cases Size index) as [|Hlt]; [auto|].
    rewrite Hset in E by lia. discriminate.
  - destruct (Z.le_gt_cases Size index) as [Hge|Hlt].
    + destruct (Hthrow Hge) as [-> _]. discriminate.
    + destruct (Hget ltac:(lia)) as [v ->]. discriminate.
  - destruct (Z.le_gt_cases Size index) as [Hge|Hlt].
    + destruct (Hthrow Hge) as [_ ->]. discriminate.
    + rewrite Hset by lia. discriminate.
  - intros Hlt. eexists. split; [apply Hset; exact Hlt|]. cbn [data].
    split; [rewrite StackFacts.length_store; exact Hwf|]. split.
    + unfold get. destruct (Z.geb_spec index Size); [lia|]. cbn [data].
      rewrite nth_error_store_same by lia. reflexivity.
    + intros j Hj Hne. unfold get. cbn [data].
      rewrite nth_error_store_other by lia. reflexivity.
Qed.

Lemma array_access_is_bounds_checked_witness :
  wf 3 (mk [10; 20; 30])
  /\ set 3 1 99 (mk [10; 20; 30]) = Value (mk [10; 99; 30])
  /\ get 3 3 (mk [10; 20; 30]) = Throw (out_of_range "Index out of range")
  /\ get 3 1 (mk [10; 20; 30]) <> OutOfBounds.
Proof.
  assert (W : wf 3 (mk [10; 20; 30])) by reflexivity.
  split; [exact W|]. split; [reflexivity|]. split; [reflexivity|].
  exact (proj1 (proj2 (proj2
    (array_access_is_bounds_checked Z 3 (mk [10; 20; 30]) 1 99 W
       ltac:(lia))))).
Defined.

(** X15.  [fill(value)] sets every cell: on an array of [Size] cells it
    returns with all [Size] cells equal to [value], so every index below
    [Size] then reads [value]; it stays inside the array.  Both
    constructors do the same with [T{}] and with the initial value,
    whatever the storage held before. *)
Theorem fill_sets_every_cell
    (T : Type) (Size : Z) (arr : list T) (value : T) :
  Z.of_nat (length arr) = Size ->
  fill Size value (mk arr) = Value (mk (repeat value (Z.to_nat Size)))
  /\ wf Size (mk (repeat value (Z.to_nat Size)))
  /\ (forall j, 0 <= j < Size ->
                get Size j (mk (repeat value (Z.to_nat Size))) = Value value)
  /\ new Size value arr = Value (mk (repeat value (Z.to_nat Size)))
  /\ new_filled Size value arr
     = Value (mk (repeat value (Z.to_nat Size))).
Proof.
  intros Hlen. pose proof (fill_repeat T Size value (mk arr) Hlen) as E.
  split; [exact E|]. split; [|split; [|split]].
  - unfold wf. cbn. rewrite repeat_length. lia.
  - intros j Hj. apply get_repeat. exact Hj.
  - exact E.
  - exact E.
Qed.

Lemma fill_sets_every_cell_witness :
  fill 6 42 (mk [1; 2; 3; 4; 5; 6]) = Value (mk [42; 42; 42; 42; 42; 42]).
Proof.
  exact (proj1 (fill_sets_every_cell Z 6 [1; 2; 3; 4; 5; 6] 42 eq_refl)).
Defined.

End ArrayFacts.

(* ================================================================= *)
(** ** Calculator<std::string>::subtract: when it ends and what it leaves *)

Module StringCalculatorFacts.
Import Ascii StringCalculator.

Lemma starts_with_length (b s : str) :
  starts_with b s = true -> (length b <= length s)%nat.
Proof.
  revert s; induction b as [|c b IH]; intros [|d s]; cbn;
    try discriminate; try lia.
  intros H. apply andb_true_iff in H as [_ H]. apply IH in H. lia.
Qed.

Lemma find_at_bounds (s b : str) :
  forall p q,
    find_at s b p = Some q ->
    (p <= q)%nat /\ (q - p + length b <= length s)%nat.
Proof.
  induction s as [|d s IH]; intros p q; cbn [find_at].
  - destruct (starts_with b []) eqn:E; [|discriminate].
    intros H; inversion H; subst. apply starts_with_length in E. lia.
  - destruct (starts_with b (d :: s)) eqn:E.
    + intros H; inversion H; subst. apply starts_with_length in E. lia.
    + intros H. apply IH in H. cbn [length]. lia.
Qed.

Lemma find_bounds (s b : str) (pos q : nat) :
  find s b pos = Some q ->
  (pos <= q)%nat /\ (q + length b <= length s)%nat.
Proof.
  unfold find. destruct (Nat.ltb_spec (length s) pos) as [Hlt|Hle];
    [discriminate|].
  intros H. apply find_at_bounds in H. rewrite length_skipn in H. lia.
Qed.

Lemma erase_found (s b : str) (pos q : nat) :
  find s b pos = Some q ->
  exists s', erase s q (length b) = Some s'
             /\ (length s' + length b = length s)%nat.
Proof.
  intros H. apply find_bounds in H as [_ H]. unfold erase.
  destruct (Nat.ltb_spec (length s) q) as [Hlt|Hle]; [lia|].
  eexists. split; [reflexivity|].
  rewrite length_app, length_firstn, length_skipn. lia.
Qed.

Lemma subtract_loop_ends (b : str) :
  b <> [] ->
  forall fuel result pos,
    (length result < fuel)%nat ->
    exists r k,
      subtract_loop fuel result b pos = Finished r
      /\ (length result = length r + k * length b)%nat.
Proof.
  intros Hb.
  assert (Hlb : (0 < length b)%nat)
    by (destruct b; cbn; [congruence|lia]).
  induction fuel as [|fuel IH]; intros result pos Hfuel; [lia|].
  cbn [subtract_loop].
  destruct (find result b pos) as [q|] eqn:E.
  - destruct (erase_found _ _ _ _ E) as (r' & -> & Hlen).
    destruct (IH r' q) as (r & k & Er & Hk); [lia|].
    exists r, (S k). split; [exact Er|]. cbn. lia.
  - exists result, O. split; [reflexivity|cbn; lia].
Qed.

Lemma find_empty_pattern (s : str) : find s [] 0 = Some 0%nat.
Proof. destruct s; reflexivity. Qed.

Lemma erase_nothing (s : str) : erase s 0 0 = Some s.
Proof. reflexivity. Qed.

Lemma subtract_loop_spins (fuel : nat) (result : str) :
  subtract_loop fuel result [] 0 = StillRunning.
Proof.
  induction fuel as [|fuel IH]; [reflexivity|].
  cbn [subtract_loop length].
  rewrite find_empty_pattern, erase_nothing. exact IH.
Qed.

Lemma starts_with_prefix (b s : str) :
  starts_with b s = true -> s = b ++ skipn (length b) s.
Proof.
  revert s; induction b as [|c b IH]; intros [|d s]; cbn;
    try discriminate; auto.
  intros H. apply andb_true_iff in H as [Hc H].
  apply Ascii.eqb_eq in Hc. subst d. f_equal. apply IH. exact H.
Qed.

Lemma find_at_occurrence (s b : str) :
  forall p q,
    find_at s b p = Some q ->
    (p <= q)%nat /\ starts_with b (skipn (q - p) s) = true.
Proof.
  induction s as [|d s IH]; intros p q; cbn [find_at].
  - destruct (starts_with b []) eqn:E; [|discriminate].
    intros H; inversion H; subst. rewrite Nat.sub_diag. auto.
  - destruct (starts_with b (d :: s)) eqn:E.
    + intros H; inversion H; subst. rewrite Nat.sub_diag. auto.
    + intros H. apply IH in H as [Hle H]. split; [lia|].
      replace (q - p)%nat with (S (q - S p)) by lia. exact H.
Qed.

(** Where [find] reports [b], [b] stands, and [erase] takes out exactly
    that copy. *)
Lemma erase_cuts_occurrence (s b : str) (pos q : nat) :
  find s b pos = Some q ->
  s = firstn q s ++ b ++ skipn (q + length b) s
  /\ erase s q (length b) = Some (firstn q s ++ skipn (q + length b) s).
Proof.
  intros H. pose proof (find_bounds _ _ _ _ H) as [Hpos Hlen].
  unfold find in H.
  destruct (Nat.ltb_spec (length s) pos) as [Hlt|Hle]; [discriminate|].
  apply find_at_occurrence in H as [_ H]. rewrite skipn_skipn in H.
  replace (q - pos + pos)%nat with q in H by lia.
  apply starts_with_prefix in H. rewrite skipn_skipn in H. split.
  - rewrite <- (firstn_skipn q s) at 1. f_equal.
    rewrite (Nat.add_comm q). exact H.
  - unfold erase.
    destruct (Nat.ltb_spec (length s) q) as [Hlt'|Hle']; [lia|reflexivity].
Qed.

Lemma subtract_loop_cuts (b : str) :
  forall fuel result pos r,
    subtract_loop fuel result b pos = Finished r -> cut_out b result r.
Proof.
  induction fuel as [|fuel IH]; intros result pos r; cbn [subtract_loop];
    [discriminate|].
  destruct (find result b pos) as [q|] eqn:E.
  - destruct (erase_cuts_occurrence _ _ _ _ E) as [Hs ->].
    intros H. apply IH in H. rewrite Hs. apply cut_one. exact H.
  - intros H; inversion H; subst. apply cut_none.
Qed.

Lemma cut_out_length (b a r : str) :
  cut_out b a r ->
  exists k, (length a = length r + k * length b)%nat.
Proof.
  induction 1 as [a|before after r H [k IH]].
  - exists O. cbn. lia.
  - exists (S k). rewrite !length_app in *. cbn. lia.
Qed.

(** *** Patterns of one character *)

Lemma find_at_char (c : ascii) (s : str) :
  forall p,
    match find_at s [c] p with
    | Some q =>
        exists pre post,
          s = pre ++ c :: post /\ ~ In c pre /\ q = (p + length pre)%nat
    | None => ~ In c s
    end.
Proof.
  induction s as [|d s IH]; intros p; cbn [find_at starts_with].
  - intros [].
  - destruct (Ascii.eqb c d) eqn:E; cbn [andb].
    + apply Ascii.eqb_eq in E. subst d.
      exists [], s. cbn. split; [reflexivity|]. split; [tauto|lia].
    + assert (Hne : d <> c)
        by (intros ->; rewrite Ascii.eqb_refl in E; discriminate).
      specialize (IH (S p)). destruct (find_at s [c] (S p)) as [q|].
      * destruct IH as (pre & post & -> & Hpre & ->).
        exists (d :: pre), post. cbn. split; [reflexivity|].
        split; [|lia]. intros [H|H]; [congruence|tauto].
      * intros [H|H]; [congruence|tauto].
Qed.

Lemma find_char (c : ascii) (s : str) (pos : nat) :
  (pos <= length s)%nat ->
  match find s [c] pos with
  | Some q =>
      exists pre post,
        s = firstn pos s ++ pre ++ c :: post
        /\ ~ In c pre /\ q = (pos + length pre)%nat
  | None => ~ In c (skipn pos s)
  end.
Proof.
  intros Hpos. unfold find.
  destruct (Nat.ltb_spec (length s) pos) as [Hlt|_]; [lia|].
  pose proof (find_at_char c (skipn pos s) pos) as H.
  destruct (find_at (skipn pos s) [c] pos) as [q|]; [|exact H].
  destruct H as (pre & post & Hs & Hpre & ->).
  exists pre, post. split; [|auto].
  rewrite <- Hs. symmetry. apply firstn_skipn.
Qed.

Lemma without_char_app (c : ascii) (s t : str) :
  without_char c (s ++ t) = without_char c s ++ without_char c t.
Proof. apply filter_app. Qed.

Lemma without_char_absent (c : ascii) (s : str) :
  ~ In c s -> without_char c s = s.
Proof.
  induction s as [|d s IH]; cbn; [reflexivity|].
  intros H. destruct (Ascii.eqb d c) eqn:E; cbn.
  - apply Ascii.eqb_eq in E. tauto.
  - f_equal. apply IH. tauto.
Qed.

Lemma without_char_cons_same (c : ascii) (s : str) :
  without_char c (c :: s) = without_char c s.
Proof. cbn. rewrite Ascii.eqb_refl. reflexivity. Qed.

(** With a pattern of one character the loop removes every occurrence:
    nothing before [pos] is that character, and what is found at or after
    [pos] is erased. *)
Lemma subtract_loop_char (c : ascii) :
  forall fuel result pos r,
    (pos <= length result)%nat ->
    ~ In c (firstn pos result) ->
    subtract_loop fuel result [c] pos = Finished r ->
    r = without_char c result.
Proof.
  induction fuel as [|fuel IH]; intros result pos r Hpos Hclean;
    cbn [subtract_loop]; [discriminate|].
  pose proof (find_char c result pos Hpos) as Hf.
  destruct (find result [c] pos) as [q|] eqn:E.
  - destruct (erase_cuts_occurrence _ _ _ _ E) as [_ ->].
    destruct Hf as (pre & post & Hs & Hpre & ->).
    assert (Hlen : length (firstn pos result) = pos)
      by (apply firstn_length_le; exact Hpos).
    assert (Hfirst : firstn (pos + length pre) result
                     = firstn pos result ++ pre).
    { rewrite Hs at 1. rewrite app_assoc.
      rewrite firstn_app, length_app, Hlen.
      replace (pos + length pre - (pos + length pre))%nat with O by lia.
      rewrite firstn_all2 by (rewrite length_app; lia).
      cbn. apply app_nil_r. }
    assert (Hrest : skipn (pos + length pre + length [c]) result = post).
    { rewrite Hs at 1. rewrite app_assoc.
      rewrite skipn_app, length_app, Hlen.
      rewrite skipn_all2 by (rewrite length_app; cbn; lia).
      cbn [length app].
      replace (pos + length pre + 1 - (pos + length pre))%nat with 1%nat
        by lia.
      reflexivity. }
    rewrite Hfirst, Hrest. intros H.
    apply IH in H.
    + rewrite H. rewrite Hs at 2.
      rewrite !without_char_app, without_char_cons_same.
      rewrite app_assoc. reflexivity.
    + rewrite !length_app, Hlen. lia.
    + rewrite firstn_app, length_app, Hlen, Nat.sub_diag.
      rewrite firstn_all2 by (rewrite length_app; lia).
      cbn [firstn]. rewrite app_nil_r.
      intros Hin. apply in_app_or in Hin as [Hin|Hin]; tauto.
  - intros H; inversion H; subst.
    assert (Hall : ~ In c r).
    { rewrite <- (firstn_skipn pos r). intros Hin.
      apply in_app_or in Hin as [Hin|Hin]; tauto. }
    symmetry. apply without_char_absent. exact Hall.
Qed.

(** X16.  [Calculator<std::string>::subtract(a, b)] with a non-empty [b]
    returns: the loop ends within [length a + 1] evaluations of its
    condition and throws nothing.  The result is [a] with copies of [b] cut
    out one after the other, so it is [a] shortened by a whole number of
    copies of [b]; it is [a] itself when [b] does not occur in [a], and it
    is shorter than [a] when [b] does occur.  When [b] is one character the
    result is [a] without that character: every occurrence is removed. *)
Theorem subtract_returns_for_nonempty_pattern (a b : str) (fuel : nat) :
  b <> [] ->
  (length a < fuel)%nat ->
  exists result k,
    subtract fuel a b = Finished result
    /\ cut_out b a result
    /\ (length a = length result + k * length b)%nat
    /\ (find a b 0 = None -> result = a)
    /\ (find a b 0 <> None -> (length result < length a)%nat)
    /\ (forall c, b = [c] -> result = without_char c a).
Proof.
  intros Hb Hfuel.
  destruct (subtract_loop_ends b Hb fuel a 0 Hfuel) as (r & k & E & Hk).
  exists r, k. split; [exact E|].
  split; [eapply subtract_loop_cuts; exact E|]. split; [exact Hk|].
  unfold subtract in E. destruct fuel as [|fuel]; [lia|].
  split; [|split].
  - intros Hnone. cbn [subtract_loop] in E. rewrite Hnone in E.
    inversion E; reflexivity.
  - cbn [subtract_loop] in E.
    intros Hsome. destruct (find a b 0) as [q|] eqn:Ef; [|congruence].
    destruct (erase_found _ _ _ _ Ef) as (a' & Ea & Hlen).
    rewrite Ea in E.
    destruct (cut_out_length _ _ _ (subtract_loop_cuts _ _ _ _ _ E))
      as [k' Hk'].
    assert (0 < length b)%nat by (destruct b; cbn; [congruence|lia]).
    lia.
  - intros c ->.
    apply (subtract_loop_char c (S fuel) a 0%nat r); [lia| |exact E].
    intros [].
Qed.

Lemma subtract_returns_for_nonempty_pattern_witness :
  subtract 12 (list_ascii_of_string "Hello World") (list_ascii_of_string "o")
  = Finished (list_ascii_of_string "Hell Wrld")
  /\ exists result k,
       subtract 12 (list_ascii_of_string "Hello World")
         (list_ascii_of_string "o") = Finished result
       /\ cut_out (list_ascii_of_string "o")
            (list_ascii_of_string "Hello World") result
       /\ (11 = length result + k * 1)%nat
       /\ result = list_ascii_of_string "Hell Wrld".
Proof.
  split; [reflexivity|].
  destruct (subtract_returns_for_nonempty_pattern
              (list_ascii_of_string "Hello World")
              (list_ascii_of_string "o") 12
              ltac:(discriminate) ltac:(cbn; lia))
    as (result & k & E & Hcut & Hk & _ & _ & Hchar).
  exists result, k. split; [exact E|]. split; [exact Hcut|].
  split; [exact Hk|]. exact (Hchar _ eq_refl).
Defined.

(** X17.  With an empty [b] the loop of [subtract] never ends: [find]
    reports a match at position 0, [erase] removes nothing, and the
    condition holds again, so no number of iterations completes the call,
    whatever [a] is. *)
Theorem subtract_hangs_on_empty_pattern (a : str) (fuel : nat) :
  subtract fuel a [] = StillRunning
  /\ find a [] 0 = Some 0%nat
  /\ erase a 0 (length (@nil ascii)) = Some a.
Proof.
  split; [apply subtract_loop_spins|].
  split; [apply find_empty_pattern|apply erase_nothing].
Qed.

(** The result may still contain [b]: erasing can join the characters on
    either side into a new occurrence that lies before the position the
    search goes on from. *)
Example subtract_can_leave_an_occurrence :
  subtract 5 (list_ascii_of_string "aabb") (list_ascii_of_string "ab")
  = Finished (list_ascii_of_string "ab").
Proof. reflexivity. Qed.

End StringCalculatorFacts.

(* ================================================================= *)
(** ** Step 3 is the ThreadSafeQueue demo with five items *)

Module Step3Facts.
Import Step3.

Lemma forall2_nth_error (cs : list consumer_state)
    (ds : list Demo.consumer_state) (k : nat) (c : consumer_state) :
  Forall2 same_consumer cs ds -> nth_error cs k = Some c ->
  exists d, nth_error ds k = Some d /\ same_consumer c d.
Proof.
  intros H; revert k; induction H as [|c0 d0 cs ds Hcd H IH];
    intros [|k]; cbn; try discriminate.
  - intros E; inversion E; subst. eauto.
  - apply IH.
Qed.

Lemma forall2_nth_error_rev (cs : list consumer_state)
    (ds : list Demo.consumer_state) (k : nat) (d : Demo.consumer_state) :
  Forall2 same_consumer cs ds -> nth_error ds k = Some d ->
  exists c, nth_error cs k = Some c /\ same_consumer c d.
Proof.
  intros H; revert k; induction H as [|c0 d0 cs ds Hcd H IH];
    intros [|k]; cbn; try discriminate.
  - intros E; inversion E; subst. eauto.
  - apply IH.
Qed.

Lemma forall2_set_nth (cs : list consumer_state)
    (ds : list Demo.consumer_state) (k : nat)
    (c : consumer_state) (d : Demo.consumer_state) :
  Forall2 same_consumer cs ds -> same_consumer c d ->
  Forall2 same_consumer (Demo.set_nth k c cs) (Demo.set_nth k d ds).
Proof.
  intros H Hcd; revert k; induction H as [|c0 d0 cs ds Hcd0 H IH];
    intros [|k]; cbn; constructor; auto.
Qed.

Lemma init_matches : matches init_sys (Demo.init_sys [0; 0]).
Proof.
  unfold matches; cbn. repeat split; auto.
  repeat constructor.
Qed.

(** Every step of step 3 is the same thread's step in the demo. *)
Lemma step_matches (th : thread) (s s' : sys) (d : Demo.sys) :
  matches s d -> step th s = Some s' ->
  exists d', Demo.step 5 (as_thread th) d = Some d' /\ matches s' d'.
Proof.
  destruct s as [[b fin] p cs ev], d as [q p' ds ev'].
  unfold matches; cbn. intros (-> & Hp & Hc & <-).
  destruct th as [|k]; cbn.
  - destruct p as [i|]; [|discriminate].
    destruct p' as [i'|]; cbn in Hp; [subst i'|contradiction].
    unfold producer_step, Demo.producer_step.
    destruct (i <=? 5); cbn; intros H; inversion H; subst;
      eexists; (split; [reflexivity|]); cbn; repeat split; auto.
  - destruct (nth_error cs k) as [[n|n]|] eqn:Hk; try discriminate.
    destruct (forall2_nth_error _ _ _ _ Hc Hk) as (c' & Hk' & Hsame).
    rewrite Hk'. destruct c' as [item n'|item n']; cbn in Hsame;
      [subst n'|contradiction].
    destruct b as [|x rest]; [destruct fin|]; cbn;
      intros H; inversion H; subst;
      eexists; (split; [reflexivity|]); cbn; repeat split; auto;
      apply forall2_set_nth; cbn; auto.
Qed.

(** And the demo can move exactly when step 3 can. *)
Lemma step_matches_rev (th : thread) (s : sys) (d d' : Demo.sys) :
  matches s d -> Demo.step 5 (as_thread th) d = Some d' ->
  exists s', step th s = Some s'.
Proof.
  destruct s as [[b fin] p cs ev], d as [q p' ds ev'].
  unfold matches; cbn. intros (-> & Hp & Hc & <-).
  destruct th as [|k]; cbn.
  - destruct p' as [i'|]; [|discriminate].
    destruct p as [i|]; cbn in Hp; [subst i'|contradiction].
    unfold producer_step. destruct (i <=? 5); cbn; eauto.
  - destruct (nth_error ds k) as [[item n|item n]|] eqn:Hk; try discriminate.
    destruct (forall2_nth_error_rev _ _ _ _ Hc Hk) as (c & Hk' & Hsame).
    rewrite Hk'. destruct c as [n'|n']; cbn in Hsame; [|contradiction].
    destruct b as [|x rest]; [destruct fin|]; cbn; eauto; discriminate.
Qed.

Lemma run_matches (sched : list thread) :
  forall s s' d,
    matches s d -> run sched s = Some s' ->
    exists d', Demo.run 5 (map as_thread sched) d = Some d' /\ matches s' d'.
Proof.
  induction sched as [|th sched IH]; intros s s' d Hm H; cbn in *.
  - inversion H; subst. eauto.
  - destruct (step th s) as [s1|] eqn:E; [|discriminate].
    destruct (step_matches _ _ _ _ Hm E) as (d1 & -> & Hm1). eauto.
Qed.

Lemma matches_terminated (s : sys) (d : Demo.sys) :
  matches s d -> Demo.terminated d = terminated s.
Proof.
  unfold matches, terminated, Demo.terminated.
  intros (_ & Hp & Hc & _). f_equal.
  - destruct (prod s), (Demo.prod d); cbn in *;
      try reflexivity; contradiction.
  - induction Hc as [|c c' cs ds Hcc Hc IH]; cbn; [reflexivity|].
    rewrite IH. f_equal.
    destruct c, c'; cbn in *; try reflexivity; contradiction.
Qed.

Lemma matches_total_count (s : sys) (d : Demo.sys) :
  matches s d -> DemoAccounting.total_count d = total_count s.
Proof.
  unfold matches, total_count, DemoAccounting.total_count.
  intros (_ & _ & Hc & _).
  induction Hc as [|c c' cs ds Hcc Hc IH]; cbn; [reflexivity|].
  rewrite IH. f_equal. destruct c, c'; cbn in *; tauto || congruence.
Qed.

(** X18.  Step 3 (one producer of 1..5, two consumers, a condition
    variable) delivers every item once and in order, under every schedule:
    when all three threads have returned, the pops, in the order they
    happened, delivered [1; 2; 3; 4; 5], the buffer is empty ("Final buffer
    size: 0") and the two consumers' totals add up to 5. *)
Theorem step3_delivers_all_five (sched : list thread) (s : sys) :
  run sched init_sys = Some s ->
  terminated s = true ->
  map snd (consumed s) = [1; 2; 3; 4; 5]
  /\ shared_buffer (mem s) = []
  /\ total_count s = 5.
Proof.
  intros Hrun Ht.
  destruct (run_matches _ _ _ _ init_matches Hrun) as (d & Hd & Hm).
  pose proof (matches_terminated _ _ Hm) as Et. rewrite Ht in Et.
  pose proof (matches_total_count _ _ Hm) as Ec.
  destruct Hm as (Hq & _ & _ & Hev).
  assert (Hne : [0; 0] <> @nil Z) by discriminate.
  split; [|split].
  - rewrite Hev.
    apply (DemoFacts.fifo_any_number_of_consumers 5 [0; 0] _ d Hne Hd Et).
  - pose proof (DemoMore.terminated_queue_empty 5 [0; 0] _ d Hne Hd Et) as E.
    rewrite Hq in E. exact E.
  - rewrite <- Ec.
    pose proof (DemoMore.run_counts _ _ _ _ Hd
                  (DemoMore.init_counts [0; 0])) as [_ Htot].
    rewrite Htot, <- Hev, <- (length_map snd (consumed s)), Hev.
    rewrite (DemoFacts.fifo_any_number_of_consumers 5 [0; 0] _ d Hne Hd Et).
    reflexivity.
Qed.

Lemma step3_delivers_all_five_witness :
  run [Producer; Consumer 1; Producer; Producer; Consumer 0; Consumer 1;
       Producer; Producer; Producer; Consumer 0; Consumer 0; Consumer 1;
       Consumer 0] init_sys
  = Some (mkSys (mkShared [] true) PDone [CDone 3; CDone 2]
            [(1%nat, 1); (0%nat, 2); (1%nat, 3); (0%nat, 4); (0%nat, 5)])
  /\ total_count (mkSys (mkShared [] true) PDone [CDone 3; CDone 2]
                    [(1%nat, 1); (0%nat, 2); (1%nat, 3); (0%nat, 4);
                     (0%nat, 5)]) = 5.
Proof.
  assert (R : run [Producer; Consumer 1; Producer; Producer; Consumer 0;
                   Consumer 1; Producer; Producer; Producer; Consumer 0;
                   Consumer 0; Consumer 1; Consumer 0] init_sys
              = Some (mkSys (mkShared [] true) PDone [CDone 3; CDone 2]
                        [(1%nat, 1); (0%nat, 2); (1%nat, 3); (0%nat, 4);
                         (0%nat, 5)]))
    by (vm_compute; reflexivity).
  split; [exact R|].
  exact (proj2 (proj2 (step3_delivers_all_five _ _ R eq_refl))).
Defined.


End Step3Facts.

(* ================================================================= *)
(** ** Step 2: step 3 with spinning in place of waiting *)

Module Step2Facts.
Import Step3 Step3Facts.

Lemma set_nth_same {A : Type} (k : nat) (x : A) (l : list A) :
  nth_error l k = Some x -> Demo.set_nth k x l = l.
Proof.
  revert k; induction l as [|y l IH]; intros [|k]; cbn; try discriminate.
  - intros H; inversion H; reflexivity.
  - intros H. f_equal. apply IH. exact H.
Qed.

(** A step of step 2 is the same step of step 3, or changes nothing. *)
Lemma step_is_step3_or_spin (th : thread) (s s' : sys) :
  Step2.step th s = Some s' -> step th s = Some s' \/ s' = s.
Proof.
  destruct s as [[b fin] p cs ev]. destruct th as [|k]; cbn.
  - destruct p as [i|]; [|discriminate].
    unfold Step2.producer_step, producer_step.
    destruct (i <=? 5); cbn; auto.
  - destruct (nth_error cs k) as [[n|n]|] eqn:Hk; try discriminate.
    destruct b as [|x rest]; [destruct fin|]; cbn; auto.
    intros H; inversion H; subst. right.
    rewrite app_nil_r, (set_nth_same _ _ _ Hk). reflexivity.
Qed.

Lemma run_reaches_step3_state (sched : list thread) :
  forall s s',
    Step2.run sched s = Some s' ->
    exists sched', run sched' s = Some s'.
Proof.
  induction sched as [|th sched IH]; intros s s' H; cbn in H.
  - inversion H; subst. exists []. reflexivity.
  - destruct (Step2.step th s) as [s1|] eqn:E; [|discriminate].
    destruct (IH _ _ H) as [sched' Hrun].
    destruct (step_is_step3_or_spin _ _ _ E) as [E3| ->].
    + exists (th :: sched'). cbn. rewrite E3. exact Hrun.
    + exists sched'. exact Hrun.
Qed.

(** X20.  Step 2 (mutex only, two polling consumers) delivers every item
    once and in order, under every schedule: when all three threads have
    returned, the pops, in the order they happened, delivered
    [1; 2; 3; 4; 5], the buffer is empty and the two consumers' totals add
    up to 5. *)
Theorem step2_delivers_all_five (sched : list thread) (s : sys) :
  Step2.run sched init_sys = Some s ->
  terminated s = true ->
  map snd (consumed s) = [1; 2; 3; 4; 5]
  /\ shared_buffer (mem s) = []
  /\ total_count s = 5.
Proof.
  intros Hrun Ht.
  destruct (run_reaches_step3_state _ _ _ Hrun) as [sched' Hrun'].
  destruct (run_matches _ _ _ _ init_matches Hrun') as (d & Hd & Hm).
  pose proof (matches_terminated _ _ Hm) as Et. rewrite Ht in Et.
  pose proof (matches_total_count _ _ Hm) as Ec.
  destruct Hm as (Hq & _ & _ & Hev).
  assert (Hne : [0; 0] <> @nil Z) by discriminate.
  pose proof (DemoFacts.fifo_any_number_of_consumers 5 [0; 0] _ d Hne Hd Et)
    as Hfifo.
  split; [|split].
  - rewrite Hev. exact Hfifo.
  - pose proof (DemoMore.terminated_queue_empty 5 [0; 0] _ d Hne Hd Et) as E.
    rewrite Hq in E. exact E.
  - rewrite <- Ec.
    pose proof (DemoMore.run_counts _ _ _ _ Hd
                  (DemoMore.init_counts [0; 0])) as [_ Htot].
    rewrite Htot, <- (length_map snd (Demo.consumed d)), Hfifo.
    reflexivity.
Qed.

Lemma step2_delivers_all_five_witness :
  Step2.run [Consumer 0; Producer; Consumer 1; Consumer 1; Producer;
             Producer; Consumer 0; Consumer 1; Producer; Producer; Producer;
             Consumer 0; Consumer 0; Consumer 1; Consumer 0] init_sys
  = Some (mkSys (mkShared [] true) PDone [CDone 3; CDone 2]
            [(1%nat, 1); (0%nat, 2); (1%nat, 3); (0%nat, 4); (0%nat, 5)])
  /\ total_count (mkSys (mkShared [] true) PDone [CDone 3; CDone 2]
                    [(1%nat, 1); (0%nat, 2); (1%nat, 3); (0%nat, 4);
                     (0%nat, 5)]) = 5.
Proof.
  assert (R : Step2.run [Consumer 0; Producer; Consumer 1; Consumer 1;
                         Producer; Producer; Consumer 0; Consumer 1;
                         Producer; Producer; Producer; Consumer 0;
                         Consumer 0; Consumer 1; Consumer 0] init_sys
              = Some (mkSys (mkShared [] true) PDone [CDone 3; CDone 2]
                        [(1%nat, 1); (0%nat, 2); (1%nat, 3); (0%nat, 4);
                         (0%nat, 5)]))
    by (vm_compute; reflexivity).
  split; [exact R|].
  exact (proj2 (proj2 (step2_delivers_all_five _ _ R eq_refl))).
Defined.

Lemma step2_spin_consumer (k : nat) (n : nat) (s : sys) :
  shared_buffer (mem s) = [] -> producer_done (mem s) = false ->
  Step2.returned (Consumer k) s = false ->
  Step2.run (repeat (Consumer k) n) s = Some s.
Proof.
  intros Hb Hd Hr. induction n as [|n IH]; [reflexivity|].
  cbn [repeat Step2.run].
  assert (E : Step2.step (Consumer k) s = Some s).
  { destruct s as [[b d] p cs ev]; cbn in *; subst.
    destruct (nth_error cs k) as [[m|m]|] eqn:Hk; try discriminate.
    cbn. rewrite app_nil_r, (set_nth_same _ _ _ Hk). reflexivity. }
  rewrite E. exact IH.
Qed.

(** X21.  Step 2 never suspends a thread, it spins: every thread that has
    not returned can take a step in every state, and a consumer that finds
    the buffer empty before the producer is done can go round its loop any
    number of times with nothing changed, where the same consumer of step 3
    is suspended. *)
Theorem step2_consumers_spin (s : sys) (k n : nat) :
  (forall th, Step2.step th s = None <-> Step2.returned th s = true)
  /\ (shared_buffer (mem s) = [] -> producer_done (mem s) = false ->
      Step2.returned (Consumer k) s = false ->
      Step2.run (repeat (Consumer k) n) s = Some s
      /\ step (Consumer k) s = None).
Proof.
  split.
  - intros th. destruct s as [[b d] p cs ev]. destruct th as [|j]; cbn.
    + destruct p as [i|]; [|tauto].
      unfold Step2.producer_step. destruct (i <=? 5); cbn;
        split; discriminate.
    + destruct (nth_error cs j) as [[m|m]|]; try tauto.
      destruct b as [|item rest]; [destruct d|]; cbn; split; discriminate.
  - intros Hb Hd Hr. split; [apply step2_spin_consumer; assumption|].
    destruct s as [[b d] p cs ev]; cbn in *; subst.
    destruct (nth_error cs k) as [[m|m]|]; try discriminate. reflexivity.
Qed.

Lemma step2_consumers_spin_witness :
  Step2.run (repeat (Consumer 1) 9) init_sys = Some init_sys
  /\ step (Consumer 1) init_sys = None.
Proof.
  exact (proj2 (step2_consumers_spin init_sys 1 9) eq_refl eq_refl eq_refl).
Defined.

End Step2Facts.

(* ================================================================= *)
(** ** Wait sets: what notifications do to them *)

Module WaitSetFacts.
Import WaitSet.

Section WithTypes.
Variables CV TID : Type.
Variable cv_eqb : CV -> CV -> bool.
Variable tid_eqb : TID -> TID -> bool.
Hypothesis tid_eqb_eq : forall a b, tid_eqb a b = true <-> a = b.

Lemma remove_first_subset (p : CV * TID -> bool) (l : list (CV * TID)) :
  forall e, In e (remove_first p l) -> In e l.
Proof.
  induction l as [|x l IH]; cbn; [auto|].
  intros e. destruct (p x); cbn; [auto|]. intros [->|H]; auto.
Qed.

Lemma remove_first_nodup (p : CV * TID -> bool) (l : list (CV * TID)) :
  NoDup (map snd l) -> NoDup (map snd (remove_first p l)).
Proof.
  induction l as [|x l IH]; cbn; [auto|].
  intros H. inversion H as [|y ys Hnin Hnd]; subst.
  destruct (p x); cbn; [exact Hnd|].
  constructor; [|auto].
  intros Hin. apply Hnin. apply in_map_iff in Hin as (e & He & Hin).
  apply in_map_iff. exists e. split; [exact He|].
  eapply remove_first_subset; eauto.
Qed.

Lemma filter_nodup_snd (p : CV * TID -> bool) (l : list (CV * TID)) :
  NoDup (map snd l) -> NoDup (map snd (filter p l)).
Proof.
  induction l as [|x l IH]; cbn; [auto|].
  intros H. inversion H as [|y ys Hnin Hnd]; subst.
  destruct (p x); cbn; [|auto].
  constructor; [|auto].
  intros Hin. apply Hnin. apply in_map_iff in Hin as (e & He & Hin).
  apply in_map_iff. exists e. split; [exact He|].
  apply filter_In in Hin. tauto.
Qed.

(** Removing the first sleeper that satisfies [p] wakes that sleeper. *)
Lemma remove_first_wakes (p : CV * TID -> bool) (l : list (CV * TID)) :
  NoDup (map snd l) -> existsb p l = true ->
  exists e, In e l /\ p e = true
            /\ ~ In (snd e) (map snd (remove_first p l)).
Proof.
  induction l as [|x l IH]; cbn; [discriminate|].
  intros H Hex. inversion H as [|y ys Hnin Hnd]; subst.
  destruct (p x) eqn:Hp.
  - exists x. auto.
  - cbn in Hex. destruct (IH Hnd Hex) as (e & He & Hpe & Hout).
    exists e. split; [auto|]. split; [exact Hpe|].
    cbn. intros [Hx|Hin]; [|auto].
    apply Hnin. rewrite Hx. apply in_map. exact He.
Qed.

Lemma sleeping_In {St : Type} (th : TID) (m : mon St CV TID) :
  sleeping tid_eqb th m = true <-> In th (map snd (asleep m)).
Proof.
  unfold sleeping. rewrite existsb_exists. split.
  - intros (e & He & Heq). apply tid_eqb_eq in Heq. subst th.
    apply in_map. exact He.
  - intros Hin. apply in_map_iff in Hin as (e & <- & He).
    exists e. split; [exact He|]. apply tid_eqb_eq. reflexivity.
Qed.

Lemma sleeping_false {St : Type} (th : TID) (m : mon St CV TID) :
  sleeping tid_eqb th m = false <-> ~ In th (map snd (asleep m)).
Proof.
  rewrite <- sleeping_In. destruct (sleeping tid_eqb th m); split;
    congruence.
Qed.

Lemma after_notify_one_subset (cv : CV) (pick : TID) (l : list (CV * TID)) :
  forall e, In e (after_notify_one cv_eqb tid_eqb cv pick l) -> In e l.
Proof.
  unfold after_notify_one. intros e.
  destruct (existsb _ l); apply remove_first_subset.
Qed.

Lemma after_notify_one_nodup (cv : CV) (pick : TID) (l : list (CV * TID)) :
  NoDup (map snd l) ->
  NoDup (map snd (after_notify_one cv_eqb tid_eqb cv pick l)).
Proof.
  unfold after_notify_one. destruct (existsb _ l); apply remove_first_nodup.
Qed.

(** [notify_one] does wake a sleeper on [cv] when there is one. *)
Lemma after_notify_one_wakes (cv : CV) (pick : TID) (l : list (CV * TID)) :
  NoDup (map snd l) -> existsb (waits_on cv_eqb cv) l = true ->
  exists e, In e l /\ waits_on cv_eqb cv e = true
            /\ ~ In (snd e)
                 (map snd (after_notify_one cv_eqb tid_eqb cv pick l)).
Proof.
  intros Hnd Hex. unfold after_notify_one.
  destruct (existsb (is_entry cv_eqb tid_eqb cv pick) l) eqn:Hpick.
  - destruct (remove_first_wakes _ l Hnd Hpick) as (e & He & Hp & Hout).
    exists e. split; [exact He|]. split; [|exact Hout].
    unfold is_entry in Hp. apply andb_true_iff in Hp. tauto.
  - apply remove_first_wakes; assumption.
Qed.



Lemma awake_not_in {St : Type} (th : TID) (m : mon St CV TID)
    (e : CV * TID) :
  sleeping tid_eqb th m = false -> In e (asleep m) -> snd e <> th.
Proof.
  intros Hs He Heq. apply sleeping_false in Hs. apply Hs.
  rewrite <- Heq. apply in_map. exact He.
Qed.

End WithTypes.

End WaitSetFacts.

(* ================================================================= *)
(** ** The ThreadSafeQueue demo cannot hang: its notifications suffice *)

Module DemoWFacts.
Import Demo DemoW WaitSetFacts.











Lemma subset_of_nil {A : Type} (l : list A) :
  (forall e, In e l -> In e (@nil A)) -> l = [].
Proof.
  destruct l as [|x l]; [reflexivity|].
  intros H. destruct (H x (or_introl eq_refl)).
Qed.







Lemma w_run_app (n : Z) (evs1 evs2 : list event) :
  forall s s1 s2, run n evs1 s = Some s1 -> run n evs2 s1 = Some s2 ->
                  run n (evs1 ++ evs2) s = Some s2.
Proof.
  induction evs1 as [|ev evs1 IH]; intros s s1 s2 H1 H2; cbn in *.
  - inversion H1; subst; auto.
  - destruct (step n ev s) as [s'|]; [eauto|discriminate].
Qed.





(** A consumer that found the open queue empty is asleep: it takes no step
    of its own until a notification (or a spurious wake-up) removes it from
    the wait set. *)
Example sleeper_takes_no_step :
  run 2 [Run (Consumer 0) Producer; Run (Consumer 0) Producer]
    (init_sys [0]) = None
  /\ run 2 [Run (Consumer 0) Producer; Run Producer Producer;
            Run (Consumer 0) Producer] (init_sys [0])
     = Some (mkSys (WaitSet.mkMon (ThreadSafeQueue.mk [] false) [])
               (PLoop 2) [CLoop 1 1] [(0%nat, 1)]).
Proof. split; vm_compute; reflexivity. Qed.




End DemoWFacts.


(* ================================================================= *)
(** ** efficient_version: the wake-ups *)

Module EfficientWFacts.
Import Efficient EfficientInv EfficientW WaitSetFacts.


Lemma ew_condvar_eqb_eq (a b : condvar) : condvar_eqb a b = true <-> a = b.
Proof. destruct a, b; cbn; split; congruence. Qed.



















(** Each thread that found its predicate false is asleep until the other
    one notifies it: the consumer that came first takes no second step,
    and the producer's [notify_one] makes it runnable again. *)
Example ew_sleeper_takes_no_step :
  run [Run Consumer Producer; Run Consumer Producer] init_sys = None
  /\ run [Run Consumer Producer; Run Producer Producer;
          Run Consumer Producer] init_sys
     = Some (mkSys (WaitSet.mkMon (mkShared [] false) [])
               (PLoop 2) (CLoop 1) [1]).
Proof. split; vm_compute; reflexivity. Qed.




End EfficientWFacts.


(* ================================================================= *)
(** ** Step 3 of the tutorial: the wake-ups *)

Module Step3WFacts.
Import Step3 Step3W WaitSetFacts.

Lemma s3_thread_eqb_eq (a b : thread) : thread_eqb a b = true <-> a = b.
Proof.
  destruct a as [|j], b as [|k]; cbn; split; try congruence; auto.
  - intros H. apply Nat.eqb_eq in H. congruence.
  - intros H. inversion H. apply Nat.eqb_refl.
Qed.

Lemma s3_awake_iff (th : thread) (m : WaitSet.mon shared condvar thread) :
  WaitSet.sleeping thread_eqb th m = false
  <-> ~ In th (map snd (WaitSet.asleep m)).
Proof. apply (sleeping_false _ _ _ s3_thread_eqb_eq). Qed.

Lemma s3_all_wait_on_condition (l : list (condvar * thread)) :
  WaitSet.after_notify_all condvar_eqb buffer_condition l = [].
Proof. induction l as [|e l IH]; cbn; auto. Qed.

Lemma s3_someone_waits (l : list (condvar * thread)) :
  l <> [] ->
  existsb (WaitSet.waits_on condvar_eqb buffer_condition) l = true.
Proof. destruct l; [congruence|reflexivity]. Qed.

Lemma s3_step_transition (ev : event) (s s' : sys) :
  step ev s = Some s' -> transition s ev s'.
Proof.
  destruct ev as [th pick|th]; cbn [step].
  - destruct (WaitSet.sleeping thread_eqb th (mon s)) eqn:Hs;
      [discriminate|].
    destruct th as [|k].
    + destruct (prod s) as [i|i| |] eqn:Hp; [| | |discriminate].
      * unfold producer_step.
        destruct (Z.leb_spec i 5) as [Hi|Hi]; cbn;
          intros H; inversion H; subst.
        -- apply s3_push; assumption.
        -- apply (s3_set_done s i); assumption.
      * cbn. intros H; inversion H; subst.
        apply s3_notify_one; assumption.
      * cbn. intros H; inversion H; subst.
        apply s3_notify_all; assumption.
    + destruct (nth_error (cons s) k) as [[n|n]|] eqn:Hk;
        try discriminate.
      unfold consumer_step, WaitSet.bind, WaitSet.wait, WaitSet.get.
      destruct s as [[[[|x rest] fin] A] p cs evs]; cbn in *.
      * destruct fin; cbn; intros H; inversion H; subst.
        -- rewrite app_nil_r.
           apply (s3_break
                    (mkSys (WaitSet.mkMon (mkShared [] true) A) p cs evs)
                    k pick n); auto.
        -- apply (s3_sleep
                    (mkSys (WaitSet.mkMon (mkShared [] false) A) p cs evs)
                    k pick n); auto.
      * destruct fin; cbn; intros H; inversion H; subst;
          apply (s3_pop
                   (mkSys (WaitSet.mkMon (mkShared (x :: rest) _) A)
                      p cs evs)
                   k pick n); auto.
  - destruct (WaitSet.sleeping thread_eqb th (mon s)) eqn:Hs;
      [|discriminate].
    intros H; inversion H; subst. apply s3_spurious. exact Hs.
Qed.

Lemma s3_transition_step (ev : event) (s s' : sys) :
  transition s ev s' -> step ev s = Some s'.
Proof.
  intros H;
    destruct H as [s i pick Hs Hp Hi|s i pick Hs Hp|s i pick Hs Hp Hi
                  |s pick Hs Hp|s k pick n item rest Hs Hk Hb
                  |s k pick n Hs Hk Hb Hd|s k pick n Hs Hk Hb Hd|s th Hs];
    cbn [step]; rewrite Hs; try reflexivity.
  - rewrite Hp. unfold producer_step.
    destruct (Z.leb_spec i 5); [reflexivity|lia].
  - rewrite Hp. reflexivity.
  - rewrite Hp. unfold producer_step.
    destruct (Z.leb_spec i 5); [lia|reflexivity].
  - rewrite Hp. reflexivity.
  - rewrite Hk. destruct s as [[[l fin] A] p cs evs]; cbn in *; subst l.
    unfold consumer_step, WaitSet.bind, WaitSet.wait, WaitSet.get.
    cbn. destruct fin; reflexivity.
  - rewrite Hk. destruct s as [[[l fin] A] p cs evs]; cbn in *; subst l fin.
    unfold consumer_step, WaitSet.bind, WaitSet.wait, WaitSet.get.
    cbn. rewrite app_nil_r. reflexivity.
  - rewrite Hk. destruct s as [[[l fin] A] p cs evs]; cbn in *; subst l fin.
    reflexivity.
Qed.

(** Without its wait set a move is the same thread's step in the program
    as modelled above, or no move. *)
Lemma s3_transition_erase (ev : event) (s s' : sys) :
  transition s ev s' ->
  (exists th, Step3.step th (erase s) = Some (erase s'))
  \/ erase s' = erase s.
Proof.
  intros H;
    destruct H as [s i pick Hs Hp Hi|s i pick Hs Hp|s i pick Hs Hp Hi
                  |s pick Hs Hp|s k pick n item rest Hs Hk Hb
                  |s k pick n Hs Hk Hb Hd|s k pick n Hs Hk Hb Hd|s th Hs].
  - left. exists Producer. unfold erase; cbn. rewrite Hp.
    unfold Step3.producer_step.
    destruct (Z.leb_spec i 5); [reflexivity|lia].
  - right. unfold erase; cbn. rewrite Hp. reflexivity.
  - left. exists Producer. unfold erase; cbn. rewrite Hp.
    unfold Step3.producer_step.
    destruct (Z.leb_spec i 5); [lia|reflexivity].
  - right. unfold erase; cbn. rewrite Hp. reflexivity.
  - left. exists (Consumer k). unfold erase; cbn. rewrite Hk.
    destruct s as [[[l fin] A] p cs evs]; cbn in *; subst l.
    unfold Step3.consumer_step, Monitor.bind, Monitor.wait, Monitor.get.
    cbn. destruct fin; reflexivity.
  - left. exists (Consumer k). unfold erase; cbn. rewrite Hk.
    destruct s as [[[l fin] A] p cs evs]; cbn in *; subst l fin.
    unfold Step3.consumer_step, Monitor.bind, Monitor.wait, Monitor.get.
    cbn. rewrite app_nil_r. reflexivity.
  - right. reflexivity.
  - right. reflexivity.
Qed.

Lemma s3_init_data_inv : data_inv init_sys.
Proof.
  split; cbn; [reflexivity|].
  intros [|[|[|k]]] n; cbn; discriminate.
Qed.

Lemma s3_init_wait_inv : wait_inv init_sys.
Proof.
  unfold wait_inv; cbn. split; [constructor|].
  split; [intros e []|]. split; [reflexivity|]. congruence.
Qed.

Lemma s3_transition_data_inv (ev : event) (s s' : sys) :
  transition s ev s' -> data_inv s -> data_inv s'.
Proof.
  unfold data_inv.
  intros H;
    destruct H as [s i pick Hs Hp Hi|s i pick Hs Hp|s i pick Hs Hp Hi
                  |s pick Hs Hp|s k pick n item rest Hs Hk Hb
                  |s k pick n Hs Hk Hb Hd|s k pick n Hs Hk Hb Hd|s th Hs];
    cbn [mon prod cons consumed WaitSet.data WaitSet.asleep WaitSet.wake
         producer_done]; try rewrite Hp; intros [H1 H2];
    try (split; [tauto|exact H2]).
  - split; [reflexivity|]. intros; reflexivity.
  - split; [exact H1|]. intros k' n' Hk'.
    destruct (Nat.eq_dec k k') as [->|Hne].
    + rewrite (DemoFacts.nth_error_set_nth_same _ _ _ _ Hk) in Hk'.
      discriminate.
    + rewrite DemoFacts.nth_error_set_nth_other in Hk' by assumption.
      eauto.
  - split; [exact H1|]. intros; exact Hd.
Qed.

(** Until the flag is set every consumer is still in its loop. *)
Lemma s3_open_consumers_loop (s : sys) :
  data_inv s -> producer_done (WaitSet.data (mon s)) = false ->
  forall k c, nth_error (cons s) k = Some c -> exists n, c = CLoop n.
Proof.
  intros [_ Hd] Hf k c Hk. destruct c as [n|n]; [eauto|].
  rewrite (Hd k n Hk) in Hf. discriminate.
Qed.

Lemma s3_sleeper_stays_in_loop (s : sys) (k : nat) (c : consumer_state) :
  WaitSet.sleeping thread_eqb (Consumer k) (mon s) = false ->
  (forall e, In e (WaitSet.asleep (mon s)) ->
     exists k' n,
       snd e = Consumer k' /\ nth_error (cons s) k' = Some (CLoop n)) ->
  forall e, In e (WaitSet.asleep (mon s)) ->
    exists k' n,
      snd e = Consumer k'
      /\ nth_error (Demo.set_nth k c (cons s)) k' = Some (CLoop n).
Proof.
  intros Hs H e He. destruct (H e He) as (k' & n & Hk' & Hn).
  exists k', n. split; [exact Hk'|].
  rewrite DemoFacts.nth_error_set_nth_other; [exact Hn|].
  intros ->. apply s3_awake_iff in Hs. apply Hs.
  rewrite <- Hk'. apply in_map. exact He.
Qed.

Lemma s3_transition_wait_inv (ev : event) (s s' : sys) :
  transition s ev s' -> data_inv s -> wait_inv s -> wait_inv s'.
Proof.
  intros H Hinv (Hnd & Hloop & Hfin & Hawake).
  pose proof Hinv as [Hpinv _].
  unfold wait_inv.
  destruct H as [s i pick Hs Hp Hi|s i pick Hs Hp|s i pick Hs Hp Hi
                |s pick Hs Hp|s k pick n item rest Hs Hk Hb
                |s k pick n Hs Hk Hb Hd|s k pick n Hs Hk Hb Hd|s th Hs];
    cbn [mon prod cons consumed WaitSet.data WaitSet.asleep
         shared_buffer producer_done WaitSet.wake].
  - (* push *)
    split; [exact Hnd|]. split; [exact Hloop|].
    split; [discriminate|].
    intros _ _ Hno. destruct (Hno i eq_refl).
  - (* notify_one *)
    rewrite Hp in Hpinv. destruct Hpinv as [Hopen _].
    split; [apply after_notify_one_nodup; exact Hnd|].
    split; [intros e He; apply Hloop;
            eapply after_notify_one_subset; exact He|].
    split; [discriminate|].
    intros _ Hne _. unfold awake_in_loop; cbn [mon cons WaitSet.asleep].
    assert (Hcase : WaitSet.asleep (mon s) = []
                    \/ WaitSet.asleep (mon s) <> [])
      by (destruct (WaitSet.asleep (mon s)); [left|right]; congruence).
    destruct Hcase as [Ha|Ha].
    + destruct (cons s) as [|c cs] eqn:Hcs; [congruence|].
      assert (Hc : nth_error (cons s) 0 = Some c)
        by (rewrite Hcs; reflexivity).
      destruct (s3_open_consumers_loop s Hinv Hopen O c Hc) as [n ->].
      exists O. split; [cbn; eauto|]. apply s3_awake_iff.
      rewrite Ha. cbn. auto.
    + destruct (after_notify_one_wakes _ _ condvar_eqb thread_eqb
                  buffer_condition pick _ Hnd (s3_someone_waits _ Ha))
        as (e & He & _ & Hout).
      destruct (Hloop e He) as (k & n & Hk & Hn).
      exists k. split; [eauto|]. apply s3_awake_iff.
      rewrite <- Hk. exact Hout.
  - (* producer_done is set *)
    split; [exact Hnd|]. split; [exact Hloop|].
    split; [discriminate|].
    intros Hb Hne _. apply (Hawake Hb Hne). rewrite Hp. discriminate.
  - (* notify_all *)
    rewrite s3_all_wait_on_condition.
    split; [constructor|]. split; [intros e []|]. split; [reflexivity|].
    intros Hb Hne _.
    destruct (Hawake Hb Hne) as (k & Hk & _);
      [rewrite Hp; discriminate|].
    exists k. split; [exact Hk|]. apply s3_awake_iff. cbn. auto.
  - (* pop with an item *)
    split; [exact Hnd|].
    split; [apply s3_sleeper_stays_in_loop; assumption|].
    split; [exact Hfin|].
    intros _ _ _. exists k. unfold awake_in_loop; cbn [mon cons].
    split; [|exact Hs].
    rewrite (DemoFacts.nth_error_set_nth_same _ _ _ _ Hk). eauto.
  - (* break *)
    split; [exact Hnd|].
    split; [apply s3_sleeper_stays_in_loop; assumption|].
    split; [exact Hfin|]. congruence.
  - (* the buffer is empty: sleep *)
    split.
    { cbn [map snd]. constructor; [|exact Hnd].
      apply s3_awake_iff. exact Hs. }
    split.
    { intros e [<-|He]; [|auto]. exists k, n. auto. }
    split; [|congruence].
    intros Hpd. rewrite Hpd in Hpinv. congruence.
  - (* spurious wake-up *)
    split; [apply filter_nodup_snd; exact Hnd|].
    split; [intros e He; apply filter_In in He as [He _]; auto|].
    split; [intros Hf; rewrite (Hfin Hf); reflexivity|].
    intros Hq Hne Hno. destruct (Hawake Hq Hne Hno) as (k & Hk & Hsl).
    exists k. split; [exact Hk|].
    apply s3_awake_iff. apply s3_awake_iff in Hsl.
    cbn [mon WaitSet.asleep]. intros Hin. apply Hsl.
    apply in_map_iff in Hin as (e & He1 & He2).
    apply filter_In in He2 as [He2 _].
    apply in_map_iff. eauto.
Qed.

Lemma s3_step_invs (ev : event) (s s' : sys) :
  step ev s = Some s' -> data_inv s -> wait_inv s ->
  data_inv s' /\ wait_inv s'.
Proof.
  intros H Hinv Hw. apply s3_step_transition in H. split.
  - eapply s3_transition_data_inv; eauto.
  - eapply s3_transition_wait_inv; eauto.
Qed.

Lemma s3_run_invs (evs : list event) :
  forall s s', run evs s = Some s' -> data_inv s -> wait_inv s ->
               data_inv s' /\ wait_inv s'.
Proof.
  induction evs as [|ev evs IH]; intros s s' H Hinv Hw; cbn [run] in H.
  - inversion H; subst; auto.
  - destruct (step ev s) as [s1|] eqn:E; [|discriminate].
    destruct (s3_step_invs _ _ _ E Hinv Hw). eauto.
Qed.

Lemma s3_run_length_cons (evs : list event) :
  forall s s', run evs s = Some s' -> length (cons s') = length (cons s).
Proof.
  induction evs as [|ev evs IH]; intros s s' H; cbn [run] in H.
  - inversion H; subst; auto.
  - destruct (step ev s) as [s1|] eqn:E; [|discriminate].
    rewrite (IH _ _ H). apply s3_step_transition in E.
    destruct E; cbn; auto using DemoFacts.length_set_nth.
Qed.

(** Every state of the program with its wait set is, without it, a state
    of the program as modelled above. *)
Lemma s3_run_erase (evs : list event) :
  forall s s', run evs s = Some s' ->
               exists sched, Step3.run sched (erase s) = Some (erase s').
Proof.
  induction evs as [|ev evs IH]; intros s s' H; cbn [run] in H.
  - inversion H; subst. exists []. reflexivity.
  - destruct (step ev s) as [s1|] eqn:E; [|discriminate].
    destruct (IH _ _ H) as [sched Hs].
    apply s3_step_transition in E.
    destruct (s3_transition_erase _ _ _ E) as [[th Ht]|Heq].
    + exists (th :: sched). cbn [Step3.run]. rewrite Ht. exact Hs.
    + exists sched. rewrite <- Heq. exact Hs.
Qed.

Lemma s3_forallb_not_done (cs : list consumer_state) :
  forallb consumer_done cs = false ->
  exists k n, nth_error cs k = Some (CLoop n).
Proof.
  induction cs as [|c cs IH]; cbn; [discriminate|].
  destruct c as [n|n]; cbn.
  - intros _. exists O, n. reflexivity.
  - intros H. destruct (IH H) as (k & n' & Hk). exists (S k), n'. exact Hk.
Qed.

Lemma s3_still_looping_set_nth (k : nat) (c c' : consumer_state)
    (cs : list consumer_state) :
  nth_error cs k = Some c ->
  (length (filter (fun c => negb (consumer_done c)) (Demo.set_nth k c' cs))
   + (if consumer_done c then 0 else 1)
   = length (filter (fun c => negb (consumer_done c)) cs)
     + (if consumer_done c' then 0 else 1))%nat.
Proof.
  revert k; induction cs as [|d cs IH]; intros [|k]; cbn; try discriminate.
  - intros H; inversion H; subst.
    destruct (consumer_done c), (consumer_done c'); cbn; lia.
  - intros H. specialize (IH k H).
    destruct (consumer_done d); cbn; lia.
Qed.

(** The producer never waits. *)
Lemma s3_producer_awake (s : sys) :
  wait_inv s -> WaitSet.sleeping thread_eqb Producer (mon s) = false.
Proof.
  intros (_ & Hloop & _). apply s3_awake_iff. intros Hin.
  apply in_map_iff in Hin as (e & He & Hin).
  destruct (Hloop e Hin) as (k & _ & Hk & _). congruence.
Qed.

(** In a state that is not final a thread that is awake has a step to take
    that does not put it to sleep. *)
Lemma s3_progress (s : sys) :
  data_inv s -> wait_inv s -> terminated s = false ->
  exists th pick s',
    WaitSet.sleeping thread_eqb th (mon s) = false
    /\ step (Run th pick) s = Some s'
    /\ WaitSet.sleeping thread_eqb th (mon s') = false
    /\ (steps_left s' < steps_left s)%nat.
Proof.
  intros Hinv Hw Ht. pose proof Hinv as [Hp _].
  pose proof (s3_producer_awake s Hw) as Hpa.
  pose proof Hw as (Hnd & Hloop & Hfin & _).
  destruct (prod s) as [i|i| |] eqn:Hprod.
  - exists Producer, Producer. destruct (Z.le_gt_cases i 5) as [Hle|Hgt].
    + eexists. split; [exact Hpa|]. split.
      * apply s3_transition_step. apply (s3_push s i); auto.
      * split; [exact Hpa|].
        unfold steps_left.
        cbn [mon prod cons WaitSet.data shared_buffer].
        rewrite Hprod, length_app. cbn [length]. lia.
    + eexists. split; [exact Hpa|]. split.
      * apply s3_transition_step. apply (s3_set_done s i); auto.
      * split; [exact Hpa|].
        unfold steps_left.
        cbn [mon prod cons WaitSet.data shared_buffer].
        rewrite Hprod. lia.
  - destruct Hp as [_ Hi].
    exists Producer, Producer. eexists. split; [exact Hpa|]. split.
    + apply s3_transition_step. apply (s3_notify_one s i); auto.
    + split.
      * apply s3_awake_iff. cbn [mon WaitSet.asleep]. intros Hin.
        apply in_map_iff in Hin as (e & He & Hin).
        apply after_notify_one_subset in Hin.
        apply (awake_not_in _ _ thread_eqb s3_thread_eqb_eq _ _ _ Hpa Hin).
        exact He.
      * unfold steps_left.
        cbn [mon prod cons WaitSet.data shared_buffer].
        rewrite Hprod. lia.
  - exists Producer, Producer. eexists. split; [exact Hpa|]. split.
    + apply s3_transition_step. apply (s3_notify_all s); auto.
    + split.
      * apply s3_awake_iff. cbn [mon WaitSet.asleep].
        rewrite s3_all_wait_on_condition. cbn. auto.
      * unfold steps_left.
        cbn [mon prod cons WaitSet.data shared_buffer].
        rewrite Hprod. lia.
  - unfold terminated in Ht. rewrite Hprod in Ht. cbn in Ht.
    destruct (s3_forallb_not_done _ Ht) as (k & n & Hk).
    assert (Hs : WaitSet.sleeping thread_eqb (Consumer k) (mon s) = false)
      by (apply s3_awake_iff; rewrite (Hfin eq_refl); cbn; auto).
    exists (Consumer k), Producer.
    destruct (shared_buffer (WaitSet.data (mon s)))
      as [|item rest] eqn:Hb.
    + eexists. split; [exact Hs|]. split.
      * apply s3_transition_step. apply (s3_break s k _ n); auto.
      * split; [exact Hs|].
        unfold steps_left.
        cbn [mon prod cons WaitSet.data shared_buffer].
        pose proof (s3_still_looping_set_nth k _ (CDone n) _ Hk) as E.
        cbn in E. lia.
    + eexists. split; [exact Hs|]. split.
      * apply s3_transition_step. apply (s3_pop s k _ n item rest); auto.
      * split; [exact Hs|].
        unfold steps_left.
        cbn [mon prod cons WaitSet.data shared_buffer].
        rewrite Hb. cbn [length].
        pose proof (s3_still_looping_set_nth k _ (CLoop (n + 1)) _ Hk) as E.
        cbn in E. lia.
Qed.

(** From a state that satisfies the invariants the threads can run to
    their end on their own steps: no spurious wake-up is needed. *)
Lemma s3_can_finish (fuel : nat) :
  forall s,
    (steps_left s <= fuel)%nat -> data_inv s -> wait_inv s ->
    exists evs s',
      forallb is_run evs = true
      /\ run evs s = Some s'
      /\ terminated s' = true.
Proof.
  induction fuel as [|fuel IH]; intros s Hfuel Hinv Hw;
    destruct (terminated s) eqn:Ht;
    try (exists [], s; cbn; auto; fail);
    destruct (s3_progress s Hinv Hw Ht)
      as (th & pick & s1 & _ & H1 & _ & Hlt).
  - lia.
  - destruct (s3_step_invs _ _ _ H1 Hinv Hw) as [Hinv1 Hw1].
    destruct (IH s1 ltac:(lia) Hinv1 Hw1) as (evs & s' & Hr & Hrun & Hend).
    exists (Run th pick :: evs), s'. split; [exact Hr|].
    split; [|exact Hend]. cbn [run]. rewrite H1. exact Hrun.
Qed.

(** Between a push and its [notify_one] an item can be buffered while both
    consumers are asleep; the notification then wakes one of them. *)
Example s3_item_waits_for_notify_one :
  run [Run (Consumer 0) Producer; Run (Consumer 1) Producer;
       Run Producer Producer] init_sys
  = Some (mkSys
            (WaitSet.mkMon (mkShared [1] false)
               [(buffer_condition, Consumer 1);
                (buffer_condition, Consumer 0)])
            (PNotifyOne 1) [CLoop 0; CLoop 0] [])
  /\ run [Run (Consumer 0) Producer; Run (Consumer 1) Producer;
          Run Producer Producer; Run (Consumer 0) Producer] init_sys
     = None
  /\ run [Run (Consumer 0) Producer; Run (Consumer 1) Producer;
          Run Producer Producer; Run Producer (Consumer 0);
          Run (Consumer 0) Producer] init_sys
     = Some (mkSys
               (WaitSet.mkMon (mkShared [] false)
                  [(buffer_condition, Consumer 1)])
               (PLoop 2) [CLoop 1; CLoop 0] [(0%nat, 1)]).
Proof. repeat split; vm_compute; reflexivity. Qed.

(** X19. Step 3 of the tutorial with the wait set of [buffer_condition]
    modelled: a consumer whose [wait] finds the predicate false sleeps
    until [notify_one], [notify_all] or a spurious wake-up; both
    notifications of the producer are steps of their own, made after the
    lock is released.  In every state reached: without the wait set it is
    a state of the program as modelled above; once the producer has
    returned nobody is asleep (its notify_all); while an item is buffered
    some consumer inside its loop is awake, except between a push and its
    notify_one; unless every thread has returned, a thread that is awake
    has a step to take that does not put it to sleep and brings the end
    nearer (no deadlock); and the program can run from there to its end on
    such steps alone, without any spurious wake-up. *)
Theorem step3_wakeups_prevent_deadlock (evs : list event) (s : sys) :
  run evs init_sys = Some s ->
  (exists sched, Step3.run sched Step3.init_sys = Some (erase s))
  /\ (prod s = PDone -> WaitSet.asleep (mon s) = [])
  /\ (shared_buffer (WaitSet.data (mon s)) <> [] ->
      (forall i, prod s <> PNotifyOne i) ->
      exists k, awake_in_loop k s)
  /\ (terminated s = false ->
      exists th pick s',
        WaitSet.sleeping thread_eqb th (mon s) = false
        /\ step (Run th pick) s = Some s'
        /\ WaitSet.sleeping thread_eqb th (mon s') = false
        /\ (steps_left s' < steps_left s)%nat)
  /\ (exists evs' s',
        forallb is_run evs' = true
        /\ run evs' s = Some s'
        /\ terminated s' = true).
Proof.
  intros Hrun.
  destruct (s3_run_invs evs _ _ Hrun s3_init_data_inv s3_init_wait_inv)
    as [Hinv Hw].
  pose proof (s3_run_length_cons _ _ _ Hrun) as Hlen. cbn in Hlen.
  split; [apply (s3_run_erase evs _ _ Hrun)|].
  split; [apply Hw|].
  split.
  { intros Hb Hno. apply Hw; [exact Hb| |exact Hno].
    intros Hc. rewrite Hc in Hlen. discriminate. }
  split; [apply s3_progress; assumption|].
  apply (s3_can_finish _ s (le_n _) Hinv Hw).
Qed.

Lemma step3_wakeups_prevent_deadlock_witness :
  run [Run (Consumer 0) Producer; Run (Consumer 1) Producer;
       Run Producer Producer; Run Producer (Consumer 1)] init_sys
  = Some (mkSys
            (WaitSet.mkMon (mkShared [1] false)
               [(buffer_condition, Consumer 0)])
            (PLoop 2) [CLoop 0; CLoop 0] [])
  /\ exists k,
       awake_in_loop k
         (mkSys
            (WaitSet.mkMon (mkShared [1] false)
               [(buffer_condition, Consumer 0)])
            (PLoop 2) [CLoop 0; CLoop 0] []).
Proof.
  assert (R : run [Run (Consumer 0) Producer; Run (Consumer 1) Producer;
                   Run Producer Producer; Run Producer (Consumer 1)]
                init_sys
              = Some (mkSys
                        (WaitSet.mkMon (mkShared [1] false)
                           [(buffer_condition, Consumer 0)])
                        (PLoop 2) [CLoop 0; CLoop 0] []))
    by (vm_compute; reflexivity).
  split; [exact R|].
  refine (proj1 (proj2 (proj2 (step3_wakeups_prevent_deadlock _ _ R)))
            _ _).
  - discriminate.
  - intros i; discriminate.
Defined.


End Step3WFacts.
